(** * depthai_demo.py: the demo's control surface, modelled and verified

    The demo is glue around the device SDK.  What it owns is small and
    stateful: the rotating median-filter choice, the camera tuning
    dictionary driven by the keyboard, the mirrored trackbars, the CSV
    report, the start-up checks and the queue reads of the polling loop.
    Each of them is embedded below as the Python source has it: Python
    integers are [Z], clock readings are binary64 floats, [None]-able
    entries are [option], dictionaries whose
    iteration order matters are association lists, a raised exception is
    the left injection of a sum, and calls into the SDK or into OpenCV are
    kept as an explicit log or an explicit piece of state. *)

From Stdlib Require Import ZArith Ascii String PrimFloat.
From stdpp Require Import gmap strings list pretty sorting.

Local Open Scope Z_scope.

(** ** Exceptions *)

Inductive exn :=
  | StopIteration
  | AttributeError
  | ValueError
  | RuntimeError
  | KeyError.

(** [inl e]: the call raised [e]; [inr x]: it returned [x]. *)
Definition result (A : Type) : Type := exn + A.

Definition raise {A} (e : exn) : result A := inl e.
Definition ret {A} (x : A) : result A := inr x.
Definition bind {A B} (m : result A) (k : A -> result B) : result B :=
  match m with
  | inl e => inl e
  | inr x => k x
  end.

Notation "x <- m ;; k" := (bind m (fun x => k))
  (at level 100, m at next level, right associativity).

(** Truth value of an optional command-line string: [None] and the empty
    string are false. *)
Definition truthy (x : option string) : bool :=
  match x with
  | Some s => negb (String.eqb s "")
  | None => false
  end.

(** [ord(c)] for a one-character string. *)
Definition ord (c : ascii) : Z := Z.of_N (N_of_ascii c).

(** ** itertools.cycle over a list *)

Module Itertools.

(** The iterator keeps the saved elements and the place of the next one. *)
Record cycle (A : Type) := Cycle { saved : list A; cursor : nat }.
Arguments Cycle {A} _ _.
Arguments saved {A} _.
Arguments cursor {A} _.

Definition mk_cycle {A} (l : list A) : cycle A := Cycle l 0.

(** [next(it)]: an empty cycle is exhausted at once. *)
Definition next {A} (c : cycle A) : result (A * cycle A) :=
  match saved c !! cursor c with
  | Some x => ret (x, Cycle (saved c) (S (cursor c) mod length (saved c))%nat)
  | None => raise StopIteration
  end.

End Itertools.

Import Itertools.

(** ** Demo: median filter cycle, camera tuning, keyboard *)

Module Demo.

(** [[item for name, item in vars(dai.MedianFilter).items()
      if name.startswith('KERNEL_') or name.startswith('MEDIAN_')]] *)
Definition medianChoices {A} (members : list (string * A)) : list A :=
  omap (fun '(name, item) =>
          if String.prefix "KERNEL_" name || String.prefix "MEDIAN_" name
          then Some item else None) members.

(** The [for medFilter in self._medianFilters] scan of [run], which leaves
    the cycle just after the configured filter.  [fuel] bounds the number
    of iterations; [None] means the scan is still running after [fuel] of
    them.  When the iterator is exhausted the [for] statement ends. *)
Fixpoint seekMedian {A} `{EqDecision A} (fuel : nat) (current : A)
    (c : cycle A) : option (cycle A) :=
  match fuel with
  | O => None
  | S fuel' =>
      match next c with
      | inl _ => Some c
      | inr (medFilter, c') =>
          if decide (medFilter = current) then Some c'
          else seekMedian fuel' current c'
      end
  end.

Record CameraConfig := {
  exposure : option Z;
  sensitivity : option Z;
  saturation : option Z;
  contrast : option Z;
  brightness : option Z;
  sharpness : option Z
}.

Definition set_exposure (v : Z) (c : CameraConfig) : CameraConfig :=
  {| exposure := Some v; sensitivity := sensitivity c;
     saturation := saturation c; contrast := contrast c;
     brightness := brightness c; sharpness := sharpness c |}.
Definition set_sensitivity (v : Z) (c : CameraConfig) : CameraConfig :=
  {| exposure := exposure c; sensitivity := Some v;
     saturation := saturation c; contrast := contrast c;
     brightness := brightness c; sharpness := sharpness c |}.
Definition set_saturation (v : Z) (c : CameraConfig) : CameraConfig :=
  {| exposure := exposure c; sensitivity := sensitivity c;
     saturation := Some v; contrast := contrast c;
     brightness := brightness c; sharpness := sharpness c |}.
Definition set_contrast (v : Z) (c : CameraConfig) : CameraConfig :=
  {| exposure := exposure c; sensitivity := sensitivity c;
     saturation := saturation c; contrast := Some v;
     brightness := brightness c; sharpness := sharpness c |}.
Definition set_brightness (v : Z) (c : CameraConfig) : CameraConfig :=
  {| exposure := exposure c; sensitivity := sensitivity c;
     saturation := saturation c; contrast := contrast c;
     brightness := Some v; sharpness := sharpness c |}.
Definition set_sharpness (v : Z) (c : CameraConfig) : CameraConfig :=
  {| exposure := exposure c; sensitivity := sensitivity c;
     saturation := saturation c; contrast := contrast c;
     brightness := brightness c; sharpness := Some v |}.

(** [d if x is None else f(x)] *)
Definition if_none (x : option Z) (d : Z) (f : Z -> Z) : Z :=
  match x with
  | None => d
  | Some v => f v
  end.

(** The [if key == ord('t') ... else: update = False] chain of [loop]:
    the dictionary after the key, and the [update] flag. *)
Definition cameraKey (key : Z) (c : CameraConfig) : CameraConfig * bool :=
  if decide (key = ord "t") then
    let c := set_exposure
      (if_none (exposure c) 10000
         (fun e => if decide (e = 1) then 500 else Z.min (e + 500) 33000)) c in
    (match sensitivity c with None => set_sensitivity 800 c | Some _ => c end, true)
  else if decide (key = ord "g") then
    let c := set_exposure
      (if_none (exposure c) 10000 (fun e => Z.max (e - 500) 1)) c in
    (match sensitivity c with None => set_sensitivity 800 c | Some _ => c end, true)
  else if decide (key = ord "y") then
    let c := set_sensitivity
      (if_none (sensitivity c) 800 (fun s => Z.min (s + 50) 1600)) c in
    (match exposure c with None => set_exposure 10000 c | Some _ => c end, true)
  else if decide (key = ord "h") then
    let c := set_sensitivity
      (if_none (sensitivity c) 800 (fun s => Z.max (s - 50) 100)) c in
    (match exposure c with None => set_exposure 10000 c | Some _ => c end, true)
  else if decide (key = ord "u") then
    (set_saturation (if_none (saturation c) 0 (fun v => Z.min (v + 1) 10)) c, true)
  else if decide (key = ord "j") then
    (set_saturation (if_none (saturation c) 0 (fun v => Z.max (v - 1) (-10))) c, true)
  else if decide (key = ord "i") then
    (set_contrast (if_none (contrast c) 0 (fun v => Z.min (v + 1) 10)) c, true)
  else if decide (key = ord "k") then
    (set_contrast (if_none (contrast c) 0 (fun v => Z.max (v - 1) (-10))) c, true)
  else if decide (key = ord "o") then
    (set_brightness (if_none (brightness c) 0 (fun v => Z.min (v + 1) 10)) c, true)
  else if decide (key = ord "l") then
    (set_brightness (if_none (brightness c) 0 (fun v => Z.max (v - 1) (-10))) c, true)
  else if decide (key = ord "p") then
    (set_sharpness (if_none (sharpness c) 0 (fun v => Z.min (v + 1) 4)) c, true)
  else if decide (key = ord ";") then
    (set_sharpness (if_none (sharpness c) 0 (fun v => Z.max (v - 1) 0)) c, true)
  else (c, false).

(** The keys of the chain above; no other key reads the dictionary. *)
Definition cameraKeys : list Z :=
  ord <$> ["t"; "g"; "y"; "h"; "u"; "j"; "i"; "k"; "o"; "l"; "p"; ";"]%char.

(** What the demo hands to the pipeline manager.  The manager belongs to
    the SDK: its calls are recorded in the order they are made, with their
    arguments, and not interpreted. *)
Inductive SdkCall (A : Type) :=
  | UpdateDepthConfig (median : A)
  | UpdateLeftCamConfig (c : CameraConfig)
  | UpdateRightCamConfig (c : CameraConfig)
  | UpdateColorCamConfig (c : CameraConfig).
Arguments UpdateDepthConfig {A} _.
Arguments UpdateLeftCamConfig {A} _.
Arguments UpdateRightCamConfig {A} _.
Arguments UpdateColorCamConfig {A} _.

Record Conf := {
  displayFrames : bool;
  cameraControlls : bool;
  leftCameraEnabled : bool;
  rightCameraEnabled : bool;
  rgbCameraEnabled : bool
}.

(** The attributes of [self] that the keyboard handling touches.
    [_cameraConfig] is [None] while the attribute is not set ([run] sets
    it only when a camera is used). *)
Record Demo (A : Type) := {
  _medianFilters : cycle A;
  _cameraConfig : option CameraConfig;
  sdkCalls : list (SdkCall A)
}.
Arguments _medianFilters {A} _.
Arguments _cameraConfig {A} _.
Arguments sdkCalls {A} _.

Definition call {A} (x : SdkCall A) (d : Demo A) : Demo A :=
  {| _medianFilters := _medianFilters d; _cameraConfig := _cameraConfig d;
     sdkCalls := sdkCalls d ++ [x] |}.

Definition _updateCameraConfigs {A} (conf : Conf) (c : CameraConfig)
    (d : Demo A) : Demo A :=
  let d := if leftCameraEnabled conf then call (UpdateLeftCamConfig c) d else d in
  let d := if rightCameraEnabled conf then call (UpdateRightCamConfig c) d else d in
  if rgbCameraEnabled conf then call (UpdateColorCamConfig c) d else d.

(** The tail of [loop], from [if self._displayFrames:] on, for the key
    that [cv2.waitKey(1)] returned. *)
Definition loopKey {A} (conf : Conf) (key : Z) (d : Demo A) : result (Demo A) :=
  if displayFrames conf then
    d <- (if decide (key = ord "q") then raise StopIteration
          else if decide (key = ord "m") then
            nxt <- next (_medianFilters d) ;;
            let '(nextFilter, c) := nxt in
            ret (call (UpdateDepthConfig nextFilter)
                   {| _medianFilters := c; _cameraConfig := _cameraConfig d;
                      sdkCalls := sdkCalls d |})
          else ret d) ;;
    if cameraControlls conf then
      match _cameraConfig d with
      | Some c =>
          let '(c, update) := cameraKey key c in
          let d := {| _medianFilters := _medianFilters d;
                      _cameraConfig := Some c; sdkCalls := sdkCalls d |} in
          ret (if update then _updateCameraConfigs conf c d else d)
      | None =>
          if decide (key ∈ cameraKeys) then raise AttributeError else ret d
      end
    else ret d
  else ret d.

(** One [loop] call per key, as the [while] of [run] makes them; the
    first exception ends the run. *)
Fixpoint loopKeys {A} (conf : Conf) (keys : list Z) (d : Demo A)
    : result (Demo A) :=
  match keys with
  | [] => ret d
  | key :: keys => d <- loopKey conf key d ;; loopKeys conf keys d
  end.

(** The medians handed to [updateDepthConfig], oldest first. *)
Definition medianUpdates {A} (calls : list (SdkCall A)) : list A :=
  omap (fun x => match x with UpdateDepthConfig m => Some m | _ => None end) calls.

End Demo.

(** ** Python dictionaries in insertion order *)

Module PyDict.

Abbreviation dict K V := (list (K * V)) (only parsing).

Fixpoint get {K V} `{EqDecision K} (k : K) (d : dict K V) : option V :=
  match d with
  | [] => None
  | (k', v) :: d => if decide (k' = k) then Some v else get k d
  end.

(** [d[k] = v]: an existing key keeps its place, a new key goes last. *)
Fixpoint set {K V} `{EqDecision K} (k : K) (v : V) (d : dict K V) : dict K V :=
  match d with
  | [] => [(k, v)]
  | (k', v') :: d => if decide (k' = k) then (k, v) :: d else (k', v') :: set k v d
  end.

(** [{**d, k1: v1, ..., kn: vn}] *)
Definition update {K V} `{EqDecision K} (d : dict K V) (items : list (K * V))
    : dict K V :=
  foldl (fun d kv => set kv.1 kv.2 d) d items.

Definition keys {K V} (d : dict K V) : list K := fst <$> d.
Definition values {K V} (d : dict K V) : list V := snd <$> d.

End PyDict.

(** ** Trackbars *)

Module Trackbars.

(** [Trackbars.instances] (trackbar name, then window, to the stored
    value), the OpenCV trackbars that exist with the position each one
    shows, and the user callbacks invoked so far, logged as the trackbar
    (name and window) whose callback it was and the value passed.

    OpenCV is outside the repository.  Its trackbars are modelled by what
    [createTrackbar] and [setTrackbarPos] are documented to do: a trackbar
    has a position and an [onChange] handler, and the handler runs every
    time the position changes, also when [setTrackbarPos] changes it.
    Values are taken to lie in the slider's range, so nothing is clamped. *)
Record World := {
  instances : gmap string (PyDict.dict string Z);
  trackbarPos : gmap (string * string) Z;
  callbackLog : list (string * string * Z)
}.

Definition stored (s : World) (name window : string) : option Z :=
  instances s !! name ≫= PyDict.get window.

Definition displayed (s : World) (name window : string) : option Z :=
  trackbarPos s !! (name, window).

(** The windows registered under a trackbar name, in dictionary order. *)
Definition windows (s : World) (name : string) : list string :=
  PyDict.keys (default [] (instances s !! name)).

Definition set_stored (name window : string) (value : Z) (s : World) : World :=
  {| instances :=
       <[name := PyDict.set window value (default [] (instances s !! name))]>
         (instances s);
     trackbarPos := trackbarPos s;
     callbackLog := callbackLog s |}.

Definition set_displayed (name window : string) (value : Z) (s : World) : World :=
  {| instances := instances s;
     trackbarPos := <[(name, window) := value]> (trackbarPos s);
     callbackLog := callbackLog s |}.

Definition callback (name window : string) (value : Z) (s : World) : World :=
  {| instances := instances s;
     trackbarPos := trackbarPos s;
     callbackLog := callbackLog s ++ [(name, window, value)] |}.

(** A computation that may still be running when the fuel is spent
    ([None]), raise, or return. *)
Definition run (A : Type) : Type := option (result A).

Fixpoint forEach {A S} (body : A -> S -> run S) (l : list A) (s : S) : run S :=
  match l with
  | [] => Some (ret s)
  | x :: l =>
      match body x s with
      | Some (inr s) => forEach body l s
      | r => r
      end
  end.

(** [cv2.setTrackbarPos(name, window, value)], given the handler that
    OpenCV holds for each trackbar. *)
Definition setTrackbarPos (onChange : string -> string -> Z -> World -> run World)
    (name window : string) (value : Z) (s : World) : run World :=
  match displayed s name window with
  | Some pos =>
      if decide (pos = value) then Some (ret s)
      else onChange name window value (set_displayed name window value s)
  | None => Some (ret s)
  end.

(** The handler [fn] that [createTrackbar] registers for the trackbar
    [name] of [window].  The items view of the dictionary is live: each
    [previousValue] is read when its turn comes.  [fuel] bounds the depth
    of handlers running inside handlers. *)
Fixpoint fn (fuel : nat) (name window : string) (value : Z) (s : World)
    : run World :=
  match fuel with
  | O => None
  | S fuel =>
      match stored s name window with
      | None => Some (raise KeyError)
      | Some own =>
          let s := if decide (own ≠ value) then callback name window value s
                   else s in
          forEach
            (fun otherWindow s =>
               match stored s name otherWindow with
               | Some previousValue =>
                   if decide (otherWindow ≠ window ∧ previousValue ≠ value) then
                     setTrackbarPos (fn fuel) name otherWindow value
                       (set_stored name otherWindow value s)
                   else Some (ret s)
               | None => Some (ret s)
               end)
            (windows s name) s
      end
  end.

(** [Trackbars.createTrackbar(name, window, minVal, maxVal, defaultVal,
    callback)]: the new trackbar starts at [minVal]. *)
Definition createTrackbar (fuel : nat) (name window : string)
    (minVal maxVal defaultVal : Z) (s : World) : run World :=
  let s := set_displayed name window minVal s in
  let s := set_stored name window defaultVal s in
  setTrackbarPos (fn fuel) name window defaultVal s.

(** The user drags the slider of an existing trackbar to [value]: OpenCV
    shows the new position and runs the handler. *)
Definition changeEvent (fuel : nat) (name window : string) (value : Z)
    (s : World) : run World :=
  fn fuel name window value (set_displayed name window value s).

Definition empty : World :=
  {| instances := ∅; trackbarPos := ∅; callbackLog := [] |}.

End Trackbars.

(** ** The trackbars of the demo *)

Module QueueCallback.

Import Trackbars.

(** The depth arguments that give the trackbars their defaults, and the
    class constants that give them their ranges. *)
Record Conf := {
  displayFrames : bool;
  disparityConfidenceThreshold : Z;
  sigma : Z;
  lrcThreshold : Z;
  stereoLrCheck : bool;
  DISP_CONF_MIN : Z;
  DISP_CONF_MAX : Z;
  SIGMA_MIN : Z;
  SIGMA_MAX : Z;
  LRCT_MIN : Z;
  LRCT_MAX : Z
}.

Definition andThen (m : run World) (k : World -> run World) : run World :=
  match m with
  | Some (inr s) => k s
  | r => r
  end.

(** [Demo._createQueueCallback], called by the preview manager with the
    name of each queue it creates; the window carries that name. *)
Definition _createQueueCallback (fuel : nat) (c : Conf) (queueName : string)
    (s : World) : run World :=
  if displayFrames c
     && bool_decide (queueName ∈ ["disparityColor"; "disparity"; "depth"; "depthRaw"])
  then
    andThen
      (createTrackbar fuel "Disparity confidence" queueName
         (DISP_CONF_MIN c) (DISP_CONF_MAX c) (disparityConfidenceThreshold c) s)
      (fun s =>
         andThen
           (if bool_decide (queueName ∈ ["depthRaw"; "depth"]) then
              createTrackbar fuel "Bilateral sigma" queueName
                (SIGMA_MIN c) (SIGMA_MAX c) (sigma c) s
            else Some (ret s))
           (fun s =>
              if stereoLrCheck c then
                createTrackbar fuel "LR-check threshold" queueName
                  (LRCT_MIN c) (LRCT_MAX c) (lrcThreshold c) s
              else Some (ret s)))
  else Some (ret s).

(** The default of each trackbar name. *)
Definition defaultOf (c : Conf) (name : string) : Z :=
  if decide (name = "Disparity confidence") then disparityConfidenceThreshold c
  else if decide (name = "Bilateral sigma") then sigma c
  else lrcThreshold c.

(** The states after the queues were created ... *)
Inductive created (c : Conf) : World -> Prop :=
  | created_empty : created c empty
  | created_queue s s' fuel queueName :
      created c s ->
      _createQueueCallback fuel c queueName s = Some (inr s') ->
      created c s'.

(** ... and those the demo is in afterwards, while sliders are moved. *)
Inductive running (c : Conf) : World -> Prop :=
  | running_created s : created c s -> running c s
  | running_event s s' fuel name w value :
      running c s ->
      w ∈ windows s name ->
      changeEvent fuel name w value s = Some (inr s') ->
      running c s'.

End QueueCallback.

(** ** Start-up: the video path check and what follows it *)

Module Startup.

Inductive event :=
  | DownloadYTVideo (url : string)
  | CreatePipelineManager
  | OpenDevice.

Section Startup.

(** The files that exist, and the local path [downloadYTVideo] returns. *)
Variable fs : gset string.
Variable downloadYTVideo : string -> string.

(** Lines 28 to 33: the events so far, and [confManager.args.video]
    afterwards unless the check raised. *)
Definition checkVideo (useCamera : bool) (video : string)
    : list event * result string :=
  if negb useCamera then
    let '(log, video) :=
      if String.prefix "https" video
      then ([DownloadYTVideo video], downloadYTVideo video)
      else ([], video) in
    if negb (bool_decide (video ∈ fs)) then (log, raise ValueError)
    else (log, ret video)
  else ([], ret video).

(** The module body followed by [Demo.setup], which builds the pipeline
    manager and opens the device. *)
Definition startup (useCamera : bool) (video : string)
    : list event * result string :=
  match checkVideo useCamera video with
  | (log, inl e) => (log, inl e)
  | (log, inr video) => (log ++ [CreatePipelineManager; OpenDevice], ret video)
  end.

(** The path that [Path(...).exists()] is asked about. *)
Definition resolvedVideo (video : string) : string :=
  if String.prefix "https" video then downloadYTVideo video else video.

End Startup.

End Startup.

(** ** Demo.setup: the encoding manager *)

Module Setup.

Record EncodingManager := {
  encodeConfig : list (string * Z);
  encodeOutput : string;
  encodersCreated : bool
}.

(** Lines 145 and 181 to 184.  The outer [None]: the attribute
    [_encManager] was not assigned; [Some None]: it is [None]. *)
Definition setup_encManager (useCamera sync : bool)
    (encode : list (string * Z)) (output : string)
    : option (option EncodingManager) :=
  if useCamera || sync then
    Some (if decide (1 < length encode)%nat
          then Some {| encodeConfig := encode; encodeOutput := output;
                       encodersCreated := true |}
          else None)
  else None.

(** The sibling test of [setup] three lines further, for the report list:
    [len(self._conf.args.report) > 0]. *)
Definition setup_systemLogger (report : list string) : bool :=
  bool_decide (0 < length report)%nat.

End Setup.

(** ** Demo.loop: the queue reads of one iteration *)

Module Loop.

Inductive queue :=
  | sbbOut          (* self._sbbOut *)
  | nnOut           (* self._nnManager.outputQueue *)
  | hostOut         (* self._hostOut *)
  | logOut.         (* self._logOut *)

Inductive read :=
  | tryGet (q : queue)
  | tryGetAll (q : queue)
  | get (q : queue).     (* waits until a message is there *)

Record Conf := {
  useCamera : bool;
  useNN : bool;
  sync : bool;
  spatialBoundingBox : bool;
  report : list string
}.

(** What one iteration finds: whether [self._cap.read()] delivered a
    frame, and whether the network queue held a result. *)
Record Env := {
  readCorrectly : bool;
  nnReady : bool
}.

(** [run] creates [_sbbOut] and [_logOut] under these conditions. *)
Definition has_sbbOut (c : Conf) : bool := useNN c && spatialBoundingBox c.
Definition has_logOut (c : Conf) : bool := bool_decide (0 < length (report c))%nat.

(** The reads that [loop] itself makes, in order, up to the key handling,
    with the exception that cut the iteration short, if any. *)
Definition loopReads (c : Conf) (e : Env) : list read * option exn :=
  let first :=
    if useCamera c then
      (if has_sbbOut c then [tryGet sbbOut] else [], None)
    else if negb (readCorrectly e) then ([], Some StopIteration)
    else if negb (useNN c) then ([], Some AttributeError)
    else ([], None) in
  match first with
  | (reads, Some x) => (reads, Some x)
  | (reads, None) =>
      let nn :=
        if useNN c then
          tryGet nnOut ::
            (if nnReady e then
               if negb (useCamera c) && sync c then [get hostOut] else []
             else [])
        else [] in
      let log := if has_logOut c then [tryGetAll logOut] else [] in
      (reads ++ nn ++ log, None)
  end.

Definition nonBlocking (r : read) : bool :=
  match r with
  | tryGet _ | tryGetAll _ => true
  | get _ => false
  end.

End Loop.

(** ** App.stop: waiting for the device to come back *)

Module App.

(** One turn of the [while]: the float that [time.time()] returns when the
    condition is evaluated, and the MxIds that [getAllAvailableDevices]
    lists if the body runs.  Python's floats are the binary64 numbers. *)
Record turn := { now : float; available : list string }.

(** [time.time() - start < 10]: the binary64 difference of the two clock
    readings, rounded as Python rounds it, compared with 10. *)
Definition inTime (start now : float) : bool :=
  PrimFloat.ltb (PrimFloat.sub now start) 10%float.

(** [stop], from [start = time.time()] on: the [while ... else].
    [None]: the turns given are used up and the loop is still running. *)
Fixpoint stop (current_mxid : string) (start : float) (turns : list turn)
    : option (result unit) :=
  match turns with
  | [] => None
  | t :: turns =>
      if inTime start (now t) then
        if decide (current_mxid ∈ available t) then Some (ret tt)
        else stop current_mxid start turns
      else Some (raise RuntimeError)
  end.

End App.

(** ** pathlib: the suffix of a file name *)

Module Pathlib.

(** [s.rfind(c)], [None] standing for -1. *)
Fixpoint rfind (c : ascii) (s : string) : option nat :=
  match s with
  | EmptyString => None
  | String a s =>
      match rfind c s with
      | Some i => Some (S i)
      | None => if decide (a = c) then Some O else None
      end
  end.

(** [PurePath.suffix], on the final component [name]. *)
Definition suffix (name : string) : string :=
  match rfind "." name with
  | Some i =>
      if decide (0 < i < String.length name - 1)%nat
      then substring i (String.length name - i) name
      else ""
  | None => ""
  end.

(** [PurePath.with_suffix], on the final component [name]. *)
Definition with_suffix (name sfx : string) : result string :=
  if decide (is_Some (rfind "/" sfx)) then raise ValueError
  else if decide ((sfx ≠ "" ∧ String.prefix "." sfx = false) ∨ sfx = ".")
  then raise ValueError
  else if decide (name = "") then raise ValueError
  else
    let old_suffix := suffix name in
    if decide (old_suffix = "") then ret (name +:+ sfx)
    else ret (substring 0 (String.length name - String.length old_suffix) name
                +:+ sfx).

End Pathlib.

(** ** The CSV report *)

Module Report.

Definition newline : string := String (ascii_of_nat 10) EmptyString.

(** [Path(self._conf.args.reportFile).with_suffix('.csv')], on the file
    name of the path; the file is then opened with mode ['a']. *)
Definition reportFileName (name : string) : result string :=
  Pathlib.with_suffix name ".csv".


(** A text file opened for appending: what it holds.  [tell()] is the
    size, [print(line, file=f)] adds the line and a newline. *)
Definition tell (f : string) : nat := String.length f.
Definition print (line : string) (f : string) : string :=
  f +:+ line +:+ newline.

Section Report.

(** The numbers of a system-information message and Python's [str] on
    them (integers for memory, floats for temperature and load). *)
Variable Val : Type.
Variable str : Val -> string.

Record MemoryUsage := { used : Val; total : Val }.
Record ChipTemperature :=
  { average : Val; css : Val; mss : Val; upa : Val; dss : Val }.
(** [CpuUsage.average] *)
Record CpuUsage := { cpuAverage : Val }.

Record SystemInformation := {
  ddrMemoryUsage : MemoryUsage;
  cmxMemoryUsage : MemoryUsage;
  leonCssMemoryUsage : MemoryUsage;
  leonMssMemoryUsage : MemoryUsage;
  chipTemperature : ChipTemperature;
  leonCssCpuUsage : CpuUsage;
  leonMssCpuUsage : CpuUsage
}.

(** The [data] dictionary of [_printSysInfo]. *)
Definition reportData (report : list string) (info : SystemInformation)
    : PyDict.dict string Val :=
  let data := [] in
  let data :=
    if bool_decide ("memory" ∈ report) then
      PyDict.update data
        [("ddrUsed", used (ddrMemoryUsage info));
         ("ddrTotal", total (ddrMemoryUsage info));
         ("cmxUsed", used (cmxMemoryUsage info));
         ("cmxTotal", total (cmxMemoryUsage info));
         ("leonCssUsed", used (leonCssMemoryUsage info));
         ("leonCssTotal", total (leonCssMemoryUsage info));
         ("leonMssUsed", used (leonMssMemoryUsage info));
         ("leonMssTotal", total (leonMssMemoryUsage info))]
    else data in
  let data :=
    if bool_decide ("temp" ∈ report) then
      PyDict.update data
        [("tempAvg", average (chipTemperature info));
         ("tempCss", css (chipTemperature info));
         ("tempMss", mss (chipTemperature info));
         ("tempUpa0", upa (chipTemperature info));
         ("tempUpa1", dss (chipTemperature info))]
    else data in
  if bool_decide ("cpu" ∈ report) then
    PyDict.update data
      [("cpuCssAvg", cpuAverage (leonCssCpuUsage info));
       ("cpuMssAvg", cpuAverage (leonMssCpuUsage info))]
  else data.

(** The [onReport] callback is handed the dictionary itself and may
    change it; it returns the dictionary as it leaves it. *)
Variable onReport : PyDict.dict string Val -> PyDict.dict string Val.

(** [_printSysInfo], as far as the report file goes; without a report
    file the message goes to the terminal. *)
Definition _printSysInfo (reportFile : option string) (report : list string)
    (info : SystemInformation) (f : string) : string :=
  if negb (truthy reportFile) then f
  else
    let data := reportData report info in
    let f := if decide (tell f = 0)%nat
             then print (String.concat "," (PyDict.keys data)) f
             else f in
    let data := onReport data in
    print (String.concat "," (str <$> PyDict.values data)) f.

(** The messages of a run, in the order [loop] drains them. *)
Definition printAll (reportFile : option string) (report : list string)
    (infos : list SystemInformation) (f : string) : string :=
  foldl (fun f info => _printSysInfo reportFile report info f) f infos.

End Report.

(** The default callback of [Demo]: [noop = lambda *a, **k: None]. *)
Definition noop {Val} (data : PyDict.dict string Val) : PyDict.dict string Val :=
  data.

End Report.

(** ** Demo.run: the state that the keyboard handling starts from *)

Module Run.

(** [any(self._cameraConfig.values())]: [None] and 0 count as false. *)
Definition anySet (c : Demo.CameraConfig) : bool :=
  existsb (fun v => match v with
                    | Some z => negb (z =? 0)
                    | None => false
                    end)
    [Demo.exposure c; Demo.sensitivity c; Demo.saturation c;
     Demo.contrast c; Demo.brightness c; Demo.sharpness c].

(** Lines 213 to 234 of [run]: the cycle is moved to the configured filter;
    with a camera the dictionary is filled from the command line and sent
    at once if [any] of its values is true; without one the attribute
    [_cameraConfig] is not assigned.  [None]: the scan is still running. *)
Definition start {A} `{EqDecision A} (fuel : nat) (members : list (string * A))
    (current : A) (conf : Demo.Conf) (useCamera : bool)
    (args : Demo.CameraConfig) : option (Demo.Demo A) :=
  match Demo.seekMedian fuel current (mk_cycle (Demo.medianChoices members)) with
  | None => None
  | Some c =>
      if useCamera then
        let d := {| Demo._medianFilters := c; Demo._cameraConfig := Some args;
                    Demo.sdkCalls := [] |} in
        Some (if anySet args then Demo._updateCameraConfigs conf args d else d)
      else
        Some {| Demo._medianFilters := c; Demo._cameraConfig := None;
                Demo.sdkCalls := [] |}
  end.

End Run.

(** ** Demo._showFramesCallback: the median filter label *)

Module ShowFrames.

(** Whether the character occurs in the string. *)
Fixpoint occurs (a : ascii) (chars : string) : bool :=
  match chars with
  | EmptyString => false
  | String b chars => if decide (a = b) then true else occurs a chars
  end.

(** [s.lstrip(chars)]: the leading characters that occur in [chars] go. *)
Fixpoint lstrip (chars : string) (s : string) : string :=
  match s with
  | EmptyString => EmptyString
  | String a rest => if occurs a chars then lstrip chars rest else s
  end.

(** ["Median filter: {} [M]".format(
       median.name.lstrip("KERNEL_").lstrip("MEDIAN_"))] *)
Definition medianLabel (name : string) : string :=
  lstrip "MEDIAN_" (lstrip "KERNEL_" name).

Definition medianText (name : string) : string :=
  "Median filter: " +:+ medianLabel name +:+ " [M]".

End ShowFrames.

(** ** Worker.onSetup: the order of the model choices *)

Module Worker.

(** The comparison handed to [cmp_to_key]. *)
Definition cmp (a b : string) : Z :=
  if decide (a = "mobilenet-ssd") then -1
  else if decide (b = "mobilenet-ssd") then 1
  else if String.ltb a b then -1 else 1.

(** [sorted(l, key=cmp_to_key(cmp))].  Python's sort is stable and asks the
    keys only whether one is less than the other, which [cmp_to_key] answers
    by [cmp(a, b) < 0]; it is modelled by a stable insertion sort that asks
    the same question. *)
Fixpoint insert (cmp : string -> string -> Z) (x : string) (l : list string)
    : list string :=
  match l with
  | [] => [x]
  | y :: l' => if decide (cmp y x < 0) then y :: insert cmp x l' else x :: l
  end.

Definition sorted (cmp : string -> string -> Z) (l : list string) : list string :=
  foldr (insert cmp) [] l.

(** The ["modelChoices"] that [onSetup] sends to the GUI. *)
Definition modelChoices (availableZooModels : list string) : list string :=
  sorted cmp availableZooModels.

(** The ["medianChoices"] that [onSetup] sends to the GUI:
    [list(filter(lambda name: name.startswith('KERNEL_')
                 or name.startswith('MEDIAN_'),
                 vars(dai.MedianFilter).keys()))[::-1]]. *)
Definition medianChoices {A} (members : list (string * A)) : list string :=
  reverse
    (List.filter
       (fun name => String.prefix "KERNEL_" name || String.prefix "MEDIAN_" name)
       (fst <$> members)).

End Worker.

(** ** Vocabulary of the statements *)

(** *** The median filter cycle *)

(** The place of the first occurrence of [x] in [l]. *)
Definition position {A} `{EqDecision A} (x : A) (l : list A) : option nat :=
  fst <$> list_find (fun y => y = x) l.

(** How many of the keys are [key]. *)
Definition presses (key : Z) (keys : list Z) : nat :=
  length (filter (fun k => k = key) keys).

(** The first [n] elements that [next] draws from a cycle. *)
Fixpoint drawn {A} (n : nat) (c : cycle A) : list A :=
  match n with
  | O => []
  | S n =>
      match next c with
      | inr (x, c) => x :: drawn n c
      | inl _ => []
      end
  end.

(** The members of [dai.MedianFilter] and what [vars] lists for the class:
    the four members under their names, among other attributes. *)
Inductive MedianFilter := MEDIAN_OFF | KERNEL_3x3 | KERNEL_5x5 | KERNEL_7x7.

Inductive attribute :=
  | Member (m : MedianFilter)
  | Other (repr : string).

Global Instance MedianFilter_eq_dec : EqDecision MedianFilter.
Proof. solve_decision. Defined.

Global Instance attribute_eq_dec : EqDecision attribute.
Proof. solve_decision. Defined.

Definition vars_MedianFilter : list (string * attribute) :=
  [("__doc__", Other "doc"); ("__members__", Other "members");
   ("name", Other "property"); ("value", Other "property");
   ("MEDIAN_OFF", Member MEDIAN_OFF); ("KERNEL_3x3", Member KERNEL_3x3);
   ("KERNEL_5x5", Member KERNEL_5x5); ("KERNEL_7x7", Member KERNEL_7x7)].

(** *** The camera tuning dictionary *)

(** A keyboard session: every camera enabled, nothing tuned yet. *)
Definition noCameraConfig : Demo.CameraConfig :=
  {| Demo.exposure := None; Demo.sensitivity := None; Demo.saturation := None;
     Demo.contrast := None; Demo.brightness := None; Demo.sharpness := None |}.

Definition keyboardConf : Demo.Conf :=
  {| Demo.displayFrames := true; Demo.cameraControlls := true;
     Demo.leftCameraEnabled := true; Demo.rightCameraEnabled := true;
     Demo.rgbCameraEnabled := true |}.

(** [None], or a value between the bounds. *)
Definition within (lo hi : Z) (x : option Z) : Prop :=
  match x with
  | None => True
  | Some v => lo <= v <= hi
  end.

Definition camInBounds (c : Demo.CameraConfig) : Prop :=
  within 1 33000 (Demo.exposure c) /\ within 100 1600 (Demo.sensitivity c)
  /\ within (-10) 10 (Demo.saturation c) /\ within (-10) 10 (Demo.contrast c)
  /\ within (-10) 10 (Demo.brightness c) /\ within 0 4 (Demo.sharpness c).

(** An entry moved by [step] and clamped to its bounds, or set to its
    default when it was [None]. *)
Definition moved (lo hi dflt step : Z) (x : option Z) : option Z :=
  match x with
  | None => Some dflt
  | Some v => Some (Z.max lo (Z.min hi (v + step)))
  end.

(** What each key does to its entry, [c'] being the dictionary after the
    key; [exposureUp] is the effect of ['t'] on the exposure. *)
Definition keySteps (exposureUp : option Z -> option Z) (key : Z)
    (c c' : Demo.CameraConfig) : Prop :=
  (key = ord "t" -> Demo.exposure c' = exposureUp (Demo.exposure c))
  /\ (key = ord "g" ->
      Demo.exposure c' = moved 1 33000 10000 (-500) (Demo.exposure c))
  /\ (key = ord "y" ->
      Demo.sensitivity c' = moved 100 1600 800 50 (Demo.sensitivity c))
  /\ (key = ord "h" ->
      Demo.sensitivity c' = moved 100 1600 800 (-50) (Demo.sensitivity c))
  /\ (key = ord "u" ->
      Demo.saturation c' = moved (-10) 10 0 1 (Demo.saturation c))
  /\ (key = ord "j" ->
      Demo.saturation c' = moved (-10) 10 0 (-1) (Demo.saturation c))
  /\ (key = ord "i" -> Demo.contrast c' = moved (-10) 10 0 1 (Demo.contrast c))
  /\ (key = ord "k" ->
      Demo.contrast c' = moved (-10) 10 0 (-1) (Demo.contrast c))
  /\ (key = ord "o" ->
      Demo.brightness c' = moved (-10) 10 0 1 (Demo.brightness c))
  /\ (key = ord "l" ->
      Demo.brightness c' = moved (-10) 10 0 (-1) (Demo.brightness c))
  /\ (key = ord "p" -> Demo.sharpness c' = moved 0 4 0 1 (Demo.sharpness c))
  /\ (key = ord ";" -> Demo.sharpness c' = moved 0 4 0 (-1) (Demo.sharpness c)).

(** The steps as the specification words them: every key, ['t'] included,
    moves its entry by the fixed step, clamped. *)
Definition stepsAsStated : Prop :=
  forall key c, camInBounds c ->
    keySteps (moved 1 33000 10000 500) key c (Demo.cameraKey key c).1.

(** ['t'] as the code has it: from 1 the exposure goes to 500. *)
Definition exposureUp (x : option Z) : option Z :=
  if decide (x = Some 1) then Some 500 else moved 1 33000 10000 500 x.

(** The exposure at its lower bound. *)
Definition exposureOne : Demo.CameraConfig :=
  {| Demo.exposure := Some 1; Demo.sensitivity := Some 800;
     Demo.saturation := None; Demo.contrast := None;
     Demo.brightness := None; Demo.sharpness := None |}.

(** Each entry on its own: one that is within its bounds (or [None])
    before is so after. *)
Definition staysWithin (c c' : Demo.CameraConfig) : Prop :=
  (within 1 33000 (Demo.exposure c) -> within 1 33000 (Demo.exposure c'))
  /\ (within 100 1600 (Demo.sensitivity c) ->
      within 100 1600 (Demo.sensitivity c'))
  /\ (within (-10) 10 (Demo.saturation c) ->
      within (-10) 10 (Demo.saturation c'))
  /\ (within (-10) 10 (Demo.contrast c) -> within (-10) 10 (Demo.contrast c'))
  /\ (within (-10) 10 (Demo.brightness c) ->
      within (-10) 10 (Demo.brightness c'))
  /\ (within 0 4 (Demo.sharpness c) -> within 0 4 (Demo.sharpness c')).

(** The entry that [key] acts on is within its bounds (or [None]). *)
Definition ownWithin (key : Z) (c : Demo.CameraConfig) : Prop :=
  (key ∈ [ord "t"; ord "g"] -> within 1 33000 (Demo.exposure c))
  /\ (key ∈ [ord "y"; ord "h"] -> within 100 1600 (Demo.sensitivity c))
  /\ (key ∈ [ord "u"; ord "j"] -> within (-10) 10 (Demo.saturation c))
  /\ (key ∈ [ord "i"; ord "k"] -> within (-10) 10 (Demo.contrast c))
  /\ (key ∈ [ord "o"; ord "l"] -> within (-10) 10 (Demo.brightness c))
  /\ (key ∈ [ord "p"; ord ";"] -> within 0 4 (Demo.sharpness c)).

(** An entry moved up by [step] and cut off at the upper bound, or moved
    down and cut off at the lower bound, whatever its value was; a [None]
    entry is set to its default. *)
Definition raised (hi dflt step : Z) (x : option Z) : option Z :=
  match x with
  | None => Some dflt
  | Some v => Some (Z.min (v + step) hi)
  end.

Definition lowered (lo dflt step : Z) (x : option Z) : option Z :=
  match x with
  | None => Some dflt
  | Some v => Some (Z.max (v - step) lo)
  end.

(** What each key does to its entry, for every value of the entry. *)
Definition keyMoves (key : Z) (c c' : Demo.CameraConfig) : Prop :=
  (key = ord "t" ->
   Demo.exposure c' = if decide (Demo.exposure c = Some 1) then Some 500
                      else raised 33000 10000 500 (Demo.exposure c))
  /\ (key = ord "g" -> Demo.exposure c' = lowered 1 10000 500 (Demo.exposure c))
  /\ (key = ord "y" ->
      Demo.sensitivity c' = raised 1600 800 50 (Demo.sensitivity c))
  /\ (key = ord "h" ->
      Demo.sensitivity c' = lowered 100 800 50 (Demo.sensitivity c))
  /\ (key = ord "u" -> Demo.saturation c' = raised 10 0 1 (Demo.saturation c))
  /\ (key = ord "j" ->
      Demo.saturation c' = lowered (-10) 0 1 (Demo.saturation c))
  /\ (key = ord "i" -> Demo.contrast c' = raised 10 0 1 (Demo.contrast c))
  /\ (key = ord "k" -> Demo.contrast c' = lowered (-10) 0 1 (Demo.contrast c))
  /\ (key = ord "o" -> Demo.brightness c' = raised 10 0 1 (Demo.brightness c))
  /\ (key = ord "l" ->
      Demo.brightness c' = lowered (-10) 0 1 (Demo.brightness c))
  /\ (key = ord "p" -> Demo.sharpness c' = raised 4 0 1 (Demo.sharpness c))
  /\ (key = ord ";" -> Demo.sharpness c' = lowered 0 0 1 (Demo.sharpness c)).

(** An exposure given above its bound on the command line, next to a
    saturation at its bound. *)
Definition overExposed : Demo.CameraConfig :=
  {| Demo.exposure := Some 40000; Demo.sensitivity := None;
     Demo.saturation := Some 10; Demo.contrast := None;
     Demo.brightness := None; Demo.sharpness := None |}.

(** *** The queue reads *)

(** The reads as the specification words them: none of them waits. *)
Definition readsAsStated : Prop :=
  forall c e, Forall (fun r => Loop.nonBlocking r = true) (Loop.loopReads c e).1.

(** A video file as input, with [sync], and a network result waiting. *)
Definition videoSync : Loop.Conf :=
  {| Loop.useCamera := false; Loop.useNN := true; Loop.sync := true;
     Loop.spatialBoundingBox := false; Loop.report := [] |}.

Definition resultReady : Loop.Env :=
  {| Loop.readCorrectly := true; Loop.nnReady := true |}.

(** *** Files and devices *)

Definition videosOnDisk : gset string := {[ "videos/cars.mp4" ]}.
Definition savedAs (url : string) : string := "videos/downloaded.mp4".

(** The device listed again 3.5 seconds after a start at 1000, and only
    after 10.125 seconds. *)
Definition deviceBack : list App.turn :=
  [ {| App.now := 1000.25; App.available := [] |};
    {| App.now := 1003.5; App.available := ["14442C10D13EABCE00"] |} ].

Definition deviceGone : list App.turn :=
  [ {| App.now := 1000.25; App.available := [] |};
    {| App.now := 1010.125; App.available := ["14442C10D13EABCE00"] |} ].

(** The floats nearest to 0.1 and to 10.1: a clock that starts a tenth of
    a second after its epoch, and the device listed at the reading 10.1. *)
Definition tenth : float := 0x1.999999999999ap-4.

Definition nearEpoch : list App.turn :=
  [ {| App.now := 0x1.4333333333333p+3;
       App.available := ["14442C10D13EABCE00"] |} ].

(** *** The columns of the report *)

Section ReportColumns.

Context {Val : Type}.
Implicit Types (info : Report.SystemInformation Val) (report : list string).





Definition columnNames report : list string :=
  (if bool_decide ("memory" ∈ report)
   then ["ddrUsed"; "ddrTotal"; "cmxUsed"; "cmxTotal";
         "leonCssUsed"; "leonCssTotal"; "leonMssUsed"; "leonMssTotal"]
   else [])
  ++ (if bool_decide ("temp" ∈ report)
      then ["tempAvg"; "tempCss"; "tempMss"; "tempUpa0"; "tempUpa1"] else [])
  ++ (if bool_decide ("cpu" ∈ report) then ["cpuCssAvg"; "cpuMssAvg"] else []).


Variable str : Val -> string.

Definition headerLine report : string :=
  String.concat "," (columnNames report) +:+ Report.newline.



End ReportColumns.


(** An [onReport] callback that adds an entry to the dictionary it is
    handed: [data["fps"] = 30]. *)
Definition addsFps (data : PyDict.dict string Z) : PyDict.dict string Z :=
  PyDict.set "fps" 30 data.

(** *** The trackbars *)

(** The state that a handler for [value] on trackbar [name] works in: every
    window under the name has a trackbar, and a window that already stores
    [value] shows it. *)
Definition good (name : string) (value : Z) (s : Trackbars.World) : Prop :=
  (forall o, o ∈ Trackbars.windows s name ->
     is_Some (Trackbars.displayed s name o))
  /\ (forall o, Trackbars.stored s name o = Some value ->
        Trackbars.displayed s name o = Some value).

(** [N] holds every window whose stored value is not [value] yet. *)
Definition pending (name : string) (value : Z) (s : Trackbars.World)
    (N : gset string) : Prop :=
  forall o, o ∈ Trackbars.windows s name ->
    Trackbars.stored s name o ≠ Some value -> o ∈ N.

(** The trackbars of the other names are as they were. *)
Definition frame (name : string) (s s' : Trackbars.World) : Prop :=
  forall name', name' ≠ name ->
    Trackbars.instances s' !! name' = Trackbars.instances s !! name'
    /\ forall o, Trackbars.displayed s' name' o = Trackbars.displayed s name' o.

(** What the handler of window [x] has achieved once its loop has gone
    through the windows [l], [added] being the callbacks it made. *)
Record step (name : string) (value : Z) (x : string) (l : list string)
    (added : list (string * string * Z)) (s s' : Trackbars.World) : Prop := {
  step_windows : Trackbars.windows s' name = Trackbars.windows s name;
  step_good : good name value s';
  step_others : forall o, o ∈ l -> o ≠ x ->
    Trackbars.stored s' name o = Some value
    /\ Trackbars.displayed s' name o = Some value;
  step_displayed : Trackbars.displayed s' name x = Some value;
  step_mono : forall o,
    Trackbars.stored s name o = Some value ->
    Trackbars.stored s' name o = Some value;
  step_own :
    Trackbars.stored s' name x = Some value
    \/ (Trackbars.stored s' name x = Trackbars.stored s name x
        /\ forall o, o ∈ l -> o ≠ x ->
             Trackbars.stored s name o ≠ Some value ->
             Trackbars.displayed s name o = Some value);
  step_log : Trackbars.callbackLog s' = Trackbars.callbackLog s ++ added;
  step_frame : frame name s s'
}.

(** The body of the [for] loop in the handler of [window]. *)
Definition body (fuel : nat) (name window : string) (value : Z)
    (otherWindow : string) (s : Trackbars.World) : Trackbars.run Trackbars.World :=
  match Trackbars.stored s name otherWindow with
  | Some previousValue =>
      if decide (otherWindow ≠ window /\ previousValue ≠ value) then
        Trackbars.setTrackbarPos (Trackbars.fn fuel) name otherWindow value
          (Trackbars.set_stored name otherWindow value s)
      else Some (ret s)
  | None => Some (ret s)
  end.

(** The callback that the handler of [x] makes on entry. *)
Definition entryCallback (name x : string) (value : Z) (s : Trackbars.World)
    : list (string * string * Z) :=
  if decide (Trackbars.stored s name x = Some value) then []
  else [(name, x, value)].

(** All the windows under [name] store and show the value [u]. *)
Definition mirrored (name : string) (u : Z) (s : Trackbars.World) : Prop :=
  forall o, o ∈ Trackbars.windows s name ->
    Trackbars.stored s name o = Some u /\ Trackbars.displayed s name o = Some u.

(** All the windows under [name] store and show one value, or there is at
    most one window under the name. *)
Definition settled (name : string) (s : Trackbars.World) : Prop :=
  (exists u, mirrored name u s)
  \/ (exists w, forall o, o ∈ Trackbars.windows s name -> o = w).

(** The trackbars of a demo with depth and disparity previews. *)
Definition demoConf : QueueCallback.Conf :=
  {| QueueCallback.displayFrames := true;
     QueueCallback.disparityConfidenceThreshold := 245;
     QueueCallback.sigma := 0;
     QueueCallback.lrcThreshold := 4;
     QueueCallback.stereoLrCheck := true;
     QueueCallback.DISP_CONF_MIN := 0; QueueCallback.DISP_CONF_MAX := 255;
     QueueCallback.SIGMA_MIN := 0; QueueCallback.SIGMA_MAX := 250;
     QueueCallback.LRCT_MIN := 0; QueueCallback.LRCT_MAX := 10 |}.

Definition afterQueues (c : QueueCallback.Conf) (queues : list string)
    : Trackbars.World :=
  foldl (fun s queueName =>
           match QueueCallback._createQueueCallback 8 c queueName s with
           | Some (inr s') => s'
           | _ => s
           end) Trackbars.empty queues.

Definition demoWindows : Trackbars.World :=
  afterQueues demoConf ["depth"; "disparity"].

Definition afterEvents (s : Trackbars.World)
    (events : list (string * string * Z)) : Trackbars.World :=
  foldl (fun s '(name, w, value) =>
           match Trackbars.changeEvent 8 name w value s with
           | Some (inr s') => s'
           | _ => s
           end) s events.

(** A message with whole numbers for values, printed in decimal. *)
Definition sampleInfo : Report.SystemInformation Z :=
  {| Report.ddrMemoryUsage := {| Report.used := 120; Report.total := 340 |};
     Report.cmxMemoryUsage := {| Report.used := 2; Report.total := 3 |};
     Report.leonCssMemoryUsage := {| Report.used := 40; Report.total := 77 |};
     Report.leonMssMemoryUsage := {| Report.used := 41; Report.total := 50 |};
     Report.chipTemperature :=
       {| Report.average := 38; Report.css := 39; Report.mss := 37;
          Report.upa := 40; Report.dss := 36 |};
     Report.leonCssCpuUsage := {| Report.cpuAverage := 1 |};
     Report.leonMssCpuUsage := {| Report.cpuAverage := 0 |} |}.

(** *** The keyboard *)

(** The exposures that the keys produce: 1, or a multiple of 500 up to
    33000. *)
Definition onGrid (x : option Z) : Prop :=
  match x with
  | None => True
  | Some e => e = 1 \/ exists k, 1 <= k <= 66 /\ e = 500 * k
  end.

(** The entries of the dictionary, in the order of its keys, and the place
    of the entry that a camera key acts on. *)
Definition entries (c : Demo.CameraConfig) : list (option Z) :=
  [Demo.exposure c; Demo.sensitivity c; Demo.saturation c;
   Demo.contrast c; Demo.brightness c; Demo.sharpness c].

Definition ownEntry (key : Z) : option nat :=
  if decide (key ∈ [ord "t"; ord "g"]) then Some 0%nat
  else if decide (key ∈ [ord "y"; ord "h"]) then Some 1%nat
  else if decide (key ∈ [ord "u"; ord "j"]) then Some 2%nat
  else if decide (key ∈ [ord "i"; ord "k"]) then Some 3%nat
  else if decide (key ∈ [ord "o"; ord "l"]) then Some 4%nat
  else if decide (key ∈ [ord "p"; ord ";"]) then Some 5%nat
  else None.

(** The calls of [_updateCameraConfigs] for the dictionary [c]. *)
Definition cameraUpdates {A} (conf : Demo.Conf) (c : Demo.CameraConfig)
    : list (Demo.SdkCall A) :=
  (if Demo.leftCameraEnabled conf then [Demo.UpdateLeftCamConfig c] else [])
  ++ (if Demo.rightCameraEnabled conf then [Demo.UpdateRightCamConfig c] else [])
  ++ (if Demo.rgbCameraEnabled conf then [Demo.UpdateColorCamConfig c] else []).

(** The states of the [Trackbars] class that any order of creations and
    slider moves leads to. *)
Inductive reachable : Trackbars.World -> Prop :=
  | reachable_empty : reachable Trackbars.empty
  | reachable_create s s' fuel name w lo hi d :
      reachable s ->
      Trackbars.createTrackbar fuel name w lo hi d s = Some (inr s') ->
      reachable s'
  | reachable_event s s' fuel name w value :
      reachable s ->
      w ∈ Trackbars.windows s name ->
      Trackbars.changeEvent fuel name w value s = Some (inr s') ->
      reachable s'.

(** The mirroring as the specification words it: after any change event,
    every other window under the name stores and shows the new value. *)
Definition mirrorsAsStated : Prop :=
  forall s name w value fuel s',
    reachable s ->
    w ∈ Trackbars.windows s name ->
    Trackbars.changeEvent fuel name w value s = Some (inr s') ->
    forall o, o ∈ Trackbars.windows s name -> o ≠ w ->
      Trackbars.stored s' name o = Some value
      /\ Trackbars.displayed s' name o = Some value.

Definition afterCreate (name w : string) (lo hi d : Z) (s : Trackbars.World)
    : Trackbars.World :=
  match Trackbars.createTrackbar 8 name w lo hi d s with
  | Some (inr s') => s'
  | _ => s
  end.

(** A window that gets its trackbar after a slider was moved: the depth
    trackbar is created and dragged to 200, then the disparity trackbar is
    created, with the same default, and dragged to 200. *)
Definition depthDragged : Trackbars.World :=
  afterEvents
    (afterCreate "Disparity confidence" "depth" 0 255 245 Trackbars.empty)
    [("Disparity confidence", "depth", 200)].

Definition lateWindow : Trackbars.World :=
  afterEvents
    (afterCreate "Disparity confidence" "disparity" 0 255 245 depthDragged)
    [("Disparity confidence", "disparity", 200)].

(** A dictionary with every entry set, away from the bounds. *)
Definition tunedConfig : Demo.CameraConfig :=
  {| Demo.exposure := Some 10000; Demo.sensitivity := Some 800;
     Demo.saturation := Some 0; Demo.contrast := Some 2;
     Demo.brightness := Some (-3); Demo.sharpness := Some 1 |}.

(** The only setting given on the command line is a zero. *)
Definition zeroBrightness : Demo.CameraConfig :=
  {| Demo.exposure := None; Demo.sensitivity := None; Demo.saturation := None;
     Demo.contrast := None; Demo.brightness := Some 0; Demo.sharpness := None |}.

(** * Theorems *)

(** ** The median filter cycle *)

Section MedianCycle.

Context {A : Type} `{EqDecision A}.
Implicit Types (l : list A) (c : cycle A) (current : A).

Lemma next_lookup l p x :
  l !! p = Some x ->
  next (Cycle l p) = inr (x, Cycle l (S p mod length l)%nat).
Proof. intros Hx. unfold next. simpl. by rewrite Hx. Qed.

Lemma next_empty p : next (Cycle (@nil A) p) = inl StopIteration.
Proof. reflexivity. Qed.

Lemma seekMedian_found l current i :
  l !! i = Some current ->
  (forall j, (j < i)%nat -> l !! j ≠ Some current) ->
  forall fuel p, (p <= i)%nat -> (i - p < fuel)%nat ->
    Demo.seekMedian fuel current (Cycle l p)
    = Some (Cycle l (S i mod length l)%nat).
Proof.
  intros Hi Hfirst. induction fuel as [|fuel IH]; intros p Hp Hfuel; [lia|].
  assert (Hlen : (i < length l)%nat) by (by eapply lookup_lt_Some).
  destruct (decide (p = i)) as [->|Hne].
  - simpl. rewrite (next_lookup _ _ _ Hi). by rewrite decide_True.
  - assert (Hpi : (p < i)%nat) by lia.
    destruct (lookup_lt_is_Some_2 l p) as [y Hy]; [lia|].
    simpl. rewrite (next_lookup _ _ _ Hy).
    rewrite decide_False.
    + rewrite Nat.mod_small by lia. apply IH; lia.
    + intros ->. by apply (Hfirst p).
Qed.

Lemma seekMedian_absent l current :
  current ∉ l ->
  forall fuel p, (p < length l)%nat ->
    Demo.seekMedian fuel current (Cycle l p) = None.
Proof.
  intros Hnot. induction fuel as [|fuel IH]; intros p Hp; [done|].
  destruct (lookup_lt_is_Some_2 l p Hp) as [y Hy].
  simpl. rewrite (next_lookup _ _ _ Hy).
  rewrite decide_False.
  - apply IH. apply Nat.mod_upper_bound. lia.
  - intros ->. apply Hnot. by eapply list_elem_of_lookup_2.
Qed.

Lemma position_Some current l i :
  position current l = Some i <->
  l !! i = Some current /\ forall j, (j < i)%nat -> l !! j ≠ Some current.
Proof.
  unfold position. split.
  - intros Hp. destruct (list_find _ l) as [[i' x]|] eqn:Hf; [|done].
    simpl in Hp. injection Hp as ->.
    apply list_find_Some in Hf as (Hx & -> & Hbefore).
    split; [done|]. intros j Hj Hjl. by apply (Hbefore j current).
  - intros [Hi Hfirst].
    assert (list_find (fun y => y = current) l = Some (i, current)) as ->; [|done].
    apply list_find_Some. split_and!; [done..|].
    intros j y Hy Hj ->. by apply (Hfirst j).
Qed.

Lemma position_elem_of current l :
  current ∈ l <-> is_Some (position current l).
Proof.
  unfold position. split.
  - intros Hin.
    destruct (list_find_elem_of (fun y => y = current) l current Hin eq_refl)
      as [[i y] Hf].
    rewrite Hf. by eexists.
  - intros [i Hp]. destruct (list_find _ l) as [[i' x]|] eqn:Hf; [|done].
    apply list_find_Some in Hf as (Hx & -> & _).
    by eapply list_elem_of_lookup_2.
Qed.

Lemma seekMedian_position l current i :
  position current l = Some i ->
  Demo.seekMedian (length l) current (mk_cycle l)
  = Some (Cycle l (S i mod length l)%nat).
Proof.
  intros [Hi Hfirst]%position_Some.
  apply seekMedian_found; [done..|lia|].
  apply lookup_lt_Some in Hi. lia.
Qed.

End MedianCycle.

Example seekMedian_no_choices :
  Demo.seekMedian 1 MEDIAN_OFF (mk_cycle []) = Some (mk_cycle []).
Proof. reflexivity. Qed.

Example medianChoices_dai :
  Demo.medianChoices vars_MedianFilter
  = [Member MEDIAN_OFF; Member KERNEL_3x3; Member KERNEL_5x5; Member KERNEL_7x7].
Proof. reflexivity. Qed.

(** C9: with the (non-empty) list of KERNEL_/MEDIAN_ choices, the start-up
    scan of [run] ends if and only if the configured filter is one of the
    choices; it then ends within one pass over the list, and for a filter
    that is not among them it is still running after any number of
    iterations. *)
Theorem seekMedian_terminates_iff_member {A} `{EqDecision A}
    (members : list (string * A)) (current : A) :
  Demo.medianChoices members ≠ [] ->
  let choices := Demo.medianChoices members in
  ((exists fuel, is_Some (Demo.seekMedian fuel current (mk_cycle choices)))
     <-> current ∈ choices)
  /\ (current ∈ choices ->
      is_Some (Demo.seekMedian (length choices) current (mk_cycle choices)))
  /\ (current ∉ choices ->
      forall fuel, Demo.seekMedian fuel current (mk_cycle choices) = None).
Proof.
  intros Hne choices.
  assert (Hpos : (0 < length choices)%nat).
  { subst choices. destruct (Demo.medianChoices members); [done|simpl; lia]. }
  assert (Hin : current ∈ choices ->
    is_Some (Demo.seekMedian (length choices) current (mk_cycle choices))).
  { intros [i Hi]%position_elem_of. rewrite (seekMedian_position _ _ _ Hi).
    by eexists. }
  assert (Hout : current ∉ choices ->
    forall fuel, Demo.seekMedian fuel current (mk_cycle choices) = None).
  { intros Hnot fuel. by apply seekMedian_absent. }
  split_and!; [|done..].
  split; [|by eauto].
  intros [fuel Hsome]. destruct (decide (current ∈ choices)) as [|Hnot]; [done|].
  rewrite (Hout Hnot fuel) in Hsome. by destruct Hsome.
Qed.

Lemma seekMedian_terminates_iff_member_witness :
  Demo.medianChoices vars_MedianFilter ≠ []
  /\ ((exists fuel, is_Some (Demo.seekMedian fuel (Member KERNEL_5x5)
                              (mk_cycle (Demo.medianChoices vars_MedianFilter))))
        <-> Member KERNEL_5x5 ∈ Demo.medianChoices vars_MedianFilter).
Proof.
  split; [done|].
  apply (seekMedian_terminates_iff_member vars_MedianFilter (Member KERNEL_5x5)).
  done.
Defined.

Section MedianKeys.

Context {A : Type} `{EqDecision A}.
Implicit Types (l : list A) (d : Demo.Demo A) (conf : Demo.Conf).

Lemma drawn_length l n p :
  (p < length l)%nat -> length (drawn n (Cycle l p)) = n.
Proof.
  revert p. induction n as [|n IH]; intros p Hp; [done|].
  destruct (lookup_lt_is_Some_2 l p Hp) as [x Hx].
  simpl. rewrite (next_lookup _ _ _ Hx). simpl. f_equal.
  apply IH, Nat.mod_upper_bound. lia.
Qed.

Lemma drawn_lookup l n p k :
  (p < length l)%nat -> (k < n)%nat ->
  drawn n (Cycle l p) !! k = l !! ((p + k) mod length l)%nat.
Proof.
  revert p k. induction n as [|n IH]; intros p k Hp Hk; [lia|].
  destruct (lookup_lt_is_Some_2 l p Hp) as [x Hx].
  simpl. rewrite (next_lookup _ _ _ Hx).
  destruct k as [|k]; simpl.
  - by rewrite Nat.add_0_r, Nat.mod_small.
  - rewrite IH; [|apply Nat.mod_upper_bound; lia|lia].
    rewrite Nat.Div0.add_mod_idemp_l. do 2 f_equal. lia.
Qed.

Lemma drawn_S l n p x :
  l !! p = Some x ->
  drawn (S n) (Cycle l p) = x :: drawn n (Cycle l (S p mod length l)%nat).
Proof. intros Hx. simpl. by rewrite (next_lookup _ _ _ Hx). Qed.

Lemma medianUpdates_app (xs ys : list (Demo.SdkCall A)) :
  Demo.medianUpdates (xs ++ ys) = Demo.medianUpdates xs ++ Demo.medianUpdates ys.
Proof. apply omap_app. Qed.

Lemma _updateCameraConfigs_medians conf c d :
  Demo.medianUpdates (Demo.sdkCalls (Demo._updateCameraConfigs conf c d))
  = Demo.medianUpdates (Demo.sdkCalls d)
  /\ Demo._medianFilters (Demo._updateCameraConfigs conf c d) = Demo._medianFilters d
  /\ Demo._cameraConfig (Demo._updateCameraConfigs conf c d) = Demo._cameraConfig d.
Proof.
  unfold Demo._updateCameraConfigs.
  destruct (Demo.leftCameraEnabled conf), (Demo.rightCameraEnabled conf),
    (Demo.rgbCameraEnabled conf); simpl;
    rewrite ?medianUpdates_app; simpl; by rewrite ?app_nil_r.
Qed.

(** The camera part of [loopKey] leaves the cycle and the medians alone. *)
Lemma cameraPart_medians conf key d :
  (Demo.cameraControlls conf = true -> is_Some (Demo._cameraConfig d)) ->
  exists d',
    (if Demo.cameraControlls conf then
       match Demo._cameraConfig d with
       | Some c =>
           let '(c, update) := Demo.cameraKey key c in
           let d := {| Demo._medianFilters := Demo._medianFilters d;
                       Demo._cameraConfig := Some c;
                       Demo.sdkCalls := Demo.sdkCalls d |} in
           ret (if update then Demo._updateCameraConfigs conf c d else d)
       | None =>
           if decide (key ∈ Demo.cameraKeys) then raise AttributeError else ret d
       end
     else ret d) = inr d'
    /\ Demo._medianFilters d' = Demo._medianFilters d
    /\ Demo.medianUpdates (Demo.sdkCalls d') = Demo.medianUpdates (Demo.sdkCalls d)
    /\ (is_Some (Demo._cameraConfig d) -> is_Some (Demo._cameraConfig d')).
Proof.
  intros Hcam. destruct (Demo.cameraControlls conf); [|by eauto].
  destruct Hcam as [c Hc]; [done|]. rewrite Hc.
  destruct (Demo.cameraKey key c) as [c' update].
  eexists. split; [reflexivity|].
  destruct update.
  - destruct (_updateCameraConfigs_medians conf c'
      {| Demo._medianFilters := Demo._medianFilters d;
         Demo._cameraConfig := Some c';
         Demo.sdkCalls := Demo.sdkCalls d |}) as (-> & -> & ->).
    simpl. by eauto.
  - simpl. by eauto.
Qed.

Lemma loopKey_medians conf key d l p :
  Demo.displayFrames conf = true ->
  key ≠ ord "q" ->
  (Demo.cameraControlls conf = true -> is_Some (Demo._cameraConfig d)) ->
  Demo._medianFilters d = Cycle l p ->
  (p < length l)%nat ->
  exists d',
    Demo.loopKey conf key d = inr d'
    /\ (is_Some (Demo._cameraConfig d) -> is_Some (Demo._cameraConfig d'))
    /\ Demo._medianFilters d'
       = Cycle l (if decide (key = ord "m") then (S p mod length l)%nat else p)
    /\ Demo.medianUpdates (Demo.sdkCalls d')
       = Demo.medianUpdates (Demo.sdkCalls d)
         ++ drawn (presses (ord "m") [key]) (Cycle l p).
Proof.
  intros Hdisp Hq Hcam Hcyc Hp.
  destruct (lookup_lt_is_Some_2 l p Hp) as [x Hx].
  unfold Demo.loopKey. rewrite Hdisp. rewrite (decide_False (P := key = ord "q")) by done.
  unfold presses. rewrite filter_cons, filter_nil.
  destruct (decide (key = ord "m")) as [Hm|Hm].
  - rewrite Hcyc, (next_lookup _ _ _ Hx). simpl bind.
    match goal with |- context [Demo.call ?u ?d0] => set (d1 := Demo.call u d0) end.
    destruct (cameraPart_medians conf key d1) as (d' & Hd' & Hc' & Hm' & Hs');
      [done|].
    exists d'. split; [exact Hd'|].
    split; [exact Hs'|]. split; [by rewrite Hc'|].
    rewrite Hm'. subst d1. simpl. rewrite medianUpdates_app. simpl.
    by rewrite (next_lookup _ _ _ Hx).
  - simpl bind.
    destruct (cameraPart_medians conf key d Hcam) as (d' & Hd' & Hc' & Hm' & Hs').
    exists d'. split; [exact Hd'|].
    split; [exact Hs'|]. split; [by rewrite Hc'|].
    rewrite Hm'. simpl. by rewrite app_nil_r.
Qed.

End MedianKeys.

Section MedianRun.

Context {A : Type} `{EqDecision A}.
Implicit Types (l : list A) (d : Demo.Demo A) (conf : Demo.Conf).

Lemma m_is_no_camera_key : ord "m" ∉ Demo.cameraKeys.
Proof.
  unfold Demo.cameraKeys. rewrite !fmap_cons, fmap_nil, !not_elem_of_cons.
  repeat split; [done..|]. apply not_elem_of_nil.
Qed.

Lemma q_is_no_camera_key : ord "q" ∉ Demo.cameraKeys.
Proof.
  unfold Demo.cameraKeys. rewrite !fmap_cons, fmap_nil, !not_elem_of_cons.
  repeat split; [done..|]. apply not_elem_of_nil.
Qed.

(** The camera part of [loopKey], whatever the dictionary: it raises for a
    camera key pressed without a dictionary, and otherwise leaves the cycle
    and the medians alone. *)
Lemma cameraPart_run conf key d :
  (Demo.cameraControlls conf = true -> Demo._cameraConfig d = None ->
   key ∈ Demo.cameraKeys ->
   (if Demo.cameraControlls conf then
      match Demo._cameraConfig d with
      | Some c =>
          let '(c, update) := Demo.cameraKey key c in
          let d := {| Demo._medianFilters := Demo._medianFilters d;
                      Demo._cameraConfig := Some c;
                      Demo.sdkCalls := Demo.sdkCalls d |} in
          ret (if update then Demo._updateCameraConfigs conf c d else d)
      | None =>
          if decide (key ∈ Demo.cameraKeys) then raise AttributeError else ret d
      end
    else ret d) = inl AttributeError)
  /\ (~ (Demo.cameraControlls conf = true /\ Demo._cameraConfig d = None
         /\ key ∈ Demo.cameraKeys) ->
      exists d',
        (if Demo.cameraControlls conf then
           match Demo._cameraConfig d with
           | Some c =>
               let '(c, update) := Demo.cameraKey key c in
               let d := {| Demo._medianFilters := Demo._medianFilters d;
                           Demo._cameraConfig := Some c;
                           Demo.sdkCalls := Demo.sdkCalls d |} in
               ret (if update then Demo._updateCameraConfigs conf c d else d)
           | None =>
               if decide (key ∈ Demo.cameraKeys) then raise AttributeError
               else ret d
           end
         else ret d) = inr d'
        /\ Demo._medianFilters d' = Demo._medianFilters d
        /\ Demo.medianUpdates (Demo.sdkCalls d')
           = Demo.medianUpdates (Demo.sdkCalls d)
        /\ (Demo._cameraConfig d' = None <-> Demo._cameraConfig d = None)).
Proof.
  split.
  - intros -> -> Hkey. by rewrite decide_True.
  - intros Hgood. destruct (Demo.cameraControlls conf); [|by eauto].
    destruct (Demo._cameraConfig d) as [c|] eqn:Hc.
    + destruct (Demo.cameraKey key c) as [c' update].
      eexists. split; [reflexivity|].
      destruct update.
      * destruct (_updateCameraConfigs_medians conf c'
          {| Demo._medianFilters := Demo._medianFilters d;
             Demo._cameraConfig := Some c';
             Demo.sdkCalls := Demo.sdkCalls d |}) as (-> & -> & ->).
        simpl. by split_and!.
      * simpl. by split_and!.
    + rewrite decide_False by (intros Hkey; by apply Hgood).
      exists d. by rewrite Hc.
Qed.

(** One iteration's key handling, for every key and every dictionary. *)
Lemma loopKey_run conf key d l p :
  Demo.displayFrames conf = true ->
  Demo._medianFilters d = Cycle l p ->
  (p < length l)%nat ->
  (key = ord "q" -> Demo.loopKey conf key d = inl StopIteration)
  /\ (Demo.cameraControlls conf = true -> Demo._cameraConfig d = None ->
      key ∈ Demo.cameraKeys -> Demo.loopKey conf key d = inl AttributeError)
  /\ (key ≠ ord "q" ->
      ~ (Demo.cameraControlls conf = true /\ Demo._cameraConfig d = None
         /\ key ∈ Demo.cameraKeys) ->
      exists d',
        Demo.loopKey conf key d = inr d'
        /\ Demo._medianFilters d'
           = Cycle l (if decide (key = ord "m") then (S p mod length l)%nat
                      else p)
        /\ Demo.medianUpdates (Demo.sdkCalls d')
           = Demo.medianUpdates (Demo.sdkCalls d)
             ++ drawn (presses (ord "m") [key]) (Cycle l p)
        /\ (Demo._cameraConfig d' = None <-> Demo._cameraConfig d = None)).
Proof.
  intros Hdisp Hcyc Hp.
  destruct (lookup_lt_is_Some_2 l p Hp) as [x Hx].
  unfold Demo.loopKey. rewrite Hdisp.
  split_and!.
  - intros ->. by rewrite decide_True.
  - intros Hctl Hnone Hkey.
    rewrite decide_False by (intros ->; by apply q_is_no_camera_key).
    rewrite decide_False by (intros ->; by apply m_is_no_camera_key).
    simpl bind. by apply cameraPart_run.
  - intros Hq Hgood. rewrite (decide_False (P := key = ord "q")) by done.
    unfold presses. rewrite filter_cons, filter_nil.
    destruct (decide (key = ord "m")) as [Hm|Hm].
    + rewrite Hcyc, (next_lookup _ _ _ Hx). simpl bind.
      match goal with |- context [Demo.call ?u ?d0] => set (d1 := Demo.call u d0) end.
      destruct (cameraPart_run conf key d1) as [_ Hpart].
      destruct Hpart as (d' & Hd' & Hc' & Hm' & Hs').
      { intros (_ & _ & Hkey). subst key. by apply m_is_no_camera_key. }
      exists d'. split; [exact Hd'|]. split; [by rewrite Hc'|].
      split; [|exact Hs'].
      rewrite Hm'. subst d1. simpl. rewrite medianUpdates_app. simpl.
      by rewrite (next_lookup _ _ _ Hx).
    + simpl bind.
      destruct (cameraPart_run conf key d) as [_ Hpart].
      destruct (Hpart Hgood) as (d' & Hd' & Hc' & Hm' & Hs').
      exists d'. split; [exact Hd'|]. split; [by rewrite Hc'|].
      split; [|exact Hs']. rewrite Hm'. simpl. by rewrite app_nil_r.
Qed.

Lemma loopKeys_app conf (keys1 keys2 : list Z) : forall d,
  Demo.loopKeys conf (keys1 ++ keys2) d
  = bind (Demo.loopKeys conf keys1 d) (Demo.loopKeys conf keys2).
Proof.
  induction keys1 as [|key keys1 IH]; intros d; [done|].
  simpl. destruct (Demo.loopKey conf key d) as [e|d1]; [done|]. apply IH.
Qed.

(** A run of iterations: which key sequences are processed to the end, and
    what the depth configuration was handed by then. *)
Lemma loopKeys_run conf keys : forall d l p,
  Demo.displayFrames conf = true ->
  Demo._medianFilters d = Cycle l p ->
  (p < length l)%nat ->
  (Forall (fun key => key ≠ ord "q") keys ->
   (Demo.cameraControlls conf = true -> Demo._cameraConfig d = None ->
    Forall (fun key => key ∉ Demo.cameraKeys) keys) ->
   exists d',
     Demo.loopKeys conf keys d = inr d'
     /\ Demo.medianUpdates (Demo.sdkCalls d')
        = Demo.medianUpdates (Demo.sdkCalls d)
          ++ drawn (presses (ord "m") keys) (Cycle l p)
     /\ (Demo._cameraConfig d' = None <-> Demo._cameraConfig d = None)
     /\ exists p', Demo._medianFilters d' = Cycle l p' /\ (p' < length l)%nat)
  /\ (forall d', Demo.loopKeys conf keys d = inr d' ->
        Forall (fun key => key ≠ ord "q") keys
        /\ (Demo.cameraControlls conf = true -> Demo._cameraConfig d = None ->
            Forall (fun key => key ∉ Demo.cameraKeys) keys)).
Proof.
  induction keys as [|key keys IH]; intros d l p Hdisp Hcyc Hp.
  - split.
    + intros _ _. exists d. split; [done|]. simpl. rewrite app_nil_r.
      split_and!; [done..|]. by exists p.
    + intros d' _. split; [constructor|]. intros _ _. constructor.
  - destruct (loopKey_run conf key d l p Hdisp Hcyc Hp)
      as (Hquit & Hraise & Hgo).
    assert (Hp1 : ((if decide (key = ord "m") then (S p mod length l)%nat else p)
                   < length l)%nat).
    { case_decide; [apply Nat.mod_upper_bound; lia|done]. }
    destruct (lookup_lt_is_Some_2 l p Hp) as [x Hx].
    split.
    + intros [Hq Hkeys]%Forall_cons Hcam.
      destruct Hgo as (d1 & Hd1 & Hcyc1 & Hmed1 & Hnone1); [done| |].
      { intros (Hctl & Hnone & Hkey).
        by apply (Forall_inv (Hcam Hctl Hnone)). }
      destruct (IH d1 l _ Hdisp Hcyc1 Hp1) as [IHgo _].
      destruct IHgo as (d' & Hd' & Hmed' & Hnone' & Hcyc'); [done| |].
      { intros Hctl Hnone. apply Hnone1 in Hnone.
        by apply (Forall_inv_tail (Hcam Hctl Hnone)). }
      exists d'. split; [simpl; by rewrite Hd1|].
      split; [|split; [by rewrite Hnone'|done]].
      rewrite Hmed', Hmed1, <- app_assoc. f_equal.
      unfold presses. rewrite !filter_cons, filter_nil.
      destruct (decide (key = ord "m")) as [Hm|Hm]; [|done].
      simpl length. by rewrite !(drawn_S _ _ _ _ Hx).
    + intros d'. simpl.
      destruct (Demo.loopKey conf key d) as [e|d1] eqn:Hd1; [done|].
      simpl. intros Hd'.
      assert (Hq : key ≠ ord "q").
      { intros Hkey. by specialize (Hquit Hkey). }
      assert (Hgood : ~ (Demo.cameraControlls conf = true
                         /\ Demo._cameraConfig d = None
                         /\ key ∈ Demo.cameraKeys)).
      { intros (Hctl & Hnone & Hkey). by specialize (Hraise Hctl Hnone Hkey). }
      destruct (Hgo Hq Hgood) as (d1' & Hd1' & Hcyc1 & _ & Hnone1).
      injection Hd1' as <-.
      destruct (IH d1 l _ Hdisp Hcyc1 Hp1) as [_ IHback].
      destruct (IHback d' Hd') as [Hkeys Hcam].
      split; [by constructor|].
      intros Hctl Hnone. constructor.
      * intros Hkey. by apply Hgood.
      * apply Hcam; [done|]. by apply Hnone1.
Qed.

End MedianRun.

(** C1: once the start-up scan has found the configured filter at place [i]
    of the choices, the demo hands to the depth configuration, at the n-th
    ['m'] press of any sequence of keys that the loop processes with frames
    displayed, the choice [n] places after [i], counted modulo the number
    of choices.  This holds whatever the camera dictionary is, also when it
    was never set.  The loop processes a sequence to its end exactly when
    no key in it ends the loop: no ['q'], and no camera key pressed with
    the camera controls on and no dictionary. *)
Theorem median_key_follows_cycle {A} `{EqDecision A}
    (members : list (string * A)) (current : A) (i : nat)
    (conf : Demo.Conf) (cam : option Demo.CameraConfig)
    (calls : list (Demo.SdkCall A)) (keys : list Z) :
  let choices := Demo.medianChoices members in
  Demo.displayFrames conf = true ->
  position current choices = Some i ->
  exists c0,
    Demo.seekMedian (length choices) current (mk_cycle choices) = Some c0
    /\ ((exists d',
           Demo.loopKeys conf keys
             {| Demo._medianFilters := c0; Demo._cameraConfig := cam;
                Demo.sdkCalls := calls |} = inr d')
        <-> Forall (fun key => key ≠ ord "q") keys
            /\ (Demo.cameraControlls conf = true -> cam = None ->
                Forall (fun key => key ∉ Demo.cameraKeys) keys))
    /\ forall d',
         Demo.loopKeys conf keys
           {| Demo._medianFilters := c0; Demo._cameraConfig := cam;
              Demo.sdkCalls := calls |} = inr d' ->
         exists news,
           Demo.medianUpdates (Demo.sdkCalls d')
           = Demo.medianUpdates calls ++ news
           /\ length news = presses (ord "m") keys
           /\ forall n, (1 <= n <= presses (ord "m") keys)%nat ->
                news !! (n - 1)%nat
                = choices !! ((i + n) mod length choices)%nat.
Proof.
  intros choices Hdisp Hpos.
  assert (Hi : (i < length choices)%nat).
  { apply position_Some in Hpos as [Hi _]. by eapply lookup_lt_Some. }
  assert (Hp : (S i mod length choices < length choices)%nat)
    by (apply Nat.mod_upper_bound; lia).
  exists (Cycle choices (S i mod length choices)%nat).
  split; [by apply seekMedian_position|].
  destruct (loopKeys_run conf keys
    {| Demo._medianFilters := Cycle choices (S i mod length choices)%nat;
       Demo._cameraConfig := cam; Demo.sdkCalls := calls |}
    choices _ Hdisp eq_refl Hp) as [Hgo Hback].
  split.
  - split.
    + intros [d' Hd']. exact (Hback d' Hd').
    + intros [Hkeys Hcam]. destruct (Hgo Hkeys Hcam) as (d' & Hd' & _).
      by exists d'.
  - intros d' Hd'. destruct (Hback d' Hd') as [Hkeys Hcam].
    destruct (Hgo Hkeys Hcam) as (d'' & Hd'' & Hmed & _).
    rewrite Hd' in Hd''. injection Hd'' as <-.
    exists (drawn (presses (ord "m") keys)
              (Cycle choices (S i mod length choices)%nat)).
    split; [done|]. split; [by apply drawn_length|].
    intros n Hn. rewrite drawn_lookup by lia.
    rewrite Nat.Div0.add_mod_idemp_l. do 2 f_equal. lia.
Qed.

Lemma median_key_follows_cycle_witness :
  exists c0,
    Demo.seekMedian 4 (Member KERNEL_5x5)
      (mk_cycle (Demo.medianChoices vars_MedianFilter)) = Some c0
    /\ ((exists d',
           Demo.loopKeys keyboardConf [ord "m"; -1; ord "m"; ord "m"]
             {| Demo._medianFilters := c0; Demo._cameraConfig := None;
                Demo.sdkCalls := [] |} = inr d')
        <-> Forall (fun key => key ≠ ord "q") [ord "m"; -1; ord "m"; ord "m"]
            /\ (Demo.cameraControlls keyboardConf = true -> @None Demo.CameraConfig = None ->
                Forall (fun key => key ∉ Demo.cameraKeys)
                  [ord "m"; -1; ord "m"; ord "m"]))
    /\ forall d',
         Demo.loopKeys keyboardConf [ord "m"; -1; ord "m"; ord "m"]
           {| Demo._medianFilters := c0; Demo._cameraConfig := None;
              Demo.sdkCalls := [] |} = inr d' ->
         exists news,
           Demo.medianUpdates (Demo.sdkCalls d') = [] ++ news
           /\ length news = 3%nat
           /\ forall n, (1 <= n <= 3)%nat ->
                news !! (n - 1)%nat
                = Demo.medianChoices vars_MedianFilter !! ((2 + n) mod 4)%nat.
Proof.
  apply (median_key_follows_cycle vars_MedianFilter (Member KERNEL_5x5) 2
           keyboardConf None [] [ord "m"; -1; ord "m"; ord "m"]).
  - reflexivity.
  - reflexivity.
Defined.

(** A video as input (no dictionary) with the camera controls on: the
    ['m'] presses follow the cycle. *)
Example median_keys_on_video :
  (d <- Demo.loopKeys keyboardConf [ord "m"; -1; ord "m"; ord "m"]
          {| Demo._medianFilters := Cycle (Demo.medianChoices vars_MedianFilter) 3;
             Demo._cameraConfig := None; Demo.sdkCalls := [] |} ;;
   ret (Demo.medianUpdates (Demo.sdkCalls d)))
  = inr [Member KERNEL_7x7; Member MEDIAN_OFF; Member KERNEL_3x3].
Proof. reflexivity. Qed.

Example median_keys_from_5x5 :
  (d <- Demo.loopKeys keyboardConf [ord "m"; -1; ord "m"; ord "t"; ord "m"]
          {| Demo._medianFilters := Cycle (Demo.medianChoices vars_MedianFilter) 3;
             Demo._cameraConfig := Some noCameraConfig; Demo.sdkCalls := [] |} ;;
   ret (Demo.medianUpdates (Demo.sdkCalls d)))
  = inr [Member KERNEL_7x7; Member MEDIAN_OFF; Member KERNEL_3x3].
Proof. reflexivity. Qed.

(** ** The camera tuning dictionary *)

Ltac key_codes :=
  cbv [ord] in *; simpl N_of_ascii in *; simpl Z.of_N in *.

Lemma cameraKey_stays key c : staysWithin c (Demo.cameraKey key c).1.
Proof.
  destruct c as [e s sa co br sh]. unfold staysWithin, Demo.cameraKey. simpl.
  repeat (case_decide; [clear dependent key|]); simpl; unfold Demo.if_none;
    repeat match goal with
           | |- context [match ?x with _ => _ end] => is_var x; destruct x; simpl in *
           end;
    repeat split; intros; try assumption; try done; repeat case_decide; lia.
Qed.

Lemma staysWithin_trans c1 c2 c3 :
  staysWithin c1 c2 -> staysWithin c2 c3 -> staysWithin c1 c3.
Proof. unfold staysWithin. by intuition. Qed.

Lemma staysWithin_refl c : staysWithin c c.
Proof. unfold staysWithin. by intuition. Qed.

Lemma cameraKey_moves key c : keyMoves key c (Demo.cameraKey key c).1.
Proof.
  destruct c as [e s sa co br sh]. unfold keyMoves. simpl.
  repeat split; intros ->; unfold Demo.cameraKey; key_codes; simpl;
    unfold raised, lowered, Demo.if_none;
    repeat match goal with
           | |- context [match ?x with _ => _ end] => is_var x; destruct x; simpl in *
           end;
    repeat case_decide; simplify_eq; simpl; done.
Qed.

Lemma cameraKey_steps key c :
  ownWithin key c -> keySteps exposureUp key c (Demo.cameraKey key c).1.
Proof.
  destruct c as [e s sa co br sh]. unfold ownWithin, keySteps. simpl.
  intros (He & Hs & Hsa & Hco & Hbr & Hsh).
  repeat split; intros ->;
    repeat match goal with
           | H : _ ∈ _ -> _ |- _ =>
               first [ specialize (H ltac:(rewrite !elem_of_cons; tauto))
                     | clear H ]
           end;
    unfold Demo.cameraKey; key_codes; simpl;
    unfold exposureUp, moved, Demo.if_none;
    repeat match goal with
           | |- context [match ?x with _ => _ end] => is_var x; destruct x; simpl in *
           end;
    repeat case_decide; simplify_eq; simpl; try done; f_equal; lia.
Qed.

Section CameraKeys.

Context {A : Type}.
Implicit Types (d : Demo.Demo A) (conf : Demo.Conf) (c : Demo.CameraConfig).

Lemma _updateCameraConfigs_cameraConfig conf c d :
  Demo._cameraConfig (Demo._updateCameraConfigs conf c d) = Demo._cameraConfig d.
Proof.
  unfold Demo._updateCameraConfigs.
  by destruct (Demo.leftCameraEnabled conf), (Demo.rightCameraEnabled conf),
    (Demo.rgbCameraEnabled conf).
Qed.

(** The dictionary after one [loop]: the image of [cameraKey] when the
    camera controls are on, the dictionary as it was otherwise. *)
Lemma loopKey_cameraConfig conf key d d' c :
  Demo._cameraConfig d = Some c ->
  Demo.loopKey conf key d = inr d' ->
  Demo._cameraConfig d'
  = Some (if Demo.displayFrames conf && Demo.cameraControlls conf
          then (Demo.cameraKey key c).1 else c).
Proof.
  intros Hc. unfold Demo.loopKey.
  destruct (Demo.displayFrames conf); simpl; [|by intros [= <-]].
  destruct (decide (key = ord "q")); [done|].
  assert (Hcam : forall d1, Demo._cameraConfig d1 = Some c ->
    (if Demo.cameraControlls conf then
       match Demo._cameraConfig d1 with
       | Some c =>
           let '(c, update) := Demo.cameraKey key c in
           let d := {| Demo._medianFilters := Demo._medianFilters d1;
                       Demo._cameraConfig := Some c;
                       Demo.sdkCalls := Demo.sdkCalls d1 |} in
           ret (if update then Demo._updateCameraConfigs conf c d else d)
       | None =>
           if decide (key ∈ Demo.cameraKeys) then raise AttributeError else ret d1
       end
     else ret d1) = inr d' ->
    Demo._cameraConfig d'
    = Some (if Demo.cameraControlls conf then (Demo.cameraKey key c).1 else c)).
  { intros d1 Hd1. destruct (Demo.cameraControlls conf).
    - rewrite Hd1. destruct (Demo.cameraKey key c) as [c1 update].
      intros [= <-]. destruct update; [|done].
      by rewrite _updateCameraConfigs_cameraConfig.
    - by intros [= <-]. }
  destruct (decide (key = ord "m")).
  - destruct (next (Demo._medianFilters d)) as [err|[x c0]]; [done|].
    exact (Hcam (Demo.call (Demo.UpdateDepthConfig x)
                   {| Demo._medianFilters := c0;
                      Demo._cameraConfig := Demo._cameraConfig d;
                      Demo.sdkCalls := Demo.sdkCalls d |}) Hc).
  - exact (Hcam d Hc).
Qed.

Lemma loopKeys_stays conf keys : forall d d' c,
  Demo._cameraConfig d = Some c ->
  Demo.loopKeys conf keys d = inr d' ->
  exists c', Demo._cameraConfig d' = Some c' /\ staysWithin c c'.
Proof.
  induction keys as [|key keys IH]; intros d d' c Hc; simpl.
  - intros [= <-]. exists c. split; [done|]. apply staysWithin_refl.
  - destruct (Demo.loopKey conf key d) as [err|d1] eqn:Hd1; [done|]. simpl.
    apply (loopKey_cameraConfig _ _ _ _ _ Hc) in Hd1. intros Hd'.
    destruct (IH d1 d' _ Hd1 Hd') as (c' & Hc' & Hstays).
    exists c'. split; [done|].
    eapply staysWithin_trans; [|exact Hstays].
    destruct (_ && _); [apply cameraKey_stays|apply staysWithin_refl].
Qed.

(** A camera key never ends the loop when the dictionary is set. *)
Lemma loopKey_camera_returns conf key d c :
  Demo._cameraConfig d = Some c ->
  key ∈ Demo.cameraKeys ->
  exists d', Demo.loopKey conf key d = inr d'.
Proof.
  intros Hc Hkey. unfold Demo.loopKey.
  destruct (Demo.displayFrames conf); [|by eauto].
  rewrite decide_False by (intros ->; by apply q_is_no_camera_key).
  rewrite decide_False by (intros ->; by apply m_is_no_camera_key).
  simpl. destruct (Demo.cameraControlls conf); [|by eauto].
  rewrite Hc. destruct (Demo.cameraKey key c). by eauto.
Qed.

Lemma loopKeys_camera_return conf keys : forall d c,
  Demo._cameraConfig d = Some c ->
  Forall (fun key => key ∈ Demo.cameraKeys) keys ->
  exists d', Demo.loopKeys conf keys d = inr d'.
Proof.
  induction keys as [|key keys IH]; intros d c Hc Hkeys; [by exists d|].
  apply Forall_cons in Hkeys as [Hkey Hkeys].
  destruct (loopKey_camera_returns conf key d c Hc Hkey) as [d1 Hd1].
  pose proof (loopKey_cameraConfig _ _ _ _ _ Hc Hd1) as Hc1.
  destruct (IH d1 _ Hc1 Hkeys) as [d' Hd'].
  exists d'. simpl. by rewrite Hd1.
Qed.

End CameraKeys.

(** C2 (as the code has it): through any sequence of keys that the loop
    processes, each entry of the camera tuning dictionary that is within
    its bounds or [None] stays so, each entry on its own; a sequence of
    camera keys is always processed to its end.  A camera key processed by
    the loop moves its entry by its fixed step, cut off at the bound it
    moves towards, and sets a [None] entry to its default, save that ['t']
    takes an exposure of 1 to 500; for an entry within its bounds this is
    the step clamped to the bounds. *)
Theorem camera_keys_bounded_steps {A : Type} (conf : Demo.Conf)
    (d : Demo.Demo A) (c : Demo.CameraConfig) :
  Demo._cameraConfig d = Some c ->
  (forall keys, Forall (fun key => key ∈ Demo.cameraKeys) keys ->
     exists d', Demo.loopKeys conf keys d = inr d')
  /\ (forall keys d', Demo.loopKeys conf keys d = inr d' ->
        exists c', Demo._cameraConfig d' = Some c' /\ staysWithin c c')
  /\ (Demo.displayFrames conf = true -> Demo.cameraControlls conf = true ->
      forall key, key ∈ Demo.cameraKeys ->
        exists d' c',
          Demo.loopKey conf key d = inr d'
          /\ Demo._cameraConfig d' = Some c'
          /\ keyMoves key c c'
          /\ (ownWithin key c -> keySteps exposureUp key c c')).
Proof.
  intros Hc. split_and!.
  - intros keys Hkeys. by apply (loopKeys_camera_return conf keys d c).
  - intros keys d' Hrun. by apply (loopKeys_stays conf keys d d' c).
  - intros Hdisp Hctl key Hkey.
    destruct (loopKey_camera_returns conf key d c Hc Hkey) as [d' Hd'].
    exists d', (Demo.cameraKey key c).1. split; [done|].
    split; [rewrite (loopKey_cameraConfig _ _ _ _ _ Hc Hd');
            by rewrite Hdisp, Hctl|].
    split; [apply cameraKey_moves|apply cameraKey_steps].
Qed.

Lemma exposureOne_inBounds : camInBounds exposureOne.
Proof. unfold camInBounds, exposureOne; simpl. lia. Qed.

Lemma camera_keys_bounded_steps_witness :
  (forall keys, Forall (fun key => key ∈ Demo.cameraKeys) keys ->
     exists d',
       Demo.loopKeys keyboardConf keys
         {| Demo._medianFilters := mk_cycle [MEDIAN_OFF];
            Demo._cameraConfig := Some overExposed; Demo.sdkCalls := [] |}
       = inr d')
  /\ (forall keys d',
        Demo.loopKeys keyboardConf keys
          {| Demo._medianFilters := mk_cycle [MEDIAN_OFF];
             Demo._cameraConfig := Some overExposed; Demo.sdkCalls := [] |}
        = inr d' ->
        exists c', Demo._cameraConfig d' = Some c' /\ staysWithin overExposed c')
  /\ (Demo.displayFrames keyboardConf = true ->
      Demo.cameraControlls keyboardConf = true ->
      forall key, key ∈ Demo.cameraKeys ->
        exists d' c',
          Demo.loopKey keyboardConf key
            {| Demo._medianFilters := mk_cycle [MEDIAN_OFF];
               Demo._cameraConfig := Some overExposed; Demo.sdkCalls := [] |}
          = inr d'
          /\ Demo._cameraConfig d' = Some c'
          /\ keyMoves key overExposed c'
          /\ (ownWithin key overExposed -> keySteps exposureUp key overExposed c')).
Proof.
  apply (camera_keys_bounded_steps keyboardConf
           {| Demo._medianFilters := mk_cycle [MEDIAN_OFF];
              Demo._cameraConfig := Some overExposed; Demo.sdkCalls := [] |}
           overExposed).
  reflexivity.
Defined.

(** With the exposure above its bound, the saturation stays within its
    own bounds, and ['g'] takes the exposure down by its step. *)
Example overExposed_keys :
  (d <- Demo.loopKeys keyboardConf [ord "u"; ord "g"; ord "u"]
          {| Demo._medianFilters := mk_cycle [MEDIAN_OFF];
             Demo._cameraConfig := Some overExposed; Demo.sdkCalls := [] |} ;;
   ret (Demo._cameraConfig d))
  = inr (Some {| Demo.exposure := Some 39500; Demo.sensitivity := Some 800;
                 Demo.saturation := Some 10; Demo.contrast := None;
                 Demo.brightness := None; Demo.sharpness := None |}).
Proof. reflexivity. Qed.

(** C2, the step of ['t'] as stated: refuted at an exposure of 1, which the
    key takes to 500 and not to 501. *)
Lemma camera_exposure_up_from_one : ~ stepsAsStated.
Proof.
  intros Hsteps.
  destruct (Hsteps (ord "t") exposureOne exposureOne_inBounds) as [Ht _].
  specialize (Ht eq_refl). vm_compute in Ht. discriminate.
Qed.

Example exposure_up_from_one :
  Demo.exposure (Demo.cameraKey (ord "t") exposureOne).1 = Some 500
  /\ moved 1 33000 10000 500 (Demo.exposure exposureOne) = Some 501.
Proof. split; reflexivity. Qed.

(** C10: with the camera controls on, after ['t'] or ['g'] the sensitivity
    is set (to 800 if it was [None]), after ['y'] or ['h'] the exposure is
    set (to 10000 if it was [None]), and after any of the four keys both
    are set. *)
Theorem exposure_sensitivity_coupled {A : Type} (conf : Demo.Conf) (key : Z)
    (d : Demo.Demo A) (c : Demo.CameraConfig) :
  Demo.displayFrames conf = true ->
  Demo.cameraControlls conf = true ->
  Demo._cameraConfig d = Some c ->
  key ∈ [ord "t"; ord "g"; ord "y"; ord "h"] ->
  exists d' c',
    Demo.loopKey conf key d = inr d'
    /\ Demo._cameraConfig d' = Some c'
    /\ is_Some (Demo.exposure c') /\ is_Some (Demo.sensitivity c')
    /\ (key ∈ [ord "t"; ord "g"] ->
        Demo.sensitivity c' = Some (default 800 (Demo.sensitivity c)))
    /\ (key ∈ [ord "y"; ord "h"] ->
        Demo.exposure c' = Some (default 10000 (Demo.exposure c))).
Proof.
  intros Hdisp Hctl Hc Hkey.
  assert (Hrun : exists d', Demo.loopKey conf key d = inr d').
  { unfold Demo.loopKey. rewrite Hdisp, Hctl.
    rewrite decide_False by (set_unfold; key_codes; lia).
    rewrite decide_False by (set_unfold; key_codes; lia).
    simpl. rewrite Hc. destruct (Demo.cameraKey key c). by eauto. }
  destruct Hrun as [d' Hd']. exists d', (Demo.cameraKey key c).1.
  split; [done|].
  split; [rewrite (loopKey_cameraConfig _ _ _ _ _ Hc Hd'); by rewrite Hdisp, Hctl|].
  clear Hd' Hc. destruct c as [e s sa co br sh].
  set_unfold. key_codes.
  destruct Hkey as [->|[->|[->|[->|[]]]]];
    unfold Demo.cameraKey; key_codes; simpl;
    destruct e, s; simpl; repeat case_decide;
    repeat split; try (by eexists); intros; try done; lia.
Qed.

Lemma exposure_sensitivity_coupled_witness :
  exists d' c',
    Demo.loopKey keyboardConf (ord "t")
      {| Demo._medianFilters := mk_cycle [MEDIAN_OFF];
         Demo._cameraConfig := Some noCameraConfig; Demo.sdkCalls := [] |} = inr d'
    /\ Demo._cameraConfig d' = Some c'
    /\ is_Some (Demo.exposure c') /\ is_Some (Demo.sensitivity c')
    /\ (ord "t" ∈ [ord "t"; ord "g"] ->
        Demo.sensitivity c'
        = Some (default 800 (Demo.sensitivity noCameraConfig)))
    /\ (ord "t" ∈ [ord "y"; ord "h"] ->
        Demo.exposure c' = Some (default 10000 (Demo.exposure noCameraConfig))).
Proof.
  apply (exposure_sensitivity_coupled keyboardConf (ord "t")
           {| Demo._medianFilters := mk_cycle [MEDIAN_OFF];
              Demo._cameraConfig := Some noCameraConfig; Demo.sdkCalls := [] |}
           noCameraConfig).
  - reflexivity.
  - reflexivity.
  - reflexivity.
  - apply list_elem_of_here.
Defined.

(** ** The queue reads of [loop] *)

Example loopReads_videoSync :
  Loop.loopReads videoSync resultReady
  = ([Loop.tryGet Loop.nnOut; Loop.get Loop.hostOut], None).
Proof. reflexivity. Qed.

(** C3, as stated: refuted by a video run with [sync] on, where a network
    result makes [loop] wait on [_hostOut.get()]. *)
Lemma loop_waits_for_host_frame : ~ readsAsStated.
Proof.
  intros Hreads. specialize (Hreads videoSync resultReady).
  vm_compute in Hreads.
  apply Forall_cons in Hreads as [_ Hreads].
  apply Forall_cons in Hreads as [Hget _]. discriminate.
Qed.

(** C3 (as the code has it): every read that [loop] makes is a [tryGet] or
    a [tryGetAll], save one: on a video with [sync] on, once [tryGet] has
    delivered a network result, [loop] waits on the host queue with [get].
    With a camera, or without [sync], no read of [loop] waits. *)
Theorem loop_reads_nonblocking_unless_video_sync (c : Loop.Conf) (e : Loop.Env) :
  (forall r, r ∈ (Loop.loopReads c e).1 ->
     Loop.nonBlocking r = true \/ r = Loop.get Loop.hostOut)
  /\ (Loop.get Loop.hostOut ∈ (Loop.loopReads c e).1 <->
      Loop.useCamera c = false /\ Loop.sync c = true /\ Loop.useNN c = true
      /\ Loop.readCorrectly e = true /\ Loop.nnReady e = true)
  /\ (Loop.useCamera c = true \/ Loop.sync c = false ->
      Forall (fun r => Loop.nonBlocking r = true) (Loop.loopReads c e).1).
Proof.
  destruct c as [cam nn sy sbb rep], e as [rd ready].
  unfold Loop.loopReads, Loop.has_sbbOut, Loop.has_logOut. simpl.
  destruct cam, nn, sy, sbb, rd, ready; simpl; try case_bool_decide; simpl;
    (split_and!;
     [ intros r; rewrite ?elem_of_cons, ?elem_of_nil;
       intuition (subst; auto)
     | rewrite ?elem_of_cons, ?elem_of_nil;
       intuition (auto; discriminate)
     | intros [Hmode|Hmode]; try discriminate Hmode; by repeat constructor ]).
Qed.

(** ** The video path check *)

(** C4: without a camera, a video path that does not exist (after a
    download, for an https address) makes start-up raise [ValueError]
    before the pipeline manager and the device are created; a path that
    exists passes the check. *)
Theorem missing_video_raises (fs : gset string)
    (downloadYTVideo : string -> string) (useCamera : bool) (video : string) :
  useCamera = false ->
  (Startup.resolvedVideo downloadYTVideo video ∉ fs ->
     exists log,
       Startup.startup fs downloadYTVideo useCamera video = (log, inl ValueError)
       /\ (Startup.CreatePipelineManager ∉ log) /\ (Startup.OpenDevice ∉ log))
  /\ (Startup.resolvedVideo downloadYTVideo video ∈ fs ->
      (Startup.checkVideo fs downloadYTVideo useCamera video).2
      = inr (Startup.resolvedVideo downloadYTVideo video)).
Proof.
  intros ->. unfold Startup.startup, Startup.checkVideo, Startup.resolvedVideo.
  simpl. destruct (String.prefix "https" video); simpl.
  - split; intros Hfs.
    + rewrite bool_decide_eq_false_2 by done. simpl. eexists.
      split; [done|].
      split; rewrite ?elem_of_cons, ?elem_of_nil; intuition discriminate.
    + by rewrite bool_decide_eq_true_2.
  - split; intros Hfs.
    + rewrite bool_decide_eq_false_2 by done. simpl. eexists.
      split; [done|].
      split; rewrite ?elem_of_cons, ?elem_of_nil; intuition discriminate.
    + by rewrite bool_decide_eq_true_2.
Qed.

Lemma missing_video_raises_witness :
  (exists log,
     Startup.startup videosOnDisk savedAs false "videos/none.mp4"
     = (log, inl ValueError)
     /\ (Startup.CreatePipelineManager ∉ log) /\ (Startup.OpenDevice ∉ log))
  /\ (Startup.checkVideo videosOnDisk savedAs false "videos/cars.mp4").2
     = inr "videos/cars.mp4".
Proof.
  split.
  - apply (missing_video_raises videosOnDisk savedAs false "videos/none.mp4");
      [reflexivity|]. vm_compute. set_solver.
  - apply (missing_video_raises videosOnDisk savedAs false "videos/cars.mp4");
      [reflexivity|]. vm_compute. set_solver.
Defined.

(** ** Waiting for the device *)

(** C5: [stop] polls the available devices while less than 10 seconds have
    passed since [start], as the program measures them: by the float
    difference of the clock reading and [start].  If the MxId is listed at
    a poll made within that time, [stop] returns; at the first reading
    that is not within that time, the MxId not having been listed before,
    [stop] raises [RuntimeError]. *)
Theorem stop_waits_ten_seconds (mxid : string) (start : float)
    (turns : list App.turn) (k : nat) (t : App.turn) :
  turns !! k = Some t ->
  (forall j u, (j < k)%nat -> turns !! j = Some u ->
     App.inTime start (App.now u) = true /\ mxid ∉ App.available u) ->
  (App.inTime start (App.now t) = true -> mxid ∈ App.available t ->
     App.stop mxid start turns = Some (inr tt))
  /\ (App.inTime start (App.now t) = false ->
      App.stop mxid start turns = Some (inl RuntimeError)).
Proof.
  revert k. induction turns as [|u turns IH]; intros k Hk Hbefore; [done|].
  destruct k as [|k]; simpl in Hk.
  - injection Hk as ->. simpl. split.
    + intros -> Hin. by rewrite decide_True.
    + by intros ->.
  - destruct (Hbefore O u) as [Hlt Hnot]; [lia|done|].
    simpl. rewrite Hlt. rewrite decide_False by done.
    apply (IH k Hk). intros j v Hj Hv. apply (Hbefore (S j) v); [lia|done].
Qed.

Lemma quiet_first_turn (rest : list App.turn) (j : nat) (u : App.turn) :
  (j < 1)%nat ->
  ({| App.now := 1000.25; App.available := [] |} :: rest) !! j = Some u ->
  App.inTime 1000 (App.now u) = true /\ "14442C10D13EABCE00" ∉ App.available u.
Proof.
  destruct j as [|j]; [|lia]. intros _ [= <-]. split; [reflexivity|].
  simpl. apply not_elem_of_nil.
Qed.

Lemma stop_waits_ten_seconds_witness :
  App.stop "14442C10D13EABCE00" 1000 deviceBack = Some (inr tt)
  /\ App.stop "14442C10D13EABCE00" 1000 deviceGone
     = Some (inl RuntimeError).
Proof.
  split.
  - apply (stop_waits_ten_seconds "14442C10D13EABCE00" 1000 deviceBack 1
             {| App.now := 1003.5; App.available := ["14442C10D13EABCE00"] |});
      [reflexivity|apply quiet_first_turn|reflexivity|apply list_elem_of_here].
  - apply (stop_waits_ten_seconds "14442C10D13EABCE00" 1000 deviceGone 1
             {| App.now := 1010.125; App.available := ["14442C10D13EABCE00"] |});
      [reflexivity|apply quiet_first_turn|reflexivity].
Defined.

(** The float difference is rounded: from a start at 0.1 the reading 10.1
    gives exactly 10.0, which is not less than 10, and [stop] raises
    without polling although the device is listed. *)
Example stop_near_epoch :
  PrimFloat.sub 0x1.4333333333333p+3 tenth = 10%float
  /\ App.inTime tenth 0x1.4333333333333p+3 = false
  /\ App.stop "14442C10D13EABCE00" tenth nearEpoch = Some (inl RuntimeError).
Proof. repeat split. Qed.

(** ** The encoding manager of [setup] *)

(** C7: [setup] creates the encoding manager exactly when a camera or
    [sync] is in use and two or more encoders are requested.  A single
    requested encoder is a non-empty request, yet it leaves [_encManager] at
    [None]: the test is [len(encode) > 1], where the sibling test on the
    report list is [len(report) > 0]. *)
Theorem single_encoder_not_created :
  (forall (useCamera sync : bool) (encode : list (string * Z)) (output : string),
     (exists m, Setup.setup_encManager useCamera sync encode output
                = Some (Some m))
     <-> (useCamera || sync = true /\ (1 < length encode)%nat))
  /\ Setup.setup_encManager true false [("color", 30)] "encode" = Some None
  /\ Setup.setup_systemLogger ["temp"] = true.
Proof.
  split_and!; [|reflexivity..].
  intros useCamera sync encode output. unfold Setup.setup_encManager.
  destruct (useCamera || sync); [|split; [by intros [m ?]|by intros [? _]]].
  case_decide.
  - split; [done|by eauto].
  - split; [by intros [m ?]|intros [_ ?]; lia].
Qed.

(** ** The CSV report *)

Section Strings.

Implicit Types (s t u : string).

Lemma append_cons a s t : String a s +:+ t = String a (s +:+ t).
Proof. reflexivity. Qed.

Lemma append_assoc s t u : (s +:+ t) +:+ u = s +:+ (t +:+ u).
Proof.
  induction s as [|a s IH]; [done|]. rewrite !append_cons. by rewrite IH.
Qed.

Lemma append_nil_r s : s +:+ "" = s.
Proof. induction s as [|a s IH]; [done|]. rewrite append_cons. by rewrite IH. Qed.

Lemma length_append s t :
  String.length (s +:+ t) = (String.length s + String.length t)%nat.
Proof.
  induction s as [|a s IH]; [done|]. rewrite append_cons. simpl. by rewrite IH.
Qed.

Lemma length_zero s : String.length s = 0%nat <-> s = "".
Proof. by destruct s. Qed.

Lemma length_substring s : forall n m,
  (n + m <= String.length s)%nat -> String.length (substring n m s) = m.
Proof.
  induction s as [|a s IH]; intros [|n] [|m] Hle; simpl in *; try done; try lia.
  - f_equal. apply (IH 0%nat m). lia.
  - apply (IH n 0%nat). lia.
  - apply (IH n (S m)). lia.
Qed.

Lemma substring_all s : substring 0 (String.length s) s = s.
Proof. induction s as [|a s IH]; simpl; [done|f_equal; exact IH]. Qed.

Lemma substring_append_r s t :
  substring (String.length s) (String.length t) (s +:+ t) = t.
Proof.
  induction s as [|a s IH]; [apply substring_all|].
  rewrite append_cons. simpl. exact IH.
Qed.

Lemma rfind_append c s t :
  Pathlib.rfind c (s +:+ t)
  = match Pathlib.rfind c t with
    | Some i => Some (String.length s + i)%nat
    | None => Pathlib.rfind c s
    end.
Proof.
  induction s as [|a s IH].
  - change ("" +:+ t) with t. by destruct (Pathlib.rfind c t).
  - rewrite append_cons. simpl. rewrite IH. by destruct (Pathlib.rfind c t).
Qed.

Lemma rfind_bound c s i : Pathlib.rfind c s = Some i -> (i < String.length s)%nat.
Proof.
  revert i. induction s as [|a s IH]; intros i; simpl; [done|].
  destruct (Pathlib.rfind c s) as [j|].
  - intros [= <-]. specialize (IH j eq_refl). lia.
  - case_decide; [|done]. intros [= <-]. lia.
Qed.

Lemma suffix_csv stem : stem ≠ "" -> Pathlib.suffix (stem +:+ ".csv") = ".csv".
Proof.
  intros Hstem. unfold Pathlib.suffix.
  rewrite rfind_append.
  change (Pathlib.rfind "." ".csv") with (Some 0%nat). cbv iota beta.
  rewrite Nat.add_0_r.
  assert (0 < String.length stem)%nat.
  { destruct stem; [done|simpl; lia]. }
  rewrite length_append. change (String.length ".csv") with 4%nat.
  rewrite decide_True by lia.
  replace (String.length stem + 4 - String.length stem)%nat
    with (String.length ".csv") by (simpl; lia).
  apply substring_append_r.
Qed.



Lemma reportFileName_csv name :
  name ≠ "" ->
  exists stem, stem ≠ "" /\ Report.reportFileName name = inr (stem +:+ ".csv").
Proof.
  intros Hname. unfold Report.reportFileName, Pathlib.with_suffix.
  rewrite decide_False by (simpl; by intros [? ?]).
  rewrite decide_False by (intros [[_ ?]|?]; done).
  rewrite decide_False by done.
  case_decide as Hsfx.
  - by exists name.
  - eexists. split; [|reflexivity].
    unfold Pathlib.suffix in *.
    destruct (Pathlib.rfind "." name) as [i|] eqn:Hi; [|done].
    case_decide as Hrange; [|done].
    rewrite length_substring by lia.
    intros Hempty%length_zero. rewrite length_substring in Hempty by lia. lia.
Qed.

End Strings.

Section ReportFile.

Context {Val : Type} (str : Val -> string).
Context (onReport : PyDict.dict string Val -> PyDict.dict string Val).
Implicit Types (info : Report.SystemInformation Val) (report : list string).
Implicit Types (f : string).

Lemma reportData_keys report info :
  PyDict.keys (Report.reportData Val report info) = columnNames report.
Proof.
  unfold Report.reportData, columnNames.
  by repeat case_bool_decide.
Qed.



Lemma print_not_empty line f : Report.print line f ≠ "".
Proof.
  unfold Report.print. intros Hempty%length_zero.
  rewrite !length_append in Hempty. simpl in Hempty. lia.
Qed.




End ReportFile.



Example report_row_with_callback :
  Report.printAll Z pretty addsFps (Some "report.csv") ["cpu"] [sampleInfo] ""
  = "cpuCssAvg,cpuMssAvg" +:+ Report.newline
    +:+ "1,0,30" +:+ Report.newline.
Proof. vm_compute. reflexivity. Qed.

(** ** Dictionaries *)

Section PyDictFacts.

Context {K V : Type} `{EqDecision K}.
Implicit Types (d : PyDict.dict K V) (k : K) (v : V).

Lemma get_set_eq d k v : PyDict.get k (PyDict.set k v d) = Some v.
Proof.
  induction d as [|[k' v'] d IH]; simpl.
  - by rewrite decide_True.
  - destruct (decide (k' = k)) as [->|Hne]; simpl.
    + by rewrite decide_True.
    + by rewrite decide_False.
Qed.

Lemma get_set_ne d k k' v :
  k ≠ k' -> PyDict.get k' (PyDict.set k v d) = PyDict.get k' d.
Proof.
  intros Hne. induction d as [|[k0 v0] d IH]; simpl.
  - by rewrite decide_False.
  - destruct (decide (k0 = k)) as [->|Hne0]; simpl.
    + by rewrite !decide_False.
    + by rewrite IH.
Qed.

Lemma elem_of_keys d k : k ∈ PyDict.keys d <-> is_Some (PyDict.get k d).
Proof.
  unfold PyDict.keys. induction d as [|[k' v'] d IH]; simpl.
  - rewrite elem_of_nil. split; [done|]. by intros [? ?].
  - rewrite elem_of_cons, IH. destruct (decide (k' = k)) as [->|Hne].
    + split; [by eauto|by left].
    + split; [by intros [?|?]|by right].
Qed.

Lemma keys_set_elem_of d k v :
  k ∈ PyDict.keys d -> PyDict.keys (PyDict.set k v d) = PyDict.keys d.
Proof.
  unfold PyDict.keys. induction d as [|[k' v'] d IH]; simpl.
  - by intros ?%elem_of_nil.
  - intros Hin. destruct (decide (k' = k)) as [->|Hne]; simpl; [done|].
    f_equal. apply IH. apply elem_of_cons in Hin as [?|?]; [congruence|done].
Qed.

Lemma keys_set_not_elem_of d k v :
  k ∉ PyDict.keys d -> PyDict.keys (PyDict.set k v d) = PyDict.keys d ++ [k].
Proof.
  unfold PyDict.keys. induction d as [|[k' v'] d IH]; simpl; [done|].
  intros Hnot. apply not_elem_of_cons in Hnot as [Hne Hnot].
  rewrite decide_False by done. simpl. f_equal. by apply IH.
Qed.

End PyDictFacts.

(** ** Trackbars *)

Section TrackbarState.

Import Trackbars.
Implicit Types (s : World) (name window o : string) (value : Z).

Lemma stored_set_stored s name window value o :
  stored (set_stored name window value s) name o
  = if decide (o = window) then Some value else stored s name o.
Proof.
  unfold stored, set_stored. simpl. rewrite lookup_insert_eq. simpl.
  destruct (decide (o = window)) as [->|Hne].
  - apply get_set_eq.
  - rewrite get_set_ne by done. by destruct (instances s !! name).
Qed.

Lemma stored_set_stored_other s name window value name' o :
  name' ≠ name ->
  stored (set_stored name window value s) name' o = stored s name' o.
Proof.
  intros Hne. unfold stored, set_stored. simpl. by rewrite lookup_insert_ne.
Qed.

Lemma elem_of_windows s name o :
  o ∈ windows s name <-> is_Some (stored s name o).
Proof.
  unfold windows, stored. rewrite elem_of_keys.
  destruct (instances s !! name); simpl; [done|].
  split; by intros [? ?].
Qed.

Lemma windows_set_stored s name window value :
  window ∈ windows s name ->
  windows (set_stored name window value s) name = windows s name.
Proof.
  unfold windows, set_stored. simpl. rewrite lookup_insert_eq. simpl.
  apply keys_set_elem_of.
Qed.

Lemma displayed_set_displayed s name window value name' o :
  displayed (set_displayed name window value s) name' o
  = if decide ((name, window) = (name', o)) then Some value
    else displayed s name' o.
Proof. unfold displayed, set_displayed. simpl. apply lookup_insert. Qed.

Lemma displayed_set_displayed_eq s name window value :
  displayed (set_displayed name window value s) name window = Some value.
Proof. rewrite displayed_set_displayed. by rewrite decide_True. Qed.

Lemma displayed_set_displayed_ne s name window value o :
  o ≠ window ->
  displayed (set_displayed name window value s) name o = displayed s name o.
Proof.
  intros Hne. rewrite displayed_set_displayed.
  rewrite decide_False; [done|congruence].
Qed.

End TrackbarState.

Section TrackbarHandler.

Import Trackbars.
Variables (name : string) (value : Z).
Implicit Types (s : World) (x o : string) (N : gset string).

Lemma fn_unfold fuel x s :
  fn (S fuel) name x value s
  = match stored s name x with
    | None => Some (raise KeyError)
    | Some own =>
        let s := if decide (own ≠ value) then callback name x value s else s in
        forEach (body fuel name x value) (windows s name) s
    end.
Proof. reflexivity. Qed.

Lemma frame_refl s : frame name s s.
Proof. by intros name' Hne. Qed.

Lemma frame_trans s1 s2 s3 :
  frame name s1 s2 -> frame name s2 s3 -> frame name s1 s3.
Proof.
  intros H12 H23 name' Hne.
  destruct (H12 name' Hne) as [Hi12 Hd12], (H23 name' Hne) as [Hi23 Hd23].
  split; [by rewrite Hi23|]. intros o. by rewrite Hd23.
Qed.

Lemma frame_set_stored s o v : frame name s (set_stored name o v s).
Proof.
  intros name' Hne. split; [|done].
  unfold set_stored. simpl. by rewrite lookup_insert_ne.
Qed.

Lemma frame_set_displayed s o v : frame name s (set_displayed name o v s).
Proof.
  intros name' Hne. split; [done|]. intros k.
  rewrite displayed_set_displayed. rewrite decide_False; [done|congruence].
Qed.

Lemma frame_callback s x v : frame name s (callback name x v s).
Proof. by intros name' Hne. Qed.

Lemma good_set_stored s o pos :
  good name value s -> o ∈ windows s name ->
  displayed s name o = Some pos ->
  good name value
    (if decide (pos = value) then set_stored name o value s
     else set_displayed name o value (set_stored name o value s)).
Proof.
  intros [Hsome Hshown] Ho Hpos. split.
  - intros k Hk. case_decide.
    + rewrite windows_set_stored in Hk by done. by apply Hsome.
    + change (windows (set_displayed name o value (set_stored name o value s)) name)
        with (windows (set_stored name o value s) name) in Hk.
      rewrite windows_set_stored in Hk by done.
      rewrite displayed_set_displayed. case_decide; [by eexists|].
      by apply Hsome.
  - intros k. case_decide as Hd.
    + rewrite stored_set_stored. subst pos.
      case_decide as Hk; [by subst k|]. apply Hshown.
    + change (stored (set_displayed name o value (set_stored name o value s)) name k)
        with (stored (set_stored name o value s) name k).
      rewrite stored_set_stored, displayed_set_displayed.
      destruct (decide (k = o)) as [->|Hk].
      * by rewrite decide_True.
      * rewrite decide_False by congruence. apply Hshown.
Qed.

Lemma pending_mono s s' N :
  windows s' name = windows s name ->
  (forall o, stored s name o = Some value -> stored s' name o = Some value) ->
  pending name value s N -> pending name value s' N.
Proof.
  intros Hw Hmono Hpend o Ho Hne. rewrite Hw in Ho.
  apply Hpend; [done|]. intros Hv. by apply Hne, Hmono.
Qed.

(** The loop of a handler, given that the handlers it starts behave. *)
Lemma loop_spec fuel x :
  (forall s o N,
     good name value s -> o ∈ windows s name ->
     displayed s name o = Some value ->
     pending name value s N -> (size N < fuel)%nat ->
     exists s', fn fuel name o value s = Some (inr s')
                /\ step name value o (windows s name)
                     (entryCallback name o value s) s s') ->
  forall l s N,
    good name value s -> x ∈ windows s name ->
    displayed s name x = Some value ->
    (forall o, o ∈ l -> o ∈ windows s name) ->
    pending name value s N -> (size N <= fuel)%nat ->
    exists s', forEach (body fuel name x value) l s = Some (inr s')
               /\ step name value x l [] s s'.
Proof.
  intros Hfn. induction l as [|o l IH]; intros s N Hgood Hx Hshown Hl Hpend Hsize.
  { exists s. split; [done|]. split; try done.
    - intros o Ho. by apply elem_of_nil in Ho.
    - right. split; [done|]. intros o Ho. by apply elem_of_nil in Ho.
    - by rewrite app_nil_r. }
  assert (Ho : o ∈ windows s name) by (apply Hl; by left).
  assert (Hrest : forall k, k ∈ l -> k ∈ windows s name)
    by (intros k Hk; apply Hl; by right).
  destruct (proj1 (elem_of_windows s name o) Ho) as [prev Hprev].
  simpl forEach. unfold body at 1. rewrite Hprev.
  destruct (decide (o ≠ x /\ prev ≠ value)) as [[Hox Hpv]|Hskip].
  - (* the window is brought to [value] *)
    destruct (proj1 Hgood o Ho) as [pos Hpos].
    pose proof (good_set_stored s o pos Hgood Ho Hpos) as Hgood1.
    unfold setTrackbarPos.
    change (displayed (set_stored name o value s) name o)
      with (displayed s name o). rewrite Hpos.
    pose proof (frame_set_stored s o value) as Hfr1.
    set (s1 := set_stored name o value s) in *.
    assert (Hw1 : windows s1 name = windows s name)
      by (by apply windows_set_stored).
    assert (Hmono1 : forall k, stored s name k = Some value ->
                               stored s1 name k = Some value).
    { intros k Hk. subst s1. rewrite stored_set_stored.
      by destruct (decide (k = o)). }
    assert (Hso : stored s1 name o = Some value).
    { subst s1. rewrite stored_set_stored. by rewrite decide_True. }
    assert (Hsx : stored s1 name x = stored s name x).
    { subst s1. rewrite stored_set_stored. by rewrite decide_False. }
    destruct (decide (pos = value)) as [->|Hpos_ne].
    + (* its trackbar shows [value] already: no handler runs *)
      destruct (IH s1 N) as (s' & Hrun & Hstep); try done.
      { by rewrite Hw1. }
      { intros k Hk. rewrite Hw1. by apply Hrest. }
      { by apply (pending_mono s). }
      exists s'. split; [done|].
      destruct Hstep as [Hw' Hg' Hoth' Hdis' Hmono' Hown' Hlog' Hfr'].
      split.
      * by rewrite Hw'.
      * done.
      * intros k Hk Hkx. apply elem_of_cons in Hk as [->|Hk]; [|by eauto].
        assert (stored s' name o = Some value) by eauto.
        split; [done|]. by apply Hg'.
      * done.
      * by eauto.
      * destruct Hown' as [?|[Hown Hl']]; [by left|right].
        split; [by rewrite Hown|].
        intros k Hk Hkx Hkv. apply elem_of_cons in Hk as [->|Hk]; [done|].
        destruct (decide (k = o)) as [->|Hko]; [done|].
        change (displayed s name k) with (displayed s1 name k).
        apply Hl'; [done..|].
        subst s1. rewrite stored_set_stored. by rewrite decide_False.
      * done.
      * by apply (frame_trans s s1 s').
    + (* its trackbar moves, and its handler runs *)
      pose proof (frame_set_displayed s1 o value) as Hfr2.
      set (s2 := set_displayed name o value s1) in *.
      assert (HoN : o ∈ N).
      { apply Hpend; [done|]. rewrite Hprev. congruence. }
      destruct (Hfn s2 o (N ∖ {[o]})) as (s3 & Hrun3 & Hstep3).
      * done.
      * change (windows s2 name) with (windows s1 name). by rewrite Hw1.
      * subst s2. apply displayed_set_displayed_eq.
      * intros k Hk Hkv.
        change (windows s2 name) with (windows s1 name) in Hk.
        change (stored s2 name k) with (stored s1 name k) in Hkv.
        rewrite Hw1 in Hk.
        assert (k ≠ o) by (intros ->; done).
        apply elem_of_difference. split; [|by rewrite elem_of_singleton].
        apply Hpend; [done|]. intros Hv. by apply Hkv, Hmono1.
      * pose proof (subset_size _ _ (subset_difference_elem_of o N HoN)). lia.
      * rewrite Hrun3.
        assert (Hlog3 : entryCallback name o value s2 = []).
        { unfold entryCallback.
          change (stored s2 name o) with (stored s1 name o).
          by rewrite decide_True. }
        destruct Hstep3 as [Hw3 Hgood3 Hoth3 Hdis3 Hmono3 Hown3 Hlogs3 Hfr3].
        change (windows s2 name) with (windows s1 name) in Hw3, Hoth3.
        rewrite Hw1 in Hw3, Hoth3.
        assert (Hsx3 : stored s3 name x = Some value)
          by (apply Hoth3; [done|congruence]).
        destruct (IH s3 N) as (s' & Hrun & Hstep); try done.
        { by rewrite Hw3. }
        { apply Hoth3; [done|congruence]. }
        { intros k Hk. rewrite Hw3. by apply Hrest. }
        { apply (pending_mono s); [done| |done].
          intros k Hk. by apply Hmono3, Hmono1. }
        exists s'. split; [done|].
        destruct Hstep as [Hw' Hg' Hoth' Hdis' Hmono' Hown' Hlog' Hfr'].
        split.
        -- by rewrite Hw'.
        -- done.
        -- intros k Hk Hkx. apply elem_of_cons in Hk as [->|Hk]; [|by eauto].
           assert (stored s' name o = Some value).
           { apply Hmono'. apply Hmono3. exact Hso. }
           split; [done|]. by apply Hg'.
        -- done.
        -- intros k Hk. by apply Hmono', Hmono3, Hmono1.
        -- left. by apply Hmono'.
        -- rewrite Hlog', Hlogs3, Hlog3. by rewrite !app_nil_r.
        -- apply (frame_trans s s3 s'); [|done].
           apply (frame_trans s s2 s3); [|done].
           by apply (frame_trans s s1 s2).
  - (* the window is left alone *)
    destruct (IH s N) as (s' & Hrun & Hstep); try done.
    exists s'. split; [done|].
    destruct Hstep as [Hw' Hg' Hoth' Hdis' Hmono' Hown' Hlog' Hfr'].
    split; try done.
    + intros k Hk Hkx. apply elem_of_cons in Hk as [->|Hk]; [|by eauto].
      assert (prev = value) as ->.
      { destruct (decide (prev = value)); [done|]. by destruct Hskip. }
      assert (stored s' name o = Some value) by eauto.
      split; [done|]. by apply Hg'.
    + destruct Hown' as [?|[Hown Hl']]; [by left|right].
      split; [done|].
      intros k Hk Hkx Hkv. apply elem_of_cons in Hk as [->|Hk]; [|by eauto].
      exfalso. apply Hskip. split; [done|]. intros ->. by rewrite Hprev in Hkv.
Qed.

End TrackbarHandler.

Section TrackbarEvents.

Import Trackbars.
Implicit Types (s : World) (name x o : string) (value : Z) (N : gset string).

Lemma fn_spec name value fuel : forall s x N,
  good name value s -> x ∈ windows s name ->
  displayed s name x = Some value ->
  pending name value s N -> (size N < fuel)%nat ->
  exists s', fn fuel name x value s = Some (inr s')
             /\ step name value x (windows s name)
                  (entryCallback name x value s) s s'.
Proof.
  induction fuel as [|fuel IH]; intros s x N Hgood Hx Hshown Hpend Hsize; [lia|].
  destruct (proj1 (elem_of_windows s name x) Hx) as [own Hown].
  rewrite fn_unfold, Hown. unfold entryCallback. rewrite Hown.
  destruct (decide (own ≠ value)) as [Hne|Heq]; cbv zeta.
  - destruct (loop_spec name value fuel x IH (windows s name)
                (callback name x value s) N) as (s' & Hrun & Hstep);
      try done; [lia|].
    exists s'. split; [exact Hrun|].
    destruct Hstep as [Hw Hg Hoth Hdis Hmono Hself Hlog Hfr].
    split; try done.
    rewrite decide_False by congruence.
    rewrite Hlog. simpl. by rewrite app_nil_r.
  - destruct (loop_spec name value fuel x IH (windows s name) s N)
      as (s' & Hrun & Hstep); try done; [lia|].
    exists s'. split; [exact Hrun|].
    destruct Hstep as [Hw Hg Hoth Hdis Hmono Hself Hlog Hfr].
    split; try done.
    rewrite decide_True; [done|].
    f_equal. by destruct (decide (own = value)).
Qed.

Lemma size_list_to_set_le (l : list string) :
  (size (list_to_set l : gset string) <= length l)%nat.
Proof.
  induction l as [|k l IH].
  - by rewrite list_to_set_nil, size_empty.
  - rewrite list_to_set_cons, size_union_alt, size_singleton. simpl.
    pose proof (subseteq_size (list_to_set l ∖ {[k]}) (list_to_set l : gset string)
                  (subseteq_difference_l _ _ _ (reflexivity _))).
    lia.
Qed.

Lemma pending_windows name value s :
  pending name value s (list_to_set (windows s name)).
Proof. intros o Ho _. by apply elem_of_list_to_set. Qed.

(** A handler that starts where every window stores and shows [value]
    already changes nothing. *)
Lemma changeEvent_spec name w value fuel s :
  w ∈ windows s name ->
  (forall o, o ∈ windows s name -> o ≠ w ->
     displayed s name o = stored s name o) ->
  (length (windows s name) < fuel)%nat ->
  exists s',
    changeEvent fuel name w value s = Some (inr s')
    /\ step name value w (windows s name) (entryCallback name w value s)
         (set_displayed name w value s) s'.
Proof.
  intros Hw Hsync Hfuel. unfold changeEvent.
  destruct (fn_spec name value fuel (set_displayed name w value s) w
              (list_to_set (windows s name))) as (s' & Hrun & Hstep).
  - split.
    + intros o Ho. change (o ∈ windows s name) in Ho.
      rewrite displayed_set_displayed. case_decide; [by eexists|].
      rewrite Hsync; [|done|congruence]. by apply elem_of_windows.
    + intros o Ho. change (stored s name o = Some value) in Ho.
      rewrite displayed_set_displayed. case_decide; [done|].
      rewrite Hsync; [done| |congruence].
      apply elem_of_windows. by eexists.
  - done.
  - apply displayed_set_displayed_eq.
  - apply (pending_windows name value s).
  - pose proof (size_list_to_set_le (windows s name)). lia.
  - exists s'. split; [exact Hrun|exact Hstep].
Qed.

End TrackbarEvents.

(** One change event, from any state in which the other windows under the
    name show what they store. *)
Lemma changeEvent_mirrors (s : Trackbars.World) (name w : string)
    (value : Z) (fuel : nat) :
  w ∈ Trackbars.windows s name ->
  (forall o, o ∈ Trackbars.windows s name -> o ≠ w ->
     Trackbars.displayed s name o = Trackbars.stored s name o) ->
  (length (Trackbars.windows s name) < fuel)%nat ->
  exists s',
    Trackbars.changeEvent fuel name w value s = Some (inr s')
    /\ (forall o, o ∈ Trackbars.windows s name -> o ≠ w ->
          Trackbars.stored s' name o = Some value
          /\ Trackbars.displayed s' name o = Some value)
    /\ Trackbars.displayed s' name w = Some value
    /\ Trackbars.callbackLog s'
       = Trackbars.callbackLog s ++ entryCallback name w value s.
Proof.
  intros Hw Hsync Hfuel.
  destruct (changeEvent_spec name w value fuel s Hw Hsync Hfuel)
    as (s' & Hrun & [Hwin Hgood Hoth Hdis Hmono Hself Hlog Hfr]).
  exists s'. by split_and!.
Qed.

Section TrackbarFuel.

Import Trackbars.

Lemma forEach_mono {A S} (f g : A -> S -> run S) :
  (forall x s r, f x s = Some r -> g x s = Some r) ->
  forall l s r, forEach f l s = Some r -> forEach g l s = Some r.
Proof.
  intros Hfg. induction l as [|x l IH]; intros s r; simpl; [done|].
  destruct (f x s) as [[e|s1]|] eqn:Hf; [| |done].
  - intros [= <-]. by rewrite (Hfg _ _ _ Hf).
  - intros Hrest. rewrite (Hfg _ _ _ Hf). by apply IH.
Qed.

Lemma setTrackbarPos_mono (f g : string -> string -> Z -> World -> run World) :
  (forall name w v s r, f name w v s = Some r -> g name w v s = Some r) ->
  forall name w v s r,
    setTrackbarPos f name w v s = Some r -> setTrackbarPos g name w v s = Some r.
Proof.
  intros Hfg name w v s r. unfold setTrackbarPos.
  destruct (displayed s name w) as [pos|]; [|done].
  case_decide; [done|]. apply Hfg.
Qed.

(** More fuel does not change what a handler returns. *)
Lemma fn_mono fuel : forall fuel' name w v s r,
  (fuel <= fuel')%nat ->
  fn fuel name w v s = Some r -> fn fuel' name w v s = Some r.
Proof.
  induction fuel as [|fuel IH]; intros fuel' name w v s r Hle; [done|].
  destruct fuel' as [|fuel']; [lia|].
  rewrite !fn_unfold. destruct (stored s name w) as [own|]; [|done].
  cbv zeta. apply forEach_mono. intros o s1 r1. unfold body.
  destruct (stored s1 name o) as [prev|]; [|done].
  case_decide; [|done].
  apply setTrackbarPos_mono. intros ? ? ? ? ?. apply IH. lia.
Qed.

Lemma changeEvent_mono fuel fuel' name w v s r :
  (fuel <= fuel')%nat ->
  changeEvent fuel name w v s = Some r -> changeEvent fuel' name w v s = Some r.
Proof. intros Hle. by apply fn_mono. Qed.

Lemma createTrackbar_mono fuel fuel' name w lo hi d s r :
  (fuel <= fuel')%nat ->
  createTrackbar fuel name w lo hi d s = Some r ->
  createTrackbar fuel' name w lo hi d s = Some r.
Proof.
  intros Hle. unfold createTrackbar. apply setTrackbarPos_mono.
  intros ? ? ? ? ?. by apply fn_mono.
Qed.

End TrackbarFuel.

Section TrackbarCreation.

Import Trackbars.
Implicit Types (s : World) (name w o : string) (value u d : Z).

Lemma frame_windows name s s' name' :
  frame name s s' -> name' ≠ name -> windows s' name' = windows s name'.
Proof. intros Hfr Hne. unfold windows. by rewrite (proj1 (Hfr name' Hne)). Qed.

Lemma frame_stored name s s' name' o :
  frame name s s' -> name' ≠ name -> stored s' name' o = stored s name' o.
Proof. intros Hfr Hne. unfold stored. by rewrite (proj1 (Hfr name' Hne)). Qed.

Lemma frame_mirrored name s s' name' u :
  frame name s s' -> name' ≠ name -> mirrored name' u s -> mirrored name' u s'.
Proof.
  intros Hfr Hne Hmir o Ho.
  rewrite (frame_windows name s s') in Ho by done.
  rewrite (frame_stored name s s') by done.
  rewrite (proj2 (Hfr name' Hne)). by apply Hmir.
Qed.

Lemma frame_settled name s s' name' :
  frame name s s' -> name' ≠ name -> settled name' s -> settled name' s'.
Proof.
  intros Hfr Hne [[u Hmir]|[w Hone]].
  - left. exists u. by apply (frame_mirrored name s s').
  - right. exists w. intros o Ho.
    rewrite (frame_windows name s s') in Ho by done. by apply Hone.
Qed.

Lemma elem_of_windows_set_stored s name w value o :
  o ∈ windows (set_stored name w value s) name <-> o = w \/ o ∈ windows s name.
Proof.
  rewrite !elem_of_windows, stored_set_stored.
  destruct (decide (o = w)) as [->|Hne].
  - split; [by left|by eauto].
  - split; [by right|by intros [?|?]].
Qed.

Lemma length_windows_set_stored s name w value :
  (length (windows (set_stored name w value s) name)
   <= S (length (windows s name)))%nat.
Proof.
  unfold windows, set_stored. simpl. rewrite lookup_insert_eq. simpl.
  destruct (decide (w ∈ PyDict.keys (default [] (instances s !! name)))).
  - rewrite keys_set_elem_of by done. lia.
  - rewrite keys_set_not_elem_of by done. rewrite length_app. simpl. lia.
Qed.

(** A trackbar created with the value that its name's windows store and
    show leaves them, the new one included, at that value, and no user
    callback is made. *)
Lemma createTrackbar_spec name w lo hi d fuel s :
  mirrored name d s ->
  (S (length (windows s name)) < fuel)%nat ->
  exists s',
    createTrackbar fuel name w lo hi d s = Some (inr s')
    /\ mirrored name d s' /\ frame name s s'
    /\ callbackLog s' = callbackLog s.
Proof.
  intros Hmir Hfuel. unfold createTrackbar.
  pose proof (frame_set_displayed name s w lo) as Hfr1.
  set (s1 := set_displayed name w lo s) in *.
  pose proof (frame_set_stored name s1 w d) as Hfr2.
  pose proof (length_windows_set_stored s1 name w d) as Hlen.
  change (windows s1 name) with (windows s name) in Hlen.
  set (s2 := set_stored name w d s1) in *.
  assert (Hs2 : forall o, stored s2 name o
                          = if decide (o = w) then Some d else stored s name o).
  { intros o. subst s2. by rewrite stored_set_stored. }
  assert (Hd2 : forall o, displayed s2 name o
                          = if decide (o = w) then Some lo else displayed s name o).
  { intros o. change (displayed s2 name o) with (displayed s1 name o).
    subst s1. rewrite displayed_set_displayed.
    destruct (decide (o = w)) as [->|Hne].
    - by rewrite decide_True.
    - rewrite decide_False; [done|congruence]. }
  assert (Hw2 : forall o, o ∈ windows s2 name <-> o = w \/ o ∈ windows s name).
  { intros o. subst s2. by rewrite elem_of_windows_set_stored. }
  unfold setTrackbarPos. rewrite Hd2, decide_True by done.
  destruct (decide (lo = d)) as [->|Hlo].
  - exists s2. split; [done|]. split_and!; [|by apply (frame_trans name s s1 s2)|done].
    intros o Ho. rewrite Hs2, Hd2. apply Hw2 in Ho.
    destruct (decide (o = w)) as [->|Hne]; [done|].
    destruct Ho as [?|Ho]; [done|]. by apply Hmir.
  - pose proof (frame_set_displayed name s2 w d) as Hfr3.
    set (s3 := set_displayed name w d s2) in *.
    assert (Hd3 : forall o, displayed s3 name o
                            = if decide (o = w) then Some d else displayed s name o).
    { intros o. subst s3. rewrite displayed_set_displayed.
      destruct (decide (o = w)) as [->|Hne].
      - by rewrite decide_True.
      - rewrite decide_False by congruence. rewrite Hd2. by rewrite decide_False. }
    destruct (fn_spec name d fuel s3 w (list_to_set (windows s3 name)))
      as (s' & Hrun & [Hwin Hgood Hoth Hdis Hmono Hself Hlog Hfr]).
    + split.
      * intros o Ho. change (o ∈ windows s2 name) in Ho. rewrite Hd3.
        case_decide; [by eexists|]. apply Hw2 in Ho as [?|Ho]; [done|].
        destruct (Hmir o Ho) as [_ ->]. by eexists.
      * intros o Ho. change (stored s2 name o = Some d) in Ho.
        rewrite Hd3. case_decide as Hne; [done|]. rewrite Hs2 in Ho.
        rewrite decide_False in Ho by done.
        apply Hmir, elem_of_windows. by eexists.
    + change (w ∈ windows s2 name). apply Hw2. by left.
    + rewrite Hd3. by rewrite decide_True.
    + apply pending_windows.
    + pose proof (size_list_to_set_le (windows s3 name)) as Hsize.
      assert (length (windows s3 name) = length (windows s2 name)) by done.
      lia.
    + exists s'. split; [done|]. split_and!.
      * intros o Ho. rewrite Hwin in Ho. change (o ∈ windows s2 name) in Ho.
        destruct (decide (o = w)) as [->|Hne]; [|by apply Hoth].
        split; [|done]. destruct Hself as [?|[Hsame _]]; [done|].
        rewrite Hsame. change (stored s2 name w = Some d).
        rewrite Hs2. by rewrite decide_True.
      * apply (frame_trans name s s3 s'); [|done].
        apply (frame_trans name s s2 s3); [|done].
        by apply (frame_trans name s s1 s2).
      * rewrite Hlog. unfold entryCallback.
        change (stored s3 name w) with (stored s2 name w).
        rewrite Hs2. rewrite (decide_True (P := w = w)) by done.
        rewrite decide_True by done. by rewrite app_nil_r.
Qed.

(** Whatever the fuel, a creation that ends has ended that way. *)
Lemma createTrackbar_mirrored name w lo hi d fuel s s' :
  mirrored name d s ->
  createTrackbar fuel name w lo hi d s = Some (inr s') ->
  mirrored name d s' /\ frame name s s'.
Proof.
  intros Hmir Hrun.
  destruct (createTrackbar_spec name w lo hi d
              (fuel + S (S (length (windows s name)))) s Hmir)
    as (s'' & Hrun' & Hmir' & Hfr' & _); [lia|].
  apply (createTrackbar_mono _ (fuel + S (S (length (windows s name))))) in Hrun;
    [|lia].
  rewrite Hrun in Hrun'. by injection Hrun' as <-.
Qed.

End TrackbarCreation.

Section TrackbarInvariant.

Import Trackbars QueueCallback.
Implicit Types (s : World) (name w o : string) (value u d : Z) (c : Conf).

Lemma mirrored_empty name u : mirrored name u Trackbars.empty.
Proof. intros o Ho. by apply elem_of_nil in Ho. Qed.

Lemma createTrackbar_defaults c name w lo hi fuel s s' :
  (forall name', mirrored name' (defaultOf c name') s) ->
  createTrackbar fuel name w lo hi (defaultOf c name) s = Some (inr s') ->
  forall name', mirrored name' (defaultOf c name') s'.
Proof.
  intros Hall Hrun name'.
  destruct (createTrackbar_mirrored _ _ _ _ _ _ _ _ (Hall name) Hrun)
    as [Hmir Hfr].
  destruct (decide (name' = name)) as [->|Hne]; [done|].
  by apply (frame_mirrored name s s').
Qed.

Lemma _createQueueCallback_defaults c fuel queueName s s' :
  (forall name, mirrored name (defaultOf c name) s) ->
  _createQueueCallback fuel c queueName s = Some (inr s') ->
  forall name, mirrored name (defaultOf c name) s'.
Proof.
  intros Hall. unfold _createQueueCallback.
  destruct (displayFrames c && _); [|by intros [= <-]].
  destruct (createTrackbar fuel "Disparity confidence" _ _ _ _ s)
    as [[e|s1]|] eqn:Hrun1; [done| |done].
  assert (Hall1 : forall name, mirrored name (defaultOf c name) s1).
  { apply (createTrackbar_defaults c "Disparity confidence" queueName
             (DISP_CONF_MIN c) (DISP_CONF_MAX c) fuel s s1 Hall). exact Hrun1. }
  unfold andThen at 1.
  assert (Hlast : forall s2,
    (forall name, mirrored name (defaultOf c name) s2) ->
    (if stereoLrCheck c then
       createTrackbar fuel "LR-check threshold" queueName
         (LRCT_MIN c) (LRCT_MAX c) (lrcThreshold c) s2
     else Some (ret s2)) = Some (inr s') ->
    forall name, mirrored name (defaultOf c name) s').
  { intros s2 Hall2. destruct (stereoLrCheck c); [|by intros [= <-]].
    intros Hrun3.
    apply (createTrackbar_defaults c "LR-check threshold" queueName
             (LRCT_MIN c) (LRCT_MAX c) fuel s2 s' Hall2). exact Hrun3. }
  destruct (bool_decide (queueName ∈ ["depthRaw"; "depth"])).
  - destruct (createTrackbar fuel "Bilateral sigma" _ _ _ _ s1)
      as [[e|s2]|] eqn:Hrun2; [done| |done].
    unfold andThen. apply Hlast.
    apply (createTrackbar_defaults c "Bilateral sigma" queueName
             (SIGMA_MIN c) (SIGMA_MAX c) fuel s1 s2 Hall1). exact Hrun2.
  - unfold andThen. by apply Hlast.
Qed.

Lemma created_defaults c s :
  created c s -> forall name, mirrored name (defaultOf c name) s.
Proof.
  induction 1 as [|s s' fuel queueName _ IH Hrun].
  - intros name. apply mirrored_empty.
  - by apply (_createQueueCallback_defaults c fuel queueName s).
Qed.

Lemma settled_in_sync name s w :
  settled name s -> w ∈ windows s name ->
  forall o, o ∈ windows s name -> o ≠ w ->
    displayed s name o = stored s name o.
Proof.
  intros [[u Hmir]|[w' Hone]] Hw o Ho How.
  - destruct (Hmir o Ho) as [-> ->]. done.
  - rewrite (Hone o Ho), (Hone w Hw) in How. done.
Qed.

(** Windows that were mirrored, two or more, are mirrored at the new
    value when the handler returns. *)
Lemma step_mirrored name w value u s s' :
  step name value w (windows s name) (entryCallback name w value s)
    (set_displayed name w value s) s' ->
  w ∈ windows s name -> mirrored name u s ->
  (exists o, o ∈ windows s name /\ o ≠ w) ->
  mirrored name value s'.
Proof.
  intros [Hwin Hgood Hoth Hdis Hmono Hself Hlog Hfr] Hw Hmir (o & Ho & How) k Hk.
  rewrite Hwin in Hk. change (k ∈ windows s name) in Hk.
  destruct (decide (k = w)) as [->|Hkw]; [|by apply Hoth].
  split; [|done].
  destruct Hself as [?|[Hsame Hshown]]; [done|].
  rewrite Hsame. change (stored s name w = Some value).
  destruct (Hmir w Hw) as [Hsw _]. rewrite Hsw. f_equal.
  destruct (decide (u = value)) as [|Hu]; [done|].
  destruct (Hmir o Ho) as [Hso Hdo].
  specialize (Hshown o Ho How).
  change (stored s name o ≠ Some value ->
          displayed (set_displayed name w value s) name o = Some value)
    in Hshown.
  rewrite displayed_set_displayed_ne, Hso, Hdo in Hshown by done.
  assert (Some u = Some value) by (apply Hshown; congruence). congruence.
Qed.

(** Whatever the fuel, a handler that returns has done its work. *)
Lemma changeEvent_returns name w value fuel s s' :
  w ∈ windows s name ->
  (forall o, o ∈ windows s name -> o ≠ w ->
     displayed s name o = stored s name o) ->
  changeEvent fuel name w value s = Some (inr s') ->
  step name value w (windows s name) (entryCallback name w value s)
    (set_displayed name w value s) s'.
Proof.
  intros Hw Hsync Hrun.
  destruct (changeEvent_spec name w value
              (fuel + S (length (windows s name))) s Hw Hsync)
    as (s'' & Hrun' & Hstep); [lia|].
  apply (changeEvent_mono _ (fuel + S (length (windows s name)))) in Hrun; [|lia].
  rewrite Hrun in Hrun'. by injection Hrun' as <-.
Qed.

Lemma changeEvent_settled name w value fuel s s' :
  (forall name', settled name' s) ->
  w ∈ windows s name ->
  changeEvent fuel name w value s = Some (inr s') ->
  forall name', settled name' s'.
Proof.
  intros Hall Hw Hrun name'.
  pose proof (changeEvent_returns name w value fuel s s' Hw
                (settled_in_sync name s w (Hall name) Hw) Hrun) as Hstep.
  destruct (decide (name' = name)) as [->|Hne].
  - destruct (decide (Forall (fun o => o = w) (windows s name))) as [Hone|Hmore].
    + right. exists w. intros o Ho. rewrite (step_windows _ _ _ _ _ _ _ Hstep) in Ho.
      change (o ∈ windows s name) in Ho.
      by apply (proj1 (Forall_forall _ _) Hone).
    + apply not_Forall_Exists in Hmore; [|apply _].
      apply Exists_exists in Hmore as (o & Ho & How).
      destruct (Hall name) as [[u Hmir]|[w' Hone]].
      * left. exists value. apply (step_mirrored name w value u s s'); eauto.
      * right. exists w'. intros k Hk.
        rewrite (step_windows _ _ _ _ _ _ _ Hstep) in Hk. by apply Hone.
  - apply (frame_settled name s s'); [|done..].
    apply (frame_trans name s (set_displayed name w value s) s').
    + apply frame_set_displayed.
    + apply (step_frame _ _ _ _ _ _ _ Hstep).
Qed.

Lemma running_settled c s : running c s -> forall name, settled name s.
Proof.
  induction 1 as [s Hcreated|s s' fuel name w value _ IH Hw Hrun].
  - intros name. left. exists (defaultOf c name). by apply created_defaults.
  - by apply (changeEvent_settled name w value fuel s s').
Qed.

End TrackbarInvariant.

Lemma demoWindows_running : QueueCallback.running demoConf demoWindows.
Proof.
  apply QueueCallback.running_created.
  apply (QueueCallback.created_queue demoConf (afterQueues demoConf ["depth"])
           demoWindows 8 "disparity").
  - apply (QueueCallback.created_queue demoConf Trackbars.empty
             (afterQueues demoConf ["depth"]) 8 "depth").
    + apply QueueCallback.created_empty.
    + vm_compute. reflexivity.
  - vm_compute. reflexivity.
Qed.

Example demoWindows_trackbars :
  Trackbars.instances demoWindows !! "Disparity confidence"
  = Some [("depth", 245); ("disparity", 245)]
  /\ Trackbars.instances demoWindows !! "Bilateral sigma" = Some [("depth", 0)]
  /\ Trackbars.instances demoWindows !! "LR-check threshold"
     = Some [("depth", 4); ("disparity", 4)]
  /\ Trackbars.callbackLog demoWindows = [].
Proof. by vm_compute. Qed.

(** Two sliders moved in turn: each callback is made once, for the window
    that was moved, and both windows follow. *)
Example demoWindows_two_changes :
  let s := afterEvents demoWindows
             [("Disparity confidence", "depth", 200);
              ("Disparity confidence", "disparity", 100)] in
  Trackbars.instances s !! "Disparity confidence"
  = Some [("depth", 100); ("disparity", 100)]
  /\ Trackbars.displayed s "Disparity confidence" "depth" = Some 100
  /\ Trackbars.displayed s "Disparity confidence" "disparity" = Some 100
  /\ Trackbars.callbackLog s
     = [("Disparity confidence", "depth", 200);
        ("Disparity confidence", "disparity", 100)].
Proof. by vm_compute. Qed.

(** A trackbar with a single window: nothing updates what is stored for the
    window itself, so the callback is made whenever the value differs from
    the default, and not when the slider returns to it. *)
Example single_window_changes :
  let s := afterEvents demoWindows
             [("Bilateral sigma", "depth", 10); ("Bilateral sigma", "depth", 0)] in
  Trackbars.stored s "Bilateral sigma" "depth" = Some 0
  /\ Trackbars.displayed s "Bilateral sigma" "depth" = Some 0
  /\ Trackbars.callbackLog s = [("Bilateral sigma", "depth", 10)].
Proof. by vm_compute. Qed.

(** C8 (as the code has it): when the trackbars were all created before
    any slider is moved, each name with one default, as
    [_createQueueCallback] creates them, a slider moved to a value in one
    window leaves every other window under the trackbar name storing and
    showing that value; the user callback is invoked once if the value
    differs from what the changed window stores, and not otherwise; and if
    there is another window, all the windows under the name store and show
    the value afterwards. *)
Theorem trackbar_change_mirrored (c : QueueCallback.Conf) (s : Trackbars.World)
    (name w : string) (value : Z) (fuel : nat) :
  QueueCallback.running c s ->
  w ∈ Trackbars.windows s name ->
  (length (Trackbars.windows s name) < fuel)%nat ->
  exists s',
    Trackbars.changeEvent fuel name w value s = Some (inr s')
    /\ (forall o, o ∈ Trackbars.windows s name -> o ≠ w ->
          Trackbars.stored s' name o = Some value
          /\ Trackbars.displayed s' name o = Some value)
    /\ Trackbars.displayed s' name w = Some value
    /\ Trackbars.callbackLog s'
       = Trackbars.callbackLog s
         ++ (if decide (Trackbars.stored s name w = Some value) then []
             else [(name, w, value)])
    /\ ((exists o, o ∈ Trackbars.windows s name /\ o ≠ w) ->
        mirrored name value s')
    /\ QueueCallback.running c s'.
Proof.
  intros Hrunning Hw Hfuel.
  pose proof (running_settled c s Hrunning) as Hall.
  pose proof (settled_in_sync name s w (Hall name) Hw) as Hsync.
  destruct (changeEvent_mirrors s name w value fuel Hw Hsync Hfuel)
    as (s' & Hrun & Hoth & Hdis & Hlog).
  exists s'. split_and!; try done.
  - intros (o & Ho & How).
    pose proof (changeEvent_returns name w value fuel s s' Hw Hsync Hrun) as Hstep.
    destruct (Hall name) as [[u Hmir]|[w' Hone]].
    + apply (step_mirrored name w value u s s'); eauto.
    + rewrite (Hone o Ho), (Hone w Hw) in How. done.
  - by apply (QueueCallback.running_event c s s' fuel name w value).
Qed.

Lemma trackbar_change_mirrored_witness :
  exists s',
    Trackbars.changeEvent 3 "Disparity confidence" "depth" 200 demoWindows
    = Some (inr s')
    /\ (forall o, o ∈ Trackbars.windows demoWindows "Disparity confidence" ->
          o ≠ "depth" ->
          Trackbars.stored s' "Disparity confidence" o = Some 200
          /\ Trackbars.displayed s' "Disparity confidence" o = Some 200)
    /\ Trackbars.displayed s' "Disparity confidence" "depth" = Some 200
    /\ Trackbars.callbackLog s'
       = Trackbars.callbackLog demoWindows
         ++ (if decide (Trackbars.stored demoWindows "Disparity confidence" "depth"
                        = Some 200) then []
             else [("Disparity confidence", "depth", 200)])
    /\ ((exists o, o ∈ Trackbars.windows demoWindows "Disparity confidence"
                   /\ o ≠ "depth") ->
        mirrored "Disparity confidence" 200 s')
    /\ QueueCallback.running demoConf s'.
Proof.
  apply (trackbar_change_mirrored demoConf demoWindows
           "Disparity confidence" "depth" 200 3).
  - exact demoWindows_running.
  - vm_compute. apply list_elem_of_here.
  - vm_compute. lia.
Defined.

Lemma lateWindow_reachable : reachable lateWindow.
Proof.
  apply (reachable_event
           (afterCreate "Disparity confidence" "disparity" 0 255 245 depthDragged)
           lateWindow 8 "Disparity confidence" "disparity" 200).
  - apply (reachable_create depthDragged _ 8 "Disparity confidence" "disparity"
             0 255 245).
    + apply (reachable_event
               (afterCreate "Disparity confidence" "depth" 0 255 245
                  Trackbars.empty)
               depthDragged 8 "Disparity confidence" "depth" 200).
      * apply (reachable_create Trackbars.empty _ 8 "Disparity confidence"
                 "depth" 0 255 245); [apply reachable_empty|].
        vm_compute. reflexivity.
      * vm_compute. apply list_elem_of_here.
      * vm_compute. reflexivity.
    + vm_compute. reflexivity.
  - vm_compute. apply list_elem_of_further, list_elem_of_here.
  - vm_compute. reflexivity.
Qed.

(** C8, as stated: refuted for a window that gets its trackbar after a
    slider was moved.  The handler never records the value of its own
    window, so the depth window still stores the 200 that the disparity
    handler wrote; dragged back to 245, the default that the disparity
    window still stores, it leaves the disparity slider at 200. *)
Lemma trackbar_stale_after_late_window : ~ mirrorsAsStated.
Proof.
  intros Hmirrors.
  destruct (Hmirrors lateWindow "Disparity confidence" "depth" 245 8%nat
              (afterEvents lateWindow [("Disparity confidence", "depth", 245)])
              lateWindow_reachable) with (o := "disparity") as [_ Hshown].
  - vm_compute. apply list_elem_of_here.
  - vm_compute. reflexivity.
  - vm_compute. apply list_elem_of_further, list_elem_of_here.
  - done.
  - vm_compute in Hshown. discriminate.
Qed.

Example lateWindow_out_of_step :
  let s := afterEvents lateWindow [("Disparity confidence", "depth", 245)] in
  Trackbars.displayed s "Disparity confidence" "depth" = Some 245
  /\ Trackbars.displayed s "Disparity confidence" "disparity" = Some 200
  /\ Trackbars.instances s !! "Disparity confidence"
     = Some [("depth", 200); ("disparity", 245)].
Proof. by vm_compute. Qed.


Example report_two_messages :
  Report.printAll Z pretty Report.noop (Some "report.txt") ["cpu"; "temp"]
    [sampleInfo; sampleInfo] ""
  = "tempAvg,tempCss,tempMss,tempUpa0,tempUpa1,cpuCssAvg,cpuMssAvg" +:+ Report.newline
    +:+ "38,39,37,40,36,1,0" +:+ Report.newline
    +:+ "38,39,37,40,36,1,0" +:+ Report.newline.
Proof. vm_compute. reflexivity. Qed.

Example report_file_names :
  Report.reportFileName "report.txt" = inr "report.csv"
  /\ Report.reportFileName "report" = inr "report.csv"
  /\ Report.reportFileName "log.2021.tar" = inr "log.2021.csv"
  /\ Report.reportFileName ".hidden" = inr ".hidden.csv"
  /\ Report.reportFileName "" = inl ValueError.
Proof. by vm_compute. Qed.


(** * Further properties of the code *)

(** ** The keyboard handling of [loop] *)

Lemma cameraKeys_codes :
  Demo.cameraKeys = [116; 103; 121; 104; 117; 106; 105; 107; 111; 108; 112; 59].
Proof. reflexivity. Qed.

Ltac not_a_camera_key :=
  rewrite ?cameraKeys_codes, ?not_elem_of_cons; cbv [ord]; simpl;
  repeat split; first [lia | apply not_elem_of_nil].

Lemma q_not_a_camera_key : ord "q" ∉ Demo.cameraKeys.
Proof. not_a_camera_key. Qed.

Lemma m_not_a_camera_key : ord "m" ∉ Demo.cameraKeys.
Proof. not_a_camera_key. Qed.

Lemma cameraKey_unbound key c :
  key ∉ Demo.cameraKeys -> Demo.cameraKey key c = (c, false).
Proof.
  rewrite cameraKeys_codes, !not_elem_of_cons. intros Hkey.
  unfold Demo.cameraKey. key_codes.
  repeat (rewrite decide_False by tauto). done.
Qed.

Lemma cameraKey_bound key c :
  key ∈ Demo.cameraKeys -> (Demo.cameraKey key c).2 = true.
Proof.
  rewrite cameraKeys_codes, !elem_of_cons, elem_of_nil. intros Hkey.
  unfold Demo.cameraKey. key_codes.
  repeat (case_decide; [done|]). exfalso. tauto.
Qed.

Lemma _updateCameraConfigs_calls {A} conf c (d : Demo.Demo A) :
  Demo._updateCameraConfigs conf c d
  = {| Demo._medianFilters := Demo._medianFilters d;
       Demo._cameraConfig := Demo._cameraConfig d;
       Demo.sdkCalls := Demo.sdkCalls d ++ cameraUpdates conf c |}.
Proof.
  unfold Demo._updateCameraConfigs, cameraUpdates, Demo.call. destruct d.
  destruct (Demo.leftCameraEnabled conf), (Demo.rightCameraEnabled conf),
    (Demo.rgbCameraEnabled conf); simpl;
    by rewrite <- ?app_assoc, ?app_nil_r.
Qed.

(** X1: what makes an iteration's key handling raise.  With frames
    displayed, ['q'] raises [StopIteration], ['m'] raises it when the cycle
    of filters is empty, and a camera key raises [AttributeError] when the
    camera controls are on and no dictionary was set (a video as input);
    nothing else raises, and without frames displayed no key does
    anything. *)
Theorem loopKey_raises_iff {A : Type} (conf : Demo.Conf) (key : Z)
    (d : Demo.Demo A) (e : exn) :
  (Demo.displayFrames conf = false -> Demo.loopKey conf key d = inr d)
  /\ (Demo.displayFrames conf = true ->
      (Demo.loopKey conf key d = inl e <->
       (key = ord "q" /\ e = StopIteration)
       \/ (key = ord "m" /\ e = StopIteration
           /\ saved (Demo._medianFilters d) !! cursor (Demo._medianFilters d)
              = None)
       \/ (key ∈ Demo.cameraKeys /\ e = AttributeError
           /\ Demo.cameraControlls conf = true
           /\ Demo._cameraConfig d = None))).
Proof.
  split; intros Hdisp; unfold Demo.loopKey; rewrite Hdisp; [done|].
  pose proof q_not_a_camera_key as Hq.
  pose proof m_not_a_camera_key as Hm.
  assert (Hqm : ord "q" ≠ ord "m") by done.
  assert (Hcam : forall d1 : Demo.Demo A,
    (if Demo.cameraControlls conf then
       match Demo._cameraConfig d1 with
       | Some c =>
           let '(c, update) := Demo.cameraKey key c in
           let d := {| Demo._medianFilters := Demo._medianFilters d1;
                       Demo._cameraConfig := Some c;
                       Demo.sdkCalls := Demo.sdkCalls d1 |} in
           ret (if update then Demo._updateCameraConfigs conf c d else d)
       | None =>
           if decide (key ∈ Demo.cameraKeys) then raise AttributeError else ret d1
       end
     else ret d1) = inl e <->
    key ∈ Demo.cameraKeys /\ e = AttributeError
    /\ Demo.cameraControlls conf = true /\ Demo._cameraConfig d1 = None).
  { intros d1. destruct (Demo.cameraControlls conf); [|by intuition].
    destruct (Demo._cameraConfig d1) as [c|].
    - destruct (Demo.cameraKey key c). by intuition.
    - case_decide; [|by intuition].
      split; [by intros [= <-]|by intros (_ & -> & _)]. }
  destruct (decide (key = ord "q")) as [->|Hkq].
  - simpl. split; [intros [= <-]; by left|].
    intros [[_ ->]|[[? _]|[? _]]]; done.
  - destruct (decide (key = ord "m")) as [->|Hkm].
    + unfold next.
      destruct (saved (Demo._medianFilters d) !! cursor (Demo._medianFilters d))
        as [x|] eqn:Hx; simpl.
      * etrans;
          [exact (Hcam (Demo.call (Demo.UpdateDepthConfig x)
                          {| Demo._medianFilters :=
                               Cycle (saved (Demo._medianFilters d))
                                 (S (cursor (Demo._medianFilters d))
                                  mod length (saved (Demo._medianFilters d)))%nat;
                             Demo._cameraConfig := Demo._cameraConfig d;
                             Demo.sdkCalls := Demo.sdkCalls d |}))|].
        split; [intros [? _]; done|].
        intros [[? _]|[(_ & _ & ?)|[? _]]]; done.
      * split; [intros [= <-]; right; by left|].
        intros [[? _]|[(_ & -> & _)|[? _]]]; done.
    + etrans; [exact (Hcam d)|]. split; [by auto|].
      intros [[? _]|[[? _]|?]]; done.
Qed.

(** X2: a key that is bound to nothing (such as the -1 of an iteration
    without a key press) leaves the cycle, the dictionary and the calls as
    they are. *)
Theorem unbound_key_changes_nothing {A : Type} (conf : Demo.Conf) (key : Z)
    (d : Demo.Demo A) :
  key ∉ ord "q" :: ord "m" :: Demo.cameraKeys ->
  Demo.loopKey conf key d = inr d.
Proof.
  rewrite !not_elem_of_cons. intros (Hq & Hm & Hcam).
  unfold Demo.loopKey. destruct (Demo.displayFrames conf); [|done].
  rewrite (decide_False (P := key = ord "q")), (decide_False (P := key = ord "m"))
    by done.
  simpl. destruct (Demo.cameraControlls conf); [|done].
  destruct d as [cyc [c|] calls]; simpl.
  - by rewrite (cameraKey_unbound key c Hcam).
  - by rewrite decide_False.
Qed.

Lemma unbound_key_changes_nothing_witness :
  Demo.loopKey keyboardConf (-1)
    {| Demo._medianFilters := mk_cycle [MEDIAN_OFF];
       Demo._cameraConfig := Some tunedConfig; Demo.sdkCalls := [] |}
  = inr {| Demo._medianFilters := mk_cycle [MEDIAN_OFF];
           Demo._cameraConfig := Some tunedConfig; Demo.sdkCalls := [] |}.
Proof.
  apply (unbound_key_changes_nothing keyboardConf (-1)).
  not_a_camera_key.
Defined.

(** X3: with the camera controls on, a camera key stores the dictionary
    that [cameraKey] gives and sends that dictionary, after the change, to
    every enabled camera, left, right and colour in this order; the cycle
    of filters is not touched. *)
Theorem camera_key_sends_update {A : Type} (conf : Demo.Conf) (key : Z)
    (d : Demo.Demo A) (c : Demo.CameraConfig) :
  Demo.displayFrames conf = true ->
  Demo.cameraControlls conf = true ->
  Demo._cameraConfig d = Some c ->
  key ∈ Demo.cameraKeys ->
  Demo.loopKey conf key d
  = inr {| Demo._medianFilters := Demo._medianFilters d;
           Demo._cameraConfig := Some (Demo.cameraKey key c).1;
           Demo.sdkCalls :=
             Demo.sdkCalls d ++ cameraUpdates conf (Demo.cameraKey key c).1 |}.
Proof.
  intros Hdisp Hctl Hc Hkey.
  assert (Hq : key ≠ ord "q") by (intros ->; by apply q_not_a_camera_key).
  assert (Hm : key ≠ ord "m") by (intros ->; by apply m_not_a_camera_key).
  unfold Demo.loopKey. rewrite Hdisp, Hctl.
  rewrite (decide_False (P := key = ord "q")), (decide_False (P := key = ord "m"))
    by done.
  simpl. rewrite Hc.
  pose proof (cameraKey_bound key c Hkey) as Hupd.
  destruct (Demo.cameraKey key c) as [c' update]. simpl in *. subst update.
  by rewrite _updateCameraConfigs_calls.
Qed.

Lemma camera_key_sends_update_witness :
  Demo.loopKey keyboardConf (ord "u")
    {| Demo._medianFilters := mk_cycle [MEDIAN_OFF];
       Demo._cameraConfig := Some tunedConfig; Demo.sdkCalls := [] |}
  = inr {| Demo._medianFilters := mk_cycle [MEDIAN_OFF];
           Demo._cameraConfig := Some (Demo.cameraKey (ord "u") tunedConfig).1;
           Demo.sdkCalls :=
             [] ++ cameraUpdates keyboardConf
                     (Demo.cameraKey (ord "u") tunedConfig).1 |}.
Proof.
  apply (camera_key_sends_update keyboardConf (ord "u")
           {| Demo._medianFilters := mk_cycle [MEDIAN_OFF];
              Demo._cameraConfig := Some tunedConfig; Demo.sdkCalls := [] |}
           tunedConfig).
  - reflexivity.
  - reflexivity.
  - reflexivity.
  - rewrite cameraKeys_codes. do 4 apply list_elem_of_further.
    apply list_elem_of_here.
Defined.

(** X4: below the upper bound an increment key followed by its decrement
    key gives the dictionary back.  For the exposure this holds from 1 on
    (the step from 1 to 500 is undone by the clamp at 1); the coupled entry
    must be set already, since the first key would set it. *)
Theorem increment_then_decrement (c : Demo.CameraConfig) :
  camInBounds c ->
  (forall e, Demo.exposure c = Some e -> e <= 32500 ->
     is_Some (Demo.sensitivity c) ->
     (Demo.cameraKey (ord "g") (Demo.cameraKey (ord "t") c).1).1 = c)
  /\ (forall s, Demo.sensitivity c = Some s -> s <= 1550 ->
        is_Some (Demo.exposure c) ->
        (Demo.cameraKey (ord "h") (Demo.cameraKey (ord "y") c).1).1 = c)
  /\ (forall v, Demo.saturation c = Some v -> v <= 9 ->
        (Demo.cameraKey (ord "j") (Demo.cameraKey (ord "u") c).1).1 = c)
  /\ (forall v, Demo.contrast c = Some v -> v <= 9 ->
        (Demo.cameraKey (ord "k") (Demo.cameraKey (ord "i") c).1).1 = c)
  /\ (forall v, Demo.brightness c = Some v -> v <= 9 ->
        (Demo.cameraKey (ord "l") (Demo.cameraKey (ord "o") c).1).1 = c)
  /\ (forall v, Demo.sharpness c = Some v -> v <= 3 ->
        (Demo.cameraKey (ord ";") (Demo.cameraKey (ord "p") c).1).1 = c).
Proof.
  destruct c as [e s sa co br sh]. unfold camInBounds. simpl.
  intros (He & Hs & Hsa & Hco & Hbr & Hsh).
  split_and!; intros v -> Hv; try intros [? ->];
    unfold Demo.cameraKey; key_codes; simpl; unfold Demo.if_none; simpl in *;
    repeat case_decide; simpl; repeat case_decide; simpl;
    unfold Demo.set_exposure, Demo.set_sensitivity, Demo.set_saturation,
      Demo.set_contrast, Demo.set_brightness, Demo.set_sharpness; simpl;
    repeat case_decide; f_equal; f_equal; lia.
Qed.

Lemma increment_then_decrement_witness :
  (Demo.cameraKey (ord "g") (Demo.cameraKey (ord "t") exposureOne).1).1
  = exposureOne
  /\ (Demo.cameraKey (ord "j") (Demo.cameraKey (ord "u") tunedConfig).1).1
     = tunedConfig.
Proof.
  split.
  - destruct (increment_then_decrement exposureOne exposureOne_inBounds)
      as (Hup & _).
    apply (Hup 1); [reflexivity|lia|by eexists].
  - assert (Hb : camInBounds tunedConfig) by (unfold camInBounds; simpl; lia).
    destruct (increment_then_decrement tunedConfig Hb) as (_ & _ & Hup & _).
    apply (Hup 0); [reflexivity|lia].
Defined.

Lemma cameraKey_onGrid key c :
  onGrid (Demo.exposure c) -> onGrid (Demo.exposure (Demo.cameraKey key c).1).
Proof.
  destruct c as [e s sa co br sh]. simpl. intros Hgrid.
  assert (Hdefault : onGrid (Some 10000)) by (right; exists 20; lia).
  unfold Demo.cameraKey.
  repeat (case_decide; [clear dependent key|]); simpl; unfold Demo.if_none;
    try (destruct s; simpl; fail "no");
    try done.
  - (* 't' *)
    assert (Hup : onGrid (Some match e with
                               | Some v => if decide (v = 1) then 500
                                           else Z.min (v + 500) 33000
                               | None => 10000
                               end)).
    { destruct e as [v|]; [|done]. case_decide; [right; exists 1; lia|].
      destruct Hgrid as [?|(k & Hk & ->)]; [done|]. right.
      destruct (decide (k <= 65)); [exists (k + 1)|exists 66]; lia. }
    by destruct s.
  - (* 'g' *)
    assert (Hdown : onGrid (Some match e with
                                 | Some v => Z.max (v - 500) 1
                                 | None => 10000
                                 end)).
    { destruct e as [v|]; [|done].
      destruct Hgrid as [->|(k & Hk & ->)]; [by left|].
      destruct (decide (k = 1)); [left|right; exists (k - 1)]; lia. }
    by destruct s.
  - by destruct e.
  - by destruct e.
Qed.

(** X5: the exposure that the keys produce is 1 or a multiple of 500 up to
    33000: starting from no exposure ([None]) or from such a value, it
    stays so through every sequence of keys that the loop processes. *)
Theorem exposure_stays_on_grid {A : Type} (conf : Demo.Conf) (keys : list Z)
    (d d' : Demo.Demo A) (c : Demo.CameraConfig) :
  Demo._cameraConfig d = Some c ->
  onGrid (Demo.exposure c) ->
  Demo.loopKeys conf keys d = inr d' ->
  exists c', Demo._cameraConfig d' = Some c' /\ onGrid (Demo.exposure c').
Proof.
  revert d c. induction keys as [|key keys IH]; intros d c Hc Hgrid; simpl.
  - intros [= <-]. by eauto.
  - destruct (Demo.loopKey conf key d) as [err|d1] eqn:Hd1; [done|]. simpl.
    apply (loopKey_cameraConfig _ _ _ _ _ Hc) in Hd1.
    apply (IH d1 _ Hd1).
    destruct (_ && _); [by apply cameraKey_onGrid|done].
Qed.

Lemma exposure_stays_on_grid_witness :
  exists c',
    Demo._cameraConfig
      {| Demo._medianFilters := mk_cycle [MEDIAN_OFF];
         Demo._cameraConfig := Some (Demo.cameraKey (ord "g") exposureOne).1;
         Demo.sdkCalls := cameraUpdates keyboardConf
                            (Demo.cameraKey (ord "g") exposureOne).1 |}
    = Some c' /\ onGrid (Demo.exposure c').
Proof.
  apply (exposure_stays_on_grid keyboardConf [ord "g"]
           {| Demo._medianFilters := mk_cycle [MEDIAN_OFF];
              Demo._cameraConfig := Some exposureOne; Demo.sdkCalls := [] |}
           _ exposureOne).
  - reflexivity.
  - left. reflexivity.
  - reflexivity.
Defined.

(** X6: a camera key leaves the entries other than its own as they are,
    with one exception in each direction: an exposure key sets a missing
    sensitivity to 800, and a sensitivity key sets a missing exposure to
    10000. *)
Theorem camera_key_keeps_other_entries (key : Z) (c : Demo.CameraConfig)
    (i n : nat) (x : option Z) :
  ownEntry key = Some i ->
  n ≠ i ->
  entries c !! n = Some x ->
  entries (Demo.cameraKey key c).1 !! n
  = Some (if decide (i = 0%nat /\ n = 1%nat /\ x = None) then Some 800
          else if decide (i = 1%nat /\ n = 0%nat /\ x = None) then Some 10000
          else x).
Proof.
  destruct c as [e s sa co br sh].
  unfold ownEntry. intros Hown Hn Hx.
  repeat (case_decide as Hkey;
          [injection Hown as <-;
           rewrite !elem_of_cons, elem_of_nil in Hkey;
           destruct Hkey as [->|[->|[]]]
          |clear Hkey]);
    try done;
    unfold Demo.cameraKey; key_codes; simpl;
    destruct n as [|[|[|[|[|[|n]]]]]]; try done; simpl in *; simplify_eq;
    repeat match goal with
           | |- context [match ?v with _ => _ end] => is_var v; destruct v
           end;
    simpl; repeat case_decide; try done;
    exfalso; intuition (try discriminate; try lia).
Qed.

Lemma camera_key_keeps_other_entries_witness :
  entries (Demo.cameraKey (ord "t") noCameraConfig).1 !! 1%nat
  = Some (if decide (0%nat = 0%nat /\ 1%nat = 1%nat /\ @None Z = None)
          then Some 800
          else if decide (0%nat = 1%nat /\ 1%nat = 0%nat /\ @None Z = None)
          then Some 10000
          else None).
Proof.
  apply (camera_key_keeps_other_entries (ord "t") noCameraConfig 0 1 None).
  - reflexivity.
  - lia.
  - reflexivity.
Defined.

(** The coupled entries, and one that is not: ['t'] sets a missing
    sensitivity and leaves a missing saturation missing. *)
Example exposure_key_on_empty_dictionary :
  entries (Demo.cameraKey (ord "t") noCameraConfig).1
  = [Some 10000; Some 800; None; None; None; None].
Proof. reflexivity. Qed.

(** ** The state that [run] hands to the loop *)

Lemma anySet_false (c : Demo.CameraConfig) :
  Run.anySet c = false
  <-> Forall (fun v => v = None \/ v = Some 0) (entries c).
Proof.
  unfold Run.anySet. fold (entries c).
  induction (entries c) as [|v l IH]; simpl.
  - split; [by constructor|done].
  - rewrite orb_false_iff, Forall_cons, IH.
    assert (match v with Some z => negb (z =? 0) | None => false end = false
            <-> v = None \/ v = Some 0) as ->; [|done].
    destruct v as [z|]; [|by intuition].
    rewrite negb_false_iff, Z.eqb_eq.
    split; [intros ->; by right|]. by intros [|[= ->]].
Qed.

(** The start-up scan ends within one pass when the configured filter is
    among the choices, and leaves a cycle over the choices. *)
Lemma seekMedian_ends {A : Type} `{EqDecision A} (l : list A) (current : A)
    (fuel : nat) :
  current ∈ l ->
  (length l <= fuel)%nat ->
  exists p,
    Demo.seekMedian fuel current (mk_cycle l) = Some (Cycle l p)
    /\ (p < length l)%nat.
Proof.
  intros [i Hpos]%position_elem_of Hfuel.
  apply position_Some in Hpos as [Hi Hfirst].
  assert (Hlen : (i < length l)%nat) by (by eapply lookup_lt_Some).
  exists (S i mod length l)%nat. split.
  - apply seekMedian_found; [done..|lia|lia].
  - apply Nat.mod_upper_bound. lia.
Qed.

(** X7: with a camera and the configured median filter among the choices,
    [run] gets through its start-up scan, stores the settings of the
    command line and sends them at once to every enabled camera, unless
    each of them is missing or zero: then nothing is sent, also when a
    zero was asked for. *)
Theorem run_sends_command_line_settings {A : Type} `{EqDecision A}
    (fuel : nat) (members : list (string * A)) (current : A)
    (conf : Demo.Conf) (args : Demo.CameraConfig) :
  current ∈ Demo.medianChoices members ->
  (length (Demo.medianChoices members) <= fuel)%nat ->
  exists d,
    Run.start fuel members current conf true args = Some d
    /\ Demo._cameraConfig d = Some args
    /\ (Forall (fun v => v = None \/ v = Some 0) (entries args) ->
        Demo.sdkCalls d = [])
    /\ (~ Forall (fun v => v = None \/ v = Some 0) (entries args) ->
        Demo.sdkCalls d = cameraUpdates conf args).
Proof.
  intros Hin Hfuel.
  destruct (seekMedian_ends _ current fuel Hin Hfuel) as (p & Hscan & _).
  unfold Run.start. rewrite Hscan.
  eexists. split; [reflexivity|]. rewrite <- anySet_false.
  destruct (Run.anySet args).
  - rewrite _updateCameraConfigs_calls. simpl.
    split; [|split]; [|done|done].
    unfold Demo._updateCameraConfigs, Demo.call.
    by destruct (Demo.leftCameraEnabled conf), (Demo.rightCameraEnabled conf),
      (Demo.rgbCameraEnabled conf).
  - simpl. split; [done|]. split; [done|]. by intros [].
Qed.

Lemma run_sends_command_line_settings_witness :
  exists d : Demo.Demo attribute,
    Run.start 4 vars_MedianFilter (Member KERNEL_5x5) keyboardConf true
      tunedConfig = Some d
    /\ Demo._cameraConfig d = Some tunedConfig
    /\ (Forall (fun v => v = None \/ v = Some 0) (entries tunedConfig) ->
        Demo.sdkCalls d = [])
    /\ (~ Forall (fun v => v = None \/ v = Some 0) (entries tunedConfig) ->
        Demo.sdkCalls d = cameraUpdates keyboardConf tunedConfig).
Proof.
  apply (run_sends_command_line_settings 4 vars_MedianFilter
           (Member KERNEL_5x5) keyboardConf tunedConfig).
  - simpl. do 2 apply list_elem_of_further. apply list_elem_of_here.
  - simpl. lia.
Defined.

(** A brightness of 0 asked for on the command line is not sent; the
    settings of [tunedConfig] go to the three cameras. *)
Example start_settings :
  (Demo.sdkCalls <$> Run.start 4 vars_MedianFilter (Member KERNEL_5x5)
                       keyboardConf true zeroBrightness) = Some []
  /\ (Demo.sdkCalls <$> Run.start 4 vars_MedianFilter (Member KERNEL_5x5)
                          keyboardConf true tunedConfig)
     = Some [Demo.UpdateLeftCamConfig tunedConfig;
             Demo.UpdateRightCamConfig tunedConfig;
             Demo.UpdateColorCamConfig tunedConfig].
Proof. split; reflexivity. Qed.

(** X8: when the input is a video and the configured median filter is
    among the choices, [run] gets through its start-up scan without ever
    creating the dictionary and without sending camera settings; in the
    loop, with frames displayed and the camera controls on, the first
    camera key ends the loop with an [AttributeError], whatever keys other
    than ['q'] were pressed before it. *)
Theorem camera_key_on_video_raises {A : Type} `{EqDecision A}
    (fuel : nat) (members : list (string * A)) (current : A)
    (conf : Demo.Conf) (args : Demo.CameraConfig) :
  current ∈ Demo.medianChoices members ->
  (length (Demo.medianChoices members) <= fuel)%nat ->
  exists d,
    Run.start fuel members current conf false args = Some d
    /\ Demo._cameraConfig d = None
    /\ Demo.sdkCalls d = []
    /\ (Demo.displayFrames conf = true -> Demo.cameraControlls conf = true ->
        forall keys1 key keys2,
          Forall (fun k => k ≠ ord "q" /\ k ∉ Demo.cameraKeys) keys1 ->
          key ∈ Demo.cameraKeys ->
          Demo.loopKeys conf (keys1 ++ key :: keys2) d = inl AttributeError).
Proof.
  intros Hin Hfuel.
  destruct (seekMedian_ends _ current fuel Hin Hfuel) as (p & Hscan & Hp).
  unfold Run.start. rewrite Hscan.
  eexists. split; [reflexivity|]. split; [done|]. split; [done|].
  intros Hdisp Hctl keys1 key keys2 Hkeys1 Hkey.
  rewrite loopKeys_app.
  destruct (loopKeys_run conf keys1
              {| Demo._medianFilters := Cycle (Demo.medianChoices members) p;
                 Demo._cameraConfig := None; Demo.sdkCalls := [] |}
              (Demo.medianChoices members) p Hdisp eq_refl Hp) as [Hgo _].
  destruct Hgo as (d1 & Hd1 & _ & Hnone & p1 & Hcyc1 & Hp1).
  { eapply Forall_impl; [exact Hkeys1|]. by intros k [? _]. }
  { intros _ _. eapply Forall_impl; [exact Hkeys1|]. by intros k [_ ?]. }
  rewrite Hd1. simpl.
  destruct (loopKey_run conf key d1 _ p1 Hdisp Hcyc1 Hp1) as (_ & Hraise & _).
  rewrite Hraise; [done|done|by apply Hnone|done].
Qed.

Lemma camera_key_on_video_raises_witness :
  exists d : Demo.Demo attribute,
    Run.start 4 vars_MedianFilter (Member KERNEL_5x5) keyboardConf false
      noCameraConfig = Some d
    /\ Demo._cameraConfig d = None
    /\ Demo.sdkCalls d = []
    /\ (Demo.displayFrames keyboardConf = true ->
        Demo.cameraControlls keyboardConf = true ->
        forall keys1 key keys2,
          Forall (fun k => k ≠ ord "q" /\ k ∉ Demo.cameraKeys) keys1 ->
          key ∈ Demo.cameraKeys ->
          Demo.loopKeys keyboardConf (keys1 ++ key :: keys2) d
          = inl AttributeError).
Proof.
  apply (camera_key_on_video_raises 4 vars_MedianFilter
           (Member KERNEL_5x5) keyboardConf noCameraConfig).
  - simpl. do 2 apply list_elem_of_further. apply list_elem_of_here.
  - simpl. lia.
Defined.

Example camera_key_after_median_keys :
  Demo.loopKeys keyboardConf [ord "m"; -1; ord "t"; ord "m"]
    <$> Run.start 4 vars_MedianFilter (Member KERNEL_5x5)
          keyboardConf false noCameraConfig
  = Some (inl AttributeError).
Proof. reflexivity. Qed.

(** ** Where the keys leave the cycle of filters *)

Lemma presses_cons key k keys :
  presses key (k :: keys)
  = ((if decide (k = key) then 1 else 0) + presses key keys)%nat.
Proof. unfold presses. rewrite filter_cons. by case_decide. Qed.

(** X9: the keys never change the list of choices of the cycle, and they
    move its cursor by the number of ['m'] presses, counted modulo the
    number of choices: as many presses as there are choices, or a multiple
    of them, bring the cycle back to where it was. *)
Theorem median_keys_move_cursor {A : Type} (conf : Demo.Conf)
    (keys : list Z) (d : Demo.Demo A) (l : list A) (p : nat) :
  Demo.displayFrames conf = true ->
  Forall (fun key => key ≠ ord "q") keys ->
  (Demo.cameraControlls conf = true -> is_Some (Demo._cameraConfig d)) ->
  Demo._medianFilters d = Cycle l p ->
  (p < length l)%nat ->
  exists d',
    Demo.loopKeys conf keys d = inr d'
    /\ Demo._medianFilters d'
       = Cycle l ((p + presses (ord "m") keys) mod length l)%nat
    /\ ((presses (ord "m") keys mod length l = 0)%nat ->
        Demo._medianFilters d' = Demo._medianFilters d).
Proof.
  intros Hdisp Hkeys Hcam Hcyc Hp.
  assert (exists d',
    Demo.loopKeys conf keys d = inr d'
    /\ Demo._medianFilters d'
       = Cycle l ((p + presses (ord "m") keys) mod length l)%nat)
    as (d' & Hd' & Hcyc').
  { revert d p Hkeys Hcam Hcyc Hp.
    induction keys as [|key keys IH]; intros d p Hkeys Hcam Hcyc Hp.
    - exists d. split; [done|].
      unfold presses. simpl. by rewrite Nat.add_0_r, Nat.mod_small.
    - apply Forall_cons in Hkeys as [Hq Hkeys].
      destruct (loopKey_medians conf key d l p Hdisp Hq Hcam Hcyc Hp)
        as (d1 & Hd1 & Hcam1 & Hcyc1 & _).
      assert (Hp1 : ((if decide (key = ord "m") then (S p mod length l)%nat
                      else p) < length l)%nat).
      { case_decide; [apply Nat.mod_upper_bound; lia|done]. }
      destruct (IH d1 _ Hkeys (fun Hc => Hcam1 (Hcam Hc)) Hcyc1 Hp1)
        as (d' & Hd' & Hcyc').
      exists d'. split; [simpl; by rewrite Hd1|].
      rewrite Hcyc', presses_cons. f_equal.
      case_decide.
      + rewrite Nat.Div0.add_mod_idemp_l. f_equal. lia.
      + done. }
  exists d'. split; [done|]. split; [done|].
  intros Hperiod. rewrite Hcyc', Hcyc. f_equal.
  rewrite <- Nat.Div0.add_mod_idemp_r, Hperiod, Nat.add_0_r.
  by apply Nat.mod_small.
Qed.

Lemma median_keys_move_cursor_witness :
  exists d',
    Demo.loopKeys keyboardConf [ord "m"; -1; ord "m"; ord "t"; ord "m"; ord "m"]
      {| Demo._medianFilters := Cycle (Demo.medianChoices vars_MedianFilter) 3;
         Demo._cameraConfig := Some noCameraConfig; Demo.sdkCalls := [] |}
    = inr d'
    /\ Demo._medianFilters d'
       = Cycle (Demo.medianChoices vars_MedianFilter) 3.
Proof.
  destruct (median_keys_move_cursor keyboardConf
              [ord "m"; -1; ord "m"; ord "t"; ord "m"; ord "m"]
              {| Demo._medianFilters :=
                   Cycle (Demo.medianChoices vars_MedianFilter) 3;
                 Demo._cameraConfig := Some noCameraConfig;
                 Demo.sdkCalls := [] |}
              (Demo.medianChoices vars_MedianFilter) 3)
    as (d' & Hd' & _ & Hback).
  - reflexivity.
  - repeat constructor; discriminate.
  - intros _. by eexists.
  - reflexivity.
  - simpl. lia.
  - exists d'. split; [exact Hd'|]. apply Hback. reflexivity.
Defined.

(** ** A trackbar that exists in one window only *)

Lemma changeEvent_single (s : Trackbars.World) (name w : string) (d value : Z)
    (fuel : nat) :
  Trackbars.instances s !! name = Some [(w, d)] ->
  Trackbars.changeEvent (S fuel) name w value s
  = Some (inr (if decide (d ≠ value)
               then Trackbars.callback name w value
                      (Trackbars.set_displayed name w value s)
               else Trackbars.set_displayed name w value s)).
Proof.
  intros Hname. unfold Trackbars.changeEvent. rewrite fn_unfold.
  unfold Trackbars.stored at 1. simpl. rewrite Hname. simpl.
  rewrite decide_True by done.
  assert (Hloop : forall s0,
    Trackbars.instances s0 !! name = Some [(w, d)] ->
    Trackbars.forEach (body fuel name w value) (Trackbars.windows s0 name) s0
    = Some (inr s0)).
  { intros s0 Hs0. unfold Trackbars.windows. rewrite Hs0. simpl.
    unfold body, Trackbars.stored. rewrite Hs0. simpl.
    rewrite decide_True by done. rewrite decide_False; [done|].
    by intros [? _]. }
  case_decide; by rewrite Hloop.
Qed.

(** X10: while a trackbar name has one window only, the value stored for
    it stays the default it was created with, whatever the slider is moved
    to; so the user callback runs for each value that differs from that
    default and never for the default itself, also when the slider comes
    back to it from another value. *)
Theorem single_window_notifies_unless_default (name w : string) (d : Z)
    (fuel : nat) (values : list Z) (s : Trackbars.World) :
  Trackbars.instances s !! name = Some [(w, d)] ->
  exists s',
    Trackbars.forEach (Trackbars.changeEvent (S fuel) name w) values s
    = Some (inr s')
    /\ Trackbars.instances s' !! name = Some [(w, d)]
    /\ Trackbars.displayed s' name w
       = from_option Some (Trackbars.displayed s name w) (last values)
    /\ Trackbars.callbackLog s'
       = Trackbars.callbackLog s
         ++ ((fun v => (name, w, v)) <$> filter (fun v => v ≠ d) values).
Proof.
  revert s. induction values as [|v values IH]; intros s Hname.
  - exists s. simpl. by rewrite app_nil_r.
  - simpl. rewrite (changeEvent_single _ _ _ d) by done.
    match goal with
    | |- context [Trackbars.forEach _ values ?s1] =>
        destruct (IH s1) as (s' & Hs' & Hname' & Hshown & Hlog)
    end.
    { by case_decide. }
    exists s'. split; [exact Hs'|]. split; [exact Hname'|]. split.
    + rewrite Hshown. destruct values as [|v' values]; simpl.
      * case_decide; unfold Trackbars.displayed; simpl;
          by rewrite lookup_insert_eq.
      * destruct (proj2 (last_is_Some (v' :: values))) as [x ->]; done.
    + rewrite Hlog, filter_cons.
      destruct (decide (d ≠ v)) as [Hd|Hd].
      * rewrite decide_True by (intros ->; by apply Hd).
        simpl. by rewrite <- app_assoc.
      * rewrite decide_False by (intros Hv; apply Hd; by intros ->).
        done.
Qed.

Lemma single_window_notifies_unless_default_witness :
  exists s',
    Trackbars.forEach (Trackbars.changeEvent 1 "Bilateral sigma" "depth")
      [10; 0; 0; 20] demoWindows = Some (inr s')
    /\ Trackbars.instances s' !! "Bilateral sigma" = Some [("depth", 0)]
    /\ Trackbars.displayed s' "Bilateral sigma" "depth"
       = from_option Some
           (Trackbars.displayed demoWindows "Bilateral sigma" "depth")
           (last [10; 0; 0; 20])
    /\ Trackbars.callbackLog s'
       = Trackbars.callbackLog demoWindows
         ++ ((fun v => ("Bilateral sigma", "depth", v))
               <$> filter (fun v => v ≠ 0) [10; 0; 0; 20]).
Proof.
  apply (single_window_notifies_unless_default "Bilateral sigma" "depth" 0 0
           [10; 0; 0; 20] demoWindows).
  reflexivity.
Defined.

(** ** The trackbars that the queues get *)

Section TrackbarWindows.

Import Trackbars QueueCallback.
Implicit Types (s : World) (name w o : string) (value u d : Z) (c : Conf).

Lemma windows_set_stored_other s name w value name' :
  name' ≠ name -> windows (set_stored name w value s) name' = windows s name'.
Proof. intros Hne. unfold windows, set_stored. simpl. by rewrite lookup_insert_ne. Qed.

(** A handler registers no window and drops none. *)
Lemma fn_windows fuel : forall name w v s s',
  fn fuel name w v s = Some (inr s') ->
  forall name', windows s' name' = windows s name'.
Proof.
  induction fuel as [|fuel IH]; intros name w v s s' Hrun name'; [done|].
  rewrite fn_unfold in Hrun.
  destruct (stored s name w) as [own|]; [|done].
  simpl in Hrun.
  assert (Hloop : forall l s0 s1,
    forEach (body fuel name w v) l s0 = Some (inr s1) ->
    windows s1 name' = windows s0 name').
  { induction l as [|o l IHl]; intros s0 s1; simpl.
    - by intros [= <-].
    - destruct (body fuel name w v o s0) as [[e|s2]|] eqn:Hbody; [done| |done].
      intros Hrest. rewrite (IHl _ _ Hrest).
      unfold body in Hbody.
      destruct (stored s0 name o) as [prev|] eqn:Hprev;
        [|by injection Hbody as <-].
      case_decide; [|by injection Hbody as <-].
      unfold setTrackbarPos in Hbody.
      assert (Hset : windows (set_stored name o v s0) name' = windows s0 name').
      { destruct (decide (name' = name)) as [->|Hne].
        - apply windows_set_stored. apply elem_of_windows. by eexists.
        - by apply windows_set_stored_other. }
      destruct (displayed _ name o) as [pos|]; [|by injection Hbody as <-].
      case_decide; [by injection Hbody as <-|].
      rewrite (IH _ _ _ _ _ Hbody name'). exact Hset. }
  rewrite (Hloop _ _ _ Hrun). by case_decide.
Qed.

Lemma createTrackbar_windows fuel name w lo hi d s s' :
  createTrackbar fuel name w lo hi d s = Some (inr s') ->
  forall name' o,
    o ∈ windows s' name' <-> (name' = name /\ o = w) \/ o ∈ windows s name'.
Proof.
  intros Hrun name' o.
  assert (Hs2 : o ∈ windows (set_stored name w d (set_displayed name w lo s)) name'
                <-> (name' = name /\ o = w) \/ o ∈ windows s name').
  { destruct (decide (name' = name)) as [->|Hne].
    - rewrite elem_of_windows_set_stored. by intuition.
    - rewrite windows_set_stored_other by done.
      change (windows (set_displayed name w lo s) name') with (windows s name').
      by intuition. }
  unfold createTrackbar, setTrackbarPos in Hrun.
  destruct (displayed _ name w) as [pos|]; [|by injection Hrun as <-].
  case_decide; [by injection Hrun as <-|].
  by rewrite (fn_windows _ _ _ _ _ _ Hrun name').
Qed.

(** A creation at the common default makes no callback, whatever the fuel
    it ended with. *)
Lemma createTrackbar_quiet name w lo hi d fuel s s' :
  mirrored name d s ->
  createTrackbar fuel name w lo hi d s = Some (inr s') ->
  callbackLog s' = callbackLog s.
Proof.
  intros Hmir Hrun.
  destruct (createTrackbar_spec name w lo hi d
              (fuel + S (S (length (windows s name)))) s Hmir)
    as (s'' & Hrun' & _ & _ & Hlog); [lia|].
  apply (createTrackbar_mono _ (fuel + S (S (length (windows s name))))) in Hrun;
    [|lia].
  rewrite Hrun in Hrun'. by injection Hrun' as <-.
Qed.

(** What one call of [_createQueueCallback] does to a state in which every
    trackbar is at the default of its name. *)
Lemma _createQueueCallback_post c fuel queueName s :
  (forall name, mirrored name (defaultOf c name) s) ->
  (forall name,
     name ∈ ["Disparity confidence"; "Bilateral sigma"; "LR-check threshold"] ->
     (S (length (windows s name)) < fuel)%nat) ->
  exists s',
    _createQueueCallback fuel c queueName s = Some (inr s')
    /\ callbackLog s' = callbackLog s
    /\ (forall name, mirrored name (defaultOf c name) s')
    /\ forall name o,
         o ∈ windows s' name
         <-> o ∈ windows s name
             \/ (o = queueName
                 /\ displayFrames c = true
                 /\ queueName ∈ ["disparityColor"; "disparity"; "depth"; "depthRaw"]
                 /\ (name = "Disparity confidence"
                     \/ (name = "Bilateral sigma"
                         /\ queueName ∈ ["depthRaw"; "depth"])
                     \/ (name = "LR-check threshold"
                         /\ stereoLrCheck c = true))).
Proof.
  intros Hall Hfuel.
  assert (Hone : forall name lo hi s1,
    (forall name', mirrored name' (defaultOf c name') s1) ->
    (S (length (windows s1 name)) < fuel)%nat ->
    exists s2,
      createTrackbar fuel name queueName lo hi (defaultOf c name) s1
      = Some (inr s2)
      /\ callbackLog s2 = callbackLog s1
      /\ (forall name', mirrored name' (defaultOf c name') s2)
      /\ forall name' o,
           o ∈ windows s2 name'
           <-> (name' = name /\ o = queueName) \/ o ∈ windows s1 name').
  { intros name lo hi s1 Hall1 Hfuel1.
    destruct (createTrackbar_spec name queueName lo hi (defaultOf c name)
                fuel s1 (Hall1 name) Hfuel1) as (s2 & Hrun & _ & _ & Hlog).
    exists s2. split; [done|]. split; [done|]. split.
    - by apply (createTrackbar_defaults c name queueName lo hi fuel s1).
    - by apply (createTrackbar_windows fuel name queueName lo hi
                  (defaultOf c name) s1). }
  unfold _createQueueCallback.
  destruct (displayFrames c); simpl;
    [|exists s; split_and!; [done..|]; intros name o; by intuition].
  case_bool_decide as Hqueue;
    [|exists s; split_and!; [done..|]; intros name o; by intuition].
  destruct (Hone "Disparity confidence" (DISP_CONF_MIN c) (DISP_CONF_MAX c)
              s Hall) as (s1 & Hrun1 & Hlog1 & Hall1 & Hwin1).
  { apply Hfuel. rewrite !elem_of_cons. by auto. }
  change (disparityConfidenceThreshold c)
    with (defaultOf c "Disparity confidence").
  rewrite Hrun1. unfold andThen at 1.
  assert (Hsame1 : forall name, name ≠ "Disparity confidence" ->
            windows s1 name = windows s name).
  { intros name Hne.
    destruct (createTrackbar_mirrored _ _ _ _ _ _ _ _
                (Hall "Disparity confidence") Hrun1) as [_ Hfr].
    by apply (frame_windows "Disparity confidence"). }
  assert (exists s2,
    (if bool_decide (queueName ∈ ["depthRaw"; "depth"]) then
       createTrackbar fuel "Bilateral sigma" queueName
         (SIGMA_MIN c) (SIGMA_MAX c) (sigma c) s1
     else Some (ret s1)) = Some (inr s2)
    /\ callbackLog s2 = callbackLog s1
    /\ (forall name, mirrored name (defaultOf c name) s2)
    /\ (forall name, name ≠ "Bilateral sigma" -> windows s2 name = windows s1 name)
    /\ forall name o,
         o ∈ windows s2 name
         <-> (name = "Bilateral sigma" /\ o = queueName
              /\ queueName ∈ ["depthRaw"; "depth"])
             \/ o ∈ windows s1 name)
    as (s2 & Hrun2 & Hlog2 & Hall2 & Hsame2 & Hwin2).
  { case_bool_decide as Hsigma.
    - destruct (Hone "Bilateral sigma" (SIGMA_MIN c) (SIGMA_MAX c) s1 Hall1)
        as (s2 & Hrun2 & Hlog2 & Hall2 & Hwin2).
      { rewrite Hsame1 by done. apply Hfuel. rewrite !elem_of_cons. by auto. }
      exists s2. split; [exact Hrun2|]. split; [done|]. split; [done|]. split.
      + intros name Hne.
        destruct (createTrackbar_mirrored _ _ _ _ _ _ _ _
                    (Hall1 "Bilateral sigma") Hrun2) as [_ Hfr].
        by apply (frame_windows "Bilateral sigma").
      + intros name o. rewrite Hwin2. by intuition.
    - exists s1. split_and!; [done..|]. intros name o. by intuition. }
  rewrite Hrun2. unfold andThen.
  assert (exists s3,
    (if stereoLrCheck c then
       createTrackbar fuel "LR-check threshold" queueName
         (LRCT_MIN c) (LRCT_MAX c) (lrcThreshold c) s2
     else Some (ret s2)) = Some (inr s3)
    /\ callbackLog s3 = callbackLog s2
    /\ (forall name, mirrored name (defaultOf c name) s3)
    /\ forall name o,
         o ∈ windows s3 name
         <-> (name = "LR-check threshold" /\ o = queueName
              /\ stereoLrCheck c = true)
             \/ o ∈ windows s2 name)
    as (s3 & Hrun3 & Hlog3 & Hall3 & Hwin3).
  { destruct (stereoLrCheck c).
    - destruct (Hone "LR-check threshold" (LRCT_MIN c) (LRCT_MAX c) s2 Hall2)
        as (s3 & Hrun3 & Hlog3 & Hall3 & Hwin3).
      { rewrite Hsame2, Hsame1 by done. apply Hfuel. rewrite !elem_of_cons. by auto. }
      exists s3. split; [exact Hrun3|]. split; [done|]. split; [done|].
      intros name o. rewrite Hwin3. by intuition.
    - exists s2. split_and!; [done..|]. intros name o. by intuition. }
  exists s3. split; [exact Hrun3|]. split; [congruence|]. split; [done|].
  intros name o. rewrite Hwin3, Hwin2, Hwin1. by intuition.
Qed.

Lemma _createQueueCallback_mono fuel fuel' c queueName s r :
  (fuel <= fuel')%nat ->
  _createQueueCallback fuel c queueName s = Some r ->
  _createQueueCallback fuel' c queueName s = Some r.
Proof.
  intros Hle. unfold _createQueueCallback.
  destruct (_ && _); [|done].
  destruct (createTrackbar fuel "Disparity confidence" queueName _ _ _ s)
    as [r1|] eqn:Hrun1; [|done].
  rewrite (createTrackbar_mono _ _ _ _ _ _ _ _ _ Hle Hrun1).
  destruct r1 as [e|s1]; [done|]. unfold andThen at 1 3.
  destruct (bool_decide (queueName ∈ ["depthRaw"; "depth"])).
  - destruct (createTrackbar fuel "Bilateral sigma" queueName _ _ _ s1)
      as [r2|] eqn:Hrun2; [|done].
    rewrite (createTrackbar_mono _ _ _ _ _ _ _ _ _ Hle Hrun2).
    destruct r2 as [e|s2]; [done|]. unfold andThen.
    destruct (stereoLrCheck c); [|done].
    by apply createTrackbar_mono.
  - unfold andThen. destruct (stereoLrCheck c); [|done].
    by apply createTrackbar_mono.
Qed.

End TrackbarWindows.

Lemma depthWindow_created :
  QueueCallback.created demoConf (afterQueues demoConf ["depth"]).
Proof.
  apply (QueueCallback.created_queue demoConf Trackbars.empty
           (afterQueues demoConf ["depth"]) 8 "depth").
  - apply QueueCallback.created_empty.
  - vm_compute. reflexivity.
Qed.

(** X11: while the queues are created, [_createQueueCallback] returns for
    every queue name, makes no user callback, and registers the window
    under exactly these names: nothing unless frames are displayed and the
    queue is a disparity or depth one; then "Disparity confidence", for
    the two depth queues "Bilateral sigma" as well, and with the LR check
    "LR-check threshold". *)
Theorem queue_callback_registers_quietly (c : QueueCallback.Conf)
    (s : Trackbars.World) (fuel : nat) (queueName : string) :
  QueueCallback.created c s ->
  (forall name,
     name ∈ ["Disparity confidence"; "Bilateral sigma"; "LR-check threshold"] ->
     (S (length (Trackbars.windows s name)) < fuel)%nat) ->
  exists s',
    QueueCallback._createQueueCallback fuel c queueName s = Some (inr s')
    /\ Trackbars.callbackLog s' = Trackbars.callbackLog s
    /\ forall name o,
         o ∈ Trackbars.windows s' name
         <-> o ∈ Trackbars.windows s name
             \/ (o = queueName
                 /\ QueueCallback.displayFrames c = true
                 /\ queueName ∈ ["disparityColor"; "disparity"; "depth"; "depthRaw"]
                 /\ (name = "Disparity confidence"
                     \/ (name = "Bilateral sigma"
                         /\ queueName ∈ ["depthRaw"; "depth"])
                     \/ (name = "LR-check threshold"
                         /\ QueueCallback.stereoLrCheck c = true))).
Proof.
  intros Hcreated Hfuel.
  destruct (_createQueueCallback_post c fuel queueName s
              (created_defaults c s Hcreated) Hfuel)
    as (s' & Hrun & Hlog & _ & Hwin).
  by exists s'.
Qed.

Lemma queue_callback_registers_quietly_witness :
  exists s',
    QueueCallback._createQueueCallback 8 demoConf "disparity"
      (afterQueues demoConf ["depth"]) = Some (inr s')
    /\ Trackbars.callbackLog s'
       = Trackbars.callbackLog (afterQueues demoConf ["depth"])
    /\ forall name o,
         o ∈ Trackbars.windows s' name
         <-> o ∈ Trackbars.windows (afterQueues demoConf ["depth"]) name
             \/ (o = "disparity"
                 /\ QueueCallback.displayFrames demoConf = true
                 /\ "disparity" ∈ ["disparityColor"; "disparity"; "depth"; "depthRaw"]
                 /\ (name = "Disparity confidence"
                     \/ (name = "Bilateral sigma"
                         /\ "disparity" ∈ ["depthRaw"; "depth"])
                     \/ (name = "LR-check threshold"
                         /\ QueueCallback.stereoLrCheck demoConf = true))).
Proof.
  apply (queue_callback_registers_quietly demoConf
           (afterQueues demoConf ["depth"]) 8 "disparity").
  - exact depthWindow_created.
  - intros name Hname.
    apply elem_of_cons in Hname as [->|Hname]; [vm_compute; lia|].
    apply elem_of_cons in Hname as [->|Hname]; [vm_compute; lia|].
    apply elem_of_cons in Hname as [->|Hname]; [vm_compute; lia|].
    by apply elem_of_nil in Hname.
Defined.

(** X12: once the queues are created no user callback has run, and every
    trackbar that exists stores and shows the default of its name; the
    trackbars exist only with frames displayed, only in the windows of
    the disparity and depth queues, "Bilateral sigma" only in those of the
    two depth queues and "LR-check threshold" only with the LR check. *)
Theorem created_trackbars_at_defaults (c : QueueCallback.Conf)
    (s : Trackbars.World) :
  QueueCallback.created c s ->
  Trackbars.callbackLog s = []
  /\ forall name o,
       o ∈ Trackbars.windows s name ->
       Trackbars.stored s name o = Some (QueueCallback.defaultOf c name)
       /\ Trackbars.displayed s name o = Some (QueueCallback.defaultOf c name)
       /\ QueueCallback.displayFrames c = true
       /\ o ∈ ["disparityColor"; "disparity"; "depth"; "depthRaw"]
       /\ (name = "Disparity confidence"
           \/ (name = "Bilateral sigma" /\ o ∈ ["depthRaw"; "depth"])
           \/ (name = "LR-check threshold"
               /\ QueueCallback.stereoLrCheck c = true)).
Proof.
  intros Hcreated.
  assert (Hshape : Trackbars.callbackLog s = []
    /\ forall name o,
         o ∈ Trackbars.windows s name ->
         QueueCallback.displayFrames c = true
         /\ o ∈ ["disparityColor"; "disparity"; "depth"; "depthRaw"]
         /\ (name = "Disparity confidence"
             \/ (name = "Bilateral sigma" /\ o ∈ ["depthRaw"; "depth"])
             \/ (name = "LR-check threshold"
                 /\ QueueCallback.stereoLrCheck c = true))).
  { induction Hcreated as [|s s' fuel queueName Hcreated [IHlog IHwin] Hrun].
    - split; [done|]. intros name o Ho. by apply elem_of_nil in Ho.
    - set (fuel' := (fuel
                     + S (S (length (Trackbars.windows s "Disparity confidence")
                             + length (Trackbars.windows s "Bilateral sigma")
                             + length (Trackbars.windows s "LR-check threshold"))))%nat).
      destruct (_createQueueCallback_post c fuel' queueName s
                  (created_defaults c s Hcreated))
        as (s'' & Hrun' & Hlog & _ & Hwin).
      { intros name Hname. subst fuel'.
        apply elem_of_cons in Hname as [->|Hname]; [lia|].
        apply elem_of_cons in Hname as [->|Hname]; [lia|].
        apply elem_of_cons in Hname as [->|Hname]; [lia|].
        by apply elem_of_nil in Hname. }
      apply (_createQueueCallback_mono fuel fuel') in Hrun; [|subst fuel'; lia].
      rewrite Hrun in Hrun'. injection Hrun' as <-.
      split; [congruence|].
      intros name o [Ho|(-> & Hdisp & Hqueue & Hname)]%Hwin; [by apply IHwin|].
      done. }
  destruct Hshape as [Hlog Hwin]. split; [done|].
  intros name o Ho.
  destruct (created_defaults c s Hcreated name o Ho) as [Hst Hsh].
  destruct (Hwin name o Ho) as (? & ? & ?). done.
Qed.

Lemma created_trackbars_at_defaults_witness :
  Trackbars.callbackLog demoWindows = []
  /\ forall name o,
       o ∈ Trackbars.windows demoWindows name ->
       Trackbars.stored demoWindows name o
       = Some (QueueCallback.defaultOf demoConf name)
       /\ Trackbars.displayed demoWindows name o
          = Some (QueueCallback.defaultOf demoConf name)
       /\ QueueCallback.displayFrames demoConf = true
       /\ o ∈ ["disparityColor"; "disparity"; "depth"; "depthRaw"]
       /\ (name = "Disparity confidence"
           \/ (name = "Bilateral sigma" /\ o ∈ ["depthRaw"; "depth"])
           \/ (name = "LR-check threshold"
               /\ QueueCallback.stereoLrCheck demoConf = true)).
Proof.
  apply (created_trackbars_at_defaults demoConf demoWindows).
  apply (QueueCallback.created_queue demoConf (afterQueues demoConf ["depth"])
           demoWindows 8 "disparity").
  - exact depthWindow_created.
  - vm_compute. reflexivity.
Defined.

(** X13: moving a slider touches the trackbars of its own name only: the
    values stored and shown under every other name are as before, and no
    window is registered or dropped under any name. *)
Theorem trackbar_change_keeps_other_names (c : QueueCallback.Conf)
    (s : Trackbars.World) (name w : string) (value : Z) (fuel : nat) :
  QueueCallback.running c s ->
  w ∈ Trackbars.windows s name ->
  (length (Trackbars.windows s name) < fuel)%nat ->
  exists s',
    Trackbars.changeEvent fuel name w value s = Some (inr s')
    /\ (forall name', Trackbars.windows s' name' = Trackbars.windows s name')
    /\ forall name' o, name' ≠ name ->
         Trackbars.stored s' name' o = Trackbars.stored s name' o
         /\ Trackbars.displayed s' name' o = Trackbars.displayed s name' o.
Proof.
  intros Hrunning Hw Hfuel.
  destruct (changeEvent_spec name w value fuel s Hw) as (s' & Hrun & Hstep);
    [|done|].
  { by apply settled_in_sync; [apply (running_settled c)|]. }
  exists s'. split; [done|]. split.
  - intros name'. unfold Trackbars.changeEvent in Hrun.
    by rewrite (fn_windows _ _ _ _ _ _ Hrun name').
  - intros name' o Hne. destruct (step_frame _ _ _ _ _ _ _ Hstep name' Hne)
      as [Hinst Hshown].
    split.
    + unfold Trackbars.stored. by rewrite Hinst.
    + rewrite Hshown. rewrite displayed_set_displayed.
      rewrite decide_False; [done|]. intros [= -> _]. done.
Qed.

Lemma trackbar_change_keeps_other_names_witness :
  exists s',
    Trackbars.changeEvent 3 "Disparity confidence" "depth" 200 demoWindows
    = Some (inr s')
    /\ (forall name',
          Trackbars.windows s' name' = Trackbars.windows demoWindows name')
    /\ forall name' o, name' ≠ "Disparity confidence" ->
         Trackbars.stored s' name' o = Trackbars.stored demoWindows name' o
         /\ Trackbars.displayed s' name' o
            = Trackbars.displayed demoWindows name' o.
Proof.
  apply (trackbar_change_keeps_other_names demoConf demoWindows
           "Disparity confidence" "depth" 200 3).
  - exact demoWindows_running.
  - vm_compute. apply list_elem_of_here.
  - vm_compute. lia.
Defined.

(** ** The report with a callback *)

Section ReportCallback.

Context {Val : Type} (str : Val -> string).
Context (onReport : PyDict.dict string Val -> PyDict.dict string Val).
Implicit Types (info : Report.SystemInformation Val) (report : list string).

Lemma _printSysInfo_callback reportFile report info (f : string) :
  truthy reportFile = true ->
  Report._printSysInfo Val str onReport reportFile report info f
  = f +:+ (if decide (f = "") then headerLine report else "")
      +:+ String.concat ","
            (str <$> PyDict.values (onReport (Report.reportData Val report info)))
      +:+ Report.newline.
Proof.
  intros Hfile. unfold Report._printSysInfo. rewrite Hfile.
  simpl negb. cbv iota.
  rewrite reportData_keys.
  unfold Report.tell, Report.print, headerLine.
  destruct (decide (f = "")) as [->|Hf].
  - rewrite decide_True by done. by rewrite !append_assoc.
  - rewrite decide_False by (by rewrite length_zero). by rewrite ?append_assoc.
Qed.

End ReportCallback.

(** X14: whatever the [onReport] callback does to the dictionary, the
    header of the report file holds the column names of the requested
    groups as they were before the callback ran, and each line after it
    holds the values that the callback left, in the order it left them:
    an entry that the callback adds gets a cell and no column name. *)
Theorem report_rows_follow_callback {Val : Type} (str : Val -> string)
    (onReport : PyDict.dict string Val -> PyDict.dict string Val)
    (reportFile : option string) (report : list string)
    (infos : list (Report.SystemInformation Val)) (f : string) :
  truthy reportFile = true ->
  Report.printAll Val str onReport reportFile report infos f
  = f +:+ (if decide (f = "" /\ infos ≠ []) then headerLine report else "")
      +:+ foldr (fun info rest =>
                   String.concat ","
                     (str <$> PyDict.values
                                (onReport (Report.reportData Val report info)))
                   +:+ Report.newline +:+ rest) "" infos.
Proof.
  intros Hfile. revert f. induction infos as [|info infos IH]; intros f.
  - simpl. rewrite decide_False by (by intros [_ ?]). by rewrite !append_nil_r.
  - unfold Report.printAll in *. simpl foldl. rewrite IH.
    assert (Hrun : Report._printSysInfo Val str onReport reportFile report info f
                   ≠ "").
    { unfold Report._printSysInfo. rewrite Hfile. apply print_not_empty. }
    rewrite (decide_False (P := _ /\ infos ≠ [])) by (by intros [? _]).
    rewrite _printSysInfo_callback by done.
    simpl foldr. change ("" +:+ ?x) with x.
    destruct (decide (f = "")) as [->|Hf].
    + rewrite decide_True by done. by rewrite !append_assoc.
    + rewrite decide_False by (by intros [? _]). by rewrite !append_assoc.
Qed.

Lemma report_rows_follow_callback_witness :
  Report.printAll Z pretty (fun data => PyDict.set "fps" 30 data)
    (Some "report.csv") ["cpu"] [sampleInfo] ""
  = "" +:+ (if decide ("" = "" /\ [sampleInfo] ≠ []) then headerLine ["cpu"]
            else "")
      +:+ foldr (fun info rest =>
                   String.concat ","
                     (pretty <$> PyDict.values
                                   (PyDict.set "fps" 30
                                      (Report.reportData Z ["cpu"] info)))
                   +:+ Report.newline +:+ rest) "" [sampleInfo].
Proof.
  apply (report_rows_follow_callback pretty
           (fun data => PyDict.set "fps" 30 data)
           (Some "report.csv") ["cpu"] [sampleInfo] "").
  reflexivity.
Defined.

(** ** What ends an iteration of [loop] early *)

(** X15: before the key handling, [loop] raises only when the input is a
    video: [StopIteration] when the capture delivers no frame, and
    [AttributeError] on the first frame when no network is used, the frame
    being handed to a network manager that [setup] did not create.  An
    iteration that raises has read no queue. *)
Theorem loop_raises_only_on_video (c : Loop.Conf) (e : Loop.Env) :
  ((Loop.loopReads c e).2 = Some StopIteration
   <-> Loop.useCamera c = false /\ Loop.readCorrectly e = false)
  /\ ((Loop.loopReads c e).2 = Some AttributeError
      <-> Loop.useCamera c = false /\ Loop.readCorrectly e = true
          /\ Loop.useNN c = false)
  /\ (forall x, (Loop.loopReads c e).2 = Some x ->
        (Loop.loopReads c e).1 = []
        /\ (x = StopIteration \/ x = AttributeError)).
Proof.
  destruct c as [cam nn sy sbb rep], e as [rd ready].
  unfold Loop.loopReads. simpl.
  destruct cam, rd, nn; simpl;
    repeat (destruct (Loop.has_sbbOut _)); simpl;
    (split_and!;
     [ split; [intros Hx|intros (? & ?)]; done
     | split; [intros Hx|intros (? & ? & ?)]; done
     | intros x Hx; simplify_eq; by auto ]).
Qed.

(** ** What the outcome of [App.stop] tells *)

(** X16: [stop] returns only after a poll, made within the 10 seconds as
    the program measures them (the float difference of the clock reading
    and [start] is less than 10), that listed the MxId, every earlier poll
    having been made in time without listing it; the only exception it
    raises is [RuntimeError], and only at a reading that is not within
    that time, no poll before having listed the MxId; and it is still
    polling exactly when every turn so far was in time and did not list
    the MxId. *)
Theorem stop_outcome_sound (mxid : string) (start : float)
    (turns : list App.turn) :
  (App.stop mxid start turns = Some (inr tt) ->
     exists k t,
       turns !! k = Some t
       /\ App.inTime start (App.now t) = true /\ mxid ∈ App.available t
       /\ forall j u, (j < k)%nat -> turns !! j = Some u ->
            App.inTime start (App.now u) = true /\ mxid ∉ App.available u)
  /\ (forall e, App.stop mxid start turns = Some (inl e) ->
        e = RuntimeError
        /\ exists k t,
             turns !! k = Some t
             /\ App.inTime start (App.now t) = false
             /\ forall j u, (j < k)%nat -> turns !! j = Some u ->
                  App.inTime start (App.now u) = true
                  /\ mxid ∉ App.available u)
  /\ (App.stop mxid start turns = None
      <-> forall t, t ∈ turns ->
            App.inTime start (App.now t) = true /\ mxid ∉ App.available t).
Proof.
  induction turns as [|t turns (IHret & IHraise & IHrun)]; simpl.
  - split_and!; [done|done|]. split; [|done].
    intros _ t Ht. by apply elem_of_nil in Ht.
  - assert (Hshift : forall (P : nat -> App.turn -> Prop),
      App.inTime start (App.now t) = true -> mxid ∉ App.available t ->
      (exists k u,
         turns !! k = Some u /\ P k u
         /\ forall j v, (j < k)%nat -> turns !! j = Some v ->
              App.inTime start (App.now v) = true /\ mxid ∉ App.available v) ->
      exists k u,
        (t :: turns) !! k = Some u /\ P (pred k) u
        /\ forall j v, (j < k)%nat -> (t :: turns) !! j = Some v ->
             App.inTime start (App.now v) = true /\ mxid ∉ App.available v).
    { intros P Hlt Hnot (k & u & Hk & HP & Hquiet).
      exists (S k), u. split; [done|]. split; [done|].
      intros [|j] v Hj; simpl; [by intros [= <-]|].
      apply Hquiet. lia. }
    destruct (App.inTime start (App.now t)) eqn:Hlt.
    + destruct (decide (mxid ∈ App.available t)) as [Hin|Hnot].
      * split_and!.
        -- intros _. exists O, t. split_and!; [done..|]. intros j u Hj. lia.
        -- intros e [=].
        -- split; [done|]. intros Hall.
           destruct (Hall t) as [_ Hnot]; [apply list_elem_of_here|done].
      * split_and!.
        -- intros Hret.
           destruct (Hshift (fun _ u => App.inTime start (App.now u) = true
                                        /\ mxid ∈ App.available u) eq_refl Hnot)
             as (k & u & Hk & [Hu Hin] & Hquiet).
           { destruct (IHret Hret) as (k & u & Hk & Hu & Hin & Hquiet).
             by exists k, u. }
           by exists k, u.
        -- intros e Hraise. destruct (IHraise e Hraise) as [-> Hwhen].
           split; [done|].
           apply (Hshift (fun _ u => App.inTime start (App.now u) = false)
                    eq_refl Hnot).
           exact Hwhen.
        -- rewrite IHrun. split.
           ++ intros Hall u [->|Hu]%elem_of_cons; [done|by apply Hall].
           ++ intros Hall u Hu. apply Hall. by apply list_elem_of_further.
    + split_and!.
      * intros [=].
      * intros e [= <-]. split; [done|].
        exists O, t. split_and!; [done..|]. intros j u Hj. lia.
      * split; [done|]. intros Hall.
        destruct (Hall t) as [Hin _]; [apply list_elem_of_here|].
        by rewrite Hlt in Hin.
Qed.

(** ** The choices that the GUI gets *)

Section ModelChoices.

Implicit Types (a b x y : string) (l : list string).

Lemma ascii_compare_refl (a : ascii) : Ascii.compare a a = Eq.
Proof. unfold Ascii.compare. apply N.compare_refl. Qed.

Lemma ascii_compare_Lt_trans (a b c : ascii) :
  Ascii.compare a b = Lt -> Ascii.compare b c = Lt -> Ascii.compare a c = Lt.
Proof. unfold Ascii.compare. rewrite !N.compare_lt_iff. lia. Qed.

Lemma string_compare_Lt_trans : forall a b c,
  String.compare a b = Lt -> String.compare b c = Lt -> String.compare a c = Lt.
Proof.
  induction a as [|a0 a IH]; intros [|b0 b] [|c0 c]; simpl; try done.
  destruct (Ascii.compare a0 b0) eqn:Hab; [|clear IH|done];
    destruct (Ascii.compare b0 c0) eqn:Hbc; try done.
  - apply Ascii.compare_eq_iff in Hab as ->.
    apply Ascii.compare_eq_iff in Hbc as ->.
    rewrite ascii_compare_refl. apply IH.
  - apply Ascii.compare_eq_iff in Hab as ->. by rewrite Hbc.
  - apply Ascii.compare_eq_iff in Hbc as <-. by rewrite Hab.
  - by rewrite (ascii_compare_Lt_trans _ _ _ Hab Hbc).
Qed.

Lemma ltb_trans a b c :
  String.ltb a b = true -> String.ltb b c = true -> String.ltb a c = true.
Proof.
  unfold String.ltb.
  destruct (String.compare a b) eqn:Hab; try done.
  destruct (String.compare b c) eqn:Hbc; try done.
  by rewrite (string_compare_Lt_trans _ _ _ Hab Hbc).
Qed.

Lemma ltb_total a b :
  a ≠ b -> String.ltb a b = false -> String.ltb b a = true.
Proof.
  unfold String.ltb. intros Hne. rewrite (String.compare_antisym b a).
  destruct (String.compare a b) eqn:Hab; try done.
  by apply String.compare_eq_iff in Hab.
Qed.

(** What [cmp_to_key] makes of the comparison: [a] goes before [b]. *)
Lemma cmp_before a b :
  Worker.cmp a b < 0
  <-> a = "mobilenet-ssd" \/ (b ≠ "mobilenet-ssd" /\ String.ltb a b = true).
Proof.
  unfold Worker.cmp. repeat case_decide.
  - split; [by left|lia].
  - split; [lia|]. intros [?|[? _]]; done.
  - destruct (String.ltb a b); split; try lia; try (by right).
    intros [?|[_ ?]]; done.
Qed.

Lemma cmp_trans a b c :
  Worker.cmp a b < 0 -> Worker.cmp b c < 0 -> Worker.cmp a c < 0.
Proof.
  rewrite !cmp_before. intros [->|[Hb Hab]] Hbc; [by left|].
  destruct Hbc as [->|[Hc Hbc]]; [done|].
  right. split; [done|]. by apply (ltb_trans a b c).
Qed.

Lemma cmp_total a b :
  a ≠ b -> ~ (Worker.cmp a b < 0) -> Worker.cmp b a < 0.
Proof.
  rewrite !cmp_before. intros Hne Hab.
  destruct (decide (b = "mobilenet-ssd")) as [->|Hb]; [by left|].
  right. split.
  - intros ->. apply Hab. by left.
  - apply ltb_total; [done|].
    destruct (String.ltb a b) eqn:Hlt; [|done].
    exfalso. apply Hab. by right.
Qed.

Lemma insert_Permutation (cmp : string -> string -> Z) x l :
  Worker.insert cmp x l ≡ₚ x :: l.
Proof.
  induction l as [|y l IH]; simpl; [done|].
  case_decide; [|done]. rewrite IH. apply Permutation_swap.
Qed.

Lemma sorted_Permutation (cmp : string -> string -> Z) l :
  Worker.sorted cmp l ≡ₚ l.
Proof.
  induction l as [|x l IH]; simpl; [done|].
  fold (Worker.sorted cmp l). by rewrite insert_Permutation, IH.
Qed.

Lemma insert_sorted x l :
  x ∉ l ->
  StronglySorted (fun a b => Worker.cmp a b < 0) l ->
  StronglySorted (fun a b => Worker.cmp a b < 0) (Worker.insert Worker.cmp x l).
Proof.
  intros Hx Hsorted. induction Hsorted as [|y l Hsorted IH Hy]; simpl.
  - by repeat constructor.
  - apply not_elem_of_cons in Hx as [Hxy Hx].
    case_decide as Hbefore.
    + constructor; [by apply IH|].
      rewrite insert_Permutation. by constructor.
    + constructor; [by constructor|].
      assert (Hxbefore : Worker.cmp x y < 0) by (by apply cmp_total).
      constructor; [done|].
      eapply Forall_impl; [exact Hy|].
      intros z Hz. by apply (cmp_trans x y z).
Qed.

Lemma sorted_sorted l :
  NoDup l ->
  StronglySorted (fun a b => Worker.cmp a b < 0) (Worker.sorted Worker.cmp l).
Proof.
  induction 1 as [|x l Hx Hnodup IH]; simpl; [constructor|].
  fold (Worker.sorted Worker.cmp l).
  apply insert_sorted; [|done]. by rewrite sorted_Permutation.
Qed.

Lemma sorted_ascending l :
  "mobilenet-ssd" ∉ l ->
  StronglySorted (fun a b => Worker.cmp a b < 0) l ->
  StronglySorted (fun a b => String.ltb a b = true) l.
Proof.
  intros Hmob Hsorted. induction Hsorted as [|y l Hsorted IH Hy]; [constructor|].
  apply not_elem_of_cons in Hmob as [Hne Hmob].
  constructor; [by apply IH|].
  eapply Forall_impl; [exact Hy|].
  intros z [?|[_ ?]]%cmp_before; done.
Qed.

End ModelChoices.

(** X17: for distinct model names, the model choices that the GUI gets are
    the available models, each once; "mobilenet-ssd", when available,
    comes first, and the other names follow in ascending order. *)
Theorem model_choices_mobilenet_first (availableZooModels : list string) :
  NoDup availableZooModels ->
  Worker.modelChoices availableZooModels ≡ₚ availableZooModels
  /\ ("mobilenet-ssd" ∈ availableZooModels ->
      exists rest,
        Worker.modelChoices availableZooModels = "mobilenet-ssd" :: rest
        /\ ("mobilenet-ssd" ∉ rest)
        /\ StronglySorted (fun a b => String.ltb a b = true) rest)
  /\ ("mobilenet-ssd" ∉ availableZooModels ->
      StronglySorted (fun a b => String.ltb a b = true)
        (Worker.modelChoices availableZooModels)).
Proof.
  intros Hnodup. unfold Worker.modelChoices.
  pose proof (sorted_Permutation Worker.cmp availableZooModels) as Hperm.
  pose proof (sorted_sorted availableZooModels Hnodup) as Hsorted.
  rewrite <- Hperm in Hnodup.
  split; [done|]. split.
  - intros Hin. rewrite <- Hperm in Hin.
    destruct (Worker.sorted Worker.cmp availableZooModels) as [|y rest];
      [by apply elem_of_nil in Hin|].
    apply StronglySorted_inv in Hsorted as [Hrest Hy].
    apply NoDup_cons in Hnodup as [Hyrest Hnodup].
    assert (y = "mobilenet-ssd") as ->.
    { apply elem_of_cons in Hin as [->|Hin]; [done|].
      rewrite Forall_forall in Hy.
      destruct (proj1 (cmp_before _ _) (Hy _ Hin)) as [?|[? _]]; done. }
    exists rest. split; [done|]. split; [done|]. by apply sorted_ascending.
  - intros Hnot. apply sorted_ascending; [|done]. by rewrite Hperm.
Qed.

Lemma model_choices_mobilenet_first_witness :
  Worker.modelChoices ["yolo-v3"; "mobilenet-ssd"; "deeplabv3p_person"]
  ≡ₚ ["yolo-v3"; "mobilenet-ssd"; "deeplabv3p_person"]
  /\ ("mobilenet-ssd" ∈ ["yolo-v3"; "mobilenet-ssd"; "deeplabv3p_person"] ->
      exists rest,
        Worker.modelChoices ["yolo-v3"; "mobilenet-ssd"; "deeplabv3p_person"]
        = "mobilenet-ssd" :: rest
        /\ ("mobilenet-ssd" ∉ rest)
        /\ StronglySorted (fun a b => String.ltb a b = true) rest)
  /\ ("mobilenet-ssd" ∉ ["yolo-v3"; "mobilenet-ssd"; "deeplabv3p_person"] ->
      StronglySorted (fun a b => String.ltb a b = true)
        (Worker.modelChoices ["yolo-v3"; "mobilenet-ssd"; "deeplabv3p_person"])).
Proof.
  apply (model_choices_mobilenet_first
           ["yolo-v3"; "mobilenet-ssd"; "deeplabv3p_person"]).
  repeat (apply NoDup_cons_2;
          [rewrite ?elem_of_cons, elem_of_nil; intuition discriminate|]).
  apply NoDup_nil_2.
Defined.

Example modelChoices_zoo :
  Worker.modelChoices ["yolo-v3"; "mobilenet-ssd"; "deeplabv3p_person"]
  = ["mobilenet-ssd"; "deeplabv3p_person"; "yolo-v3"].
Proof. reflexivity. Qed.

(** X18: the median choices that the GUI gets are the names of the filters
    that the ['m'] key cycles through, in the opposite order. *)
Theorem gui_median_choices_reversed {A : Type} (members : list (string * A)) :
  zip (reverse (Worker.medianChoices members)) (Demo.medianChoices members)
  = List.filter
      (fun '(name, _) =>
         String.prefix "KERNEL_" name || String.prefix "MEDIAN_" name)
      members
  /\ length (Worker.medianChoices members)
     = length (Demo.medianChoices members).
Proof.
  unfold Worker.medianChoices, Demo.medianChoices.
  rewrite reverse_involutive, length_reverse.
  induction members as [|[name item] members [IHzip IHlen]]; [done|].
  simpl. destruct (String.prefix "KERNEL_" name || String.prefix "MEDIAN_" name);
    simpl; [|done].
  split; f_equal; [exact IHzip|exact IHlen].
Qed.

(** ** The label of the median filter *)

Lemma lstrip_cons_in (chars : string) (a : ascii) (s : string) :
  ShowFrames.occurs a chars = true ->
  ShowFrames.lstrip chars (String a s) = ShowFrames.lstrip chars s.
Proof. intros Hin. simpl. by rewrite Hin. Qed.

Lemma lstrip_cons_out (chars : string) (a : ascii) (s : string) :
  ShowFrames.occurs a chars = false ->
  ShowFrames.lstrip chars (String a s) = String a s.
Proof. intros Hout. simpl. by rewrite Hout. Qed.

(** X19: for a filter named ["KERNEL_"] or ["MEDIAN_"] and a remainder, the
    label drawn on the depth frames is the remainder, provided that the
    remainder does not begin with one of the characters of these two
    prefixes: [lstrip] takes a set of characters, not a prefix. *)
Theorem median_label_is_remainder (rest : string) :
  (forall a rest', rest = String a rest' ->
     ShowFrames.occurs a "KERNEL_" = false
     /\ ShowFrames.occurs a "MEDIAN_" = false) ->
  ShowFrames.medianLabel ("KERNEL_" +:+ rest) = rest
  /\ ShowFrames.medianLabel ("MEDIAN_" +:+ rest) = rest.
Proof.
  intros Hrest. unfold ShowFrames.medianLabel.
  rewrite !append_cons. change ("" +:+ rest) with rest.
  rewrite !(lstrip_cons_in "KERNEL_") by reflexivity.
  rewrite (lstrip_cons_out "KERNEL_" "M") by reflexivity.
  rewrite !(lstrip_cons_in "MEDIAN_") by reflexivity.
  destruct rest as [|a rest']; [done|].
  destruct (Hrest a rest' eq_refl) as [Hkernel Hmedian].
  by rewrite (lstrip_cons_out "KERNEL_" a), (lstrip_cons_out "MEDIAN_" a).
Qed.

Lemma median_label_is_remainder_witness :
  ShowFrames.medianLabel ("KERNEL_" +:+ "5x5") = "5x5"
  /\ ShowFrames.medianLabel ("MEDIAN_" +:+ "5x5") = "5x5".
Proof.
  apply (median_label_is_remainder "5x5").
  intros a rest' [= <- _]. split; reflexivity.
Defined.

Example medianLabel_members :
  ShowFrames.medianLabel <$> ["MEDIAN_OFF"; "KERNEL_3x3"; "KERNEL_5x5"; "KERNEL_7x7"]
  = ["OFF"; "3x3"; "5x5"; "7x7"].
Proof. reflexivity. Qed.

(** ** The name of the report file, once more *)

Lemma substring_append_l (s t : string) :
  substring 0 (String.length s) (s +:+ t) = s.
Proof.
  induction s as [|a s IH]; [by destruct t|].
  rewrite append_cons. simpl. by rewrite IH.
Qed.

Lemma reportFileName_kept (stem : string) :
  stem ≠ "" ->
  Report.reportFileName (stem +:+ ".csv") = inr (stem +:+ ".csv").
Proof.
  intros Hstem. unfold Report.reportFileName, Pathlib.with_suffix.
  rewrite decide_False by (simpl; by intros [? ?]).
  rewrite decide_False by (intros [[_ ?]|?]; done).
  rewrite decide_False.
  - rewrite (suffix_csv stem Hstem). rewrite decide_False by done.
    rewrite length_append.
    replace (String.length stem + String.length ".csv" - String.length ".csv")%nat
      with (String.length stem) by lia.
    by rewrite substring_append_l.
  - intros Hempty%length_zero. rewrite length_append in Hempty. simpl in Hempty.
    lia.
Qed.

(** X20: the name that [setup] opens the report under is a fixed point of
    the renaming: a report file given with the suffix [.csv] is opened
    under its own name, and the name computed for any report file is the
    one computed again from it, so that the next run appends to the same
    file. *)
Theorem report_file_name_idempotent (name name' : string) :
  Report.reportFileName name = inr name' ->
  Report.reportFileName name' = inr name'.
Proof.
  intros Hname.
  destruct (decide (name = "")) as [->|Hne]; [done|].
  destruct (reportFileName_csv name Hne) as (stem & Hstem & Hcsv).
  rewrite Hcsv in Hname. injection Hname as <-.
  by apply reportFileName_kept.
Qed.

Lemma report_file_name_idempotent_witness :
  Report.reportFileName "logs.2021.txt" = inr "logs.2021.csv"
  /\ Report.reportFileName "logs.2021.csv" = inr "logs.2021.csv".
Proof.
  split; [reflexivity|].
  apply (report_file_name_idempotent "logs.2021.txt" "logs.2021.csv").
  reflexivity.
Defined.
